(** * Cross-token pattern search and adjacency statistics over the BHSA corpus

    A shallow embedding of [yhwh_between_search.py] and
    [yhwh_between_stats.py], and the properties of the normaliser, the
    prefix-span matcher, the corpus scanner and the statistics engine.

    Conventions of the embedding:
    - a Python [str] is the list of its code points ([list N]);
    - a Python [int] is a [Z]; a list length is [Z.of_nat (length l)];
    - a Python [float] is a binary64 [float] of the kernel, so that every
      rounding of the source is the rounding of the model;
    - [unicodedata] and the [math] functions [exp], [log] and [lgamma] are
      library code: they are parameters of the development (classes
      [Unicodedata] and [Libm]);
    - a raised [ValueError] or [SystemExit] is the left injection of a sum;
    - the one unbounded loop ([while True] in [_poisson_tail]) takes fuel and
      returns [None] when the fuel runs out;
    - the file system is not modelled: [available_modules] takes the entries
      of the data directory as its argument;
    - calls to [print] are left out, except in [summarize_by_book], which
      does nothing else: its result is the list of the lines it prints. *)

From Stdlib Require Import ZArith NArith Lia Floats Uint63 String Ascii DecimalString.
From stdpp Require Import base option list sorting gmap.

Local Open Scope Z_scope.

(** * Python values *)

Abbreviation char := N (only parsing).
Abbreviation str := (list N) (only parsing).

(** An ASCII literal of the source as a [str]. *)
Fixpoint lit (s : string) : str :=
  match s with
  | EmptyString => []
  | String a s' => N_of_ascii a :: lit s'
  end.

(** [str(n)] and the [{n}] of an f-string, for an [int]. *)
Definition str_of_int (n : Z) : str :=
  lit (NilZero.string_of_int (Z.to_int n)).

(** [s.startswith(p)]. *)
Fixpoint startswith (s p : str) : bool :=
  match p, s with
  | [], _ => true
  | _ :: _, [] => false
  | c :: p', d :: s' => (c =? d)%N && startswith s' p'
  end.

(** [s.endswith(p)]. *)
Definition endswith (s p : str) : bool :=
  startswith (reverse s) (reverse p).

(** [s.translate(table)] for a table that maps code points to strings. *)
Definition translate (table : gmap N str) (s : str) : str :=
  s ≫= (λ ch, default [ch] (table !! ch)).

(** [s.replace(old, new)] when [old] is a single character. *)
Definition replace_char (old : char) (new : str) (s : str) : str :=
  s ≫= (λ ch, if decide (ch = old) then new else [ch]).

(** [sep.join(parts)]. *)
Fixpoint join (sep : str) (parts : list str) : str :=
  match parts with
  | [] => []
  | [p] => p
  | p :: ps => p ++ sep ++ join sep ps
  end.

(** [ch.isspace()]: the code points that [str.strip()] removes. *)
Definition isspace (ch : char) : bool :=
  ((0x09 <=? ch) && (ch <=? 0x0d) || (0x1c <=? ch) && (ch <=? 0x20)
   || (ch =? 0x85) || (ch =? 0xa0) || (ch =? 0x1680)
   || (0x2000 <=? ch) && (ch <=? 0x200a) || (ch =? 0x2028) || (ch =? 0x2029)
   || (ch =? 0x202f) || (ch =? 0x205f) || (ch =? 0x3000))%N.

Fixpoint lstrip (s : str) : str :=
  match s with
  | ch :: s' => if isspace ch then lstrip s' else s
  | [] => []
  end.

(** [s.strip()]. *)
Definition strip (s : str) : str :=
  reverse (lstrip (reverse (lstrip s))).

(** The loop of [s.split()]: [word] holds the characters of the word being
    read. *)
Fixpoint split_loop (word s : str) : list str :=
  match s with
  | [] => match word with [] => [] | _ :: _ => [word] end
  | ch :: s' =>
    if isspace ch
    then match word with
         | [] => split_loop [] s'
         | _ :: _ => word :: split_loop [] s'
         end
    else split_loop (word ++ [ch]) s'
  end.

(** [s.split()]: the maximal runs of characters of [s] that are not white
    space. *)
Definition split_whitespace (s : str) : list str := split_loop [] s.

(** [f"{s:<w>s}"]: [s] padded with spaces on the right to the width [w]. *)
Definition ljust (width : nat) (s : str) : str :=
  s ++ replicate (width - length s) 0x20%N.

(** [f"{n:<w>d}"]: the decimal digits of [n] padded with spaces on the left
    to the width [w]. *)
Definition rjust (width : nat) (s : str) : str :=
  replicate (width - length s) 0x20%N ++ s.

(** [s <= t] on two [str]s: the lexicographic order of their code points. *)
Fixpoint str_le (s t : str) : bool :=
  match s, t with
  | [], _ => true
  | _ :: _, [] => false
  | c :: s', d :: t' => (c <? d)%N || (c =? d)%N && str_le s' t'
  end.

(** [sorted(names)] on a list of [str]s. The order is total and two names
    that compare equal are the same string, so the sorted list does not
    depend on the sorting algorithm. *)
Definition sorted (names : list str) : list str :=
  merge_sort (λ s t, Is_true (str_le s t)) names.

(** [float(n)], and the conversion of an [int] operand in mixed arithmetic,
    for [|n| < 2^63]; it is exact for [|n| <= 2^53]. *)
Definition float_of_int (n : Z) : float :=
  if n <? 0 then (- of_uint63 (Uint63.of_Z (- n)))%float
  else of_uint63 (Uint63.of_Z n).

(** [a / b] on two [int]s; Python rounds the exact quotient once, which is
    what dividing the converted operands does when both are below [2^53]. *)
Definition int_truediv (a b : Z) : float :=
  (float_of_int a / float_of_int b)%float.

(** [min(a, b)] on floats: [b] replaces [a] only when [b < a]. *)
Definition float_min (a b : float) : float :=
  if (b <? a)%float then b else a.

(** [sum(flags)] over a list of booleans. *)
Definition sum_bools (flags : list bool) : Z :=
  foldl (λ acc (b : bool), acc + (if b then 1 else 0)) 0 flags.

(** [sum(xs)] over a list of [int]s. *)
Definition sum_ints (xs : list Z) : Z :=
  foldl Z.add 0 xs.

(** * Library interfaces *)

Inductive normal_form := NFC | NFD.

(** The general category "Mn" (nonspacing mark) as [unicodedata.category]
    returns it. *)
Definition Mn : str := lit "Mn".

(** [unicodedata.normalize(form, text)] and [unicodedata.category(ch)]. *)
Class Unicodedata := {
  normalize : normal_form → str → str;
  category : N → str;
}.

(** [math.exp], [math.log] and [math.lgamma]. *)
Class Libm := {
  math_exp : float → float;
  math_log : float → float;
  math_lgamma : float → float;
}.

(** * yhwh_between_stats.py *)

Module Stats.

Definition FINAL_FORM_TRANSLATION : gmap N str :=
  list_to_map
    [ (0x5da, [0x5db]); (0x5dd, [0x5de]); (0x5df, [0x5e0]);
      (0x5e3, [0x5e4]); (0x5e5, [0x5e6]) ]%N.

Record WordInfo := { text : str; book : str }.

Record PatternStats := {
  scope : str;
  total_words : Z;
  suffix_count : Z;
  prefix_count : Z;
  expected_adjacent : float;
  observed_adjacent : Z;
  suffix_percent : float;
  prefix_percent : float;
  ratio : float;
  p_value : float;
}.

Inductive exception := ValueError (msg : str).

(** What [load_words] reads of the Text-Fabric [api]: the word nodes
    [F.otype.s("word")], the feature [F.g_word_utf8.v] ([None] for a node
    without a value) and [T.sectionFromNode] (book, chapter, verse). *)
Record Api := {
  otype_word : list Z;
  g_word_utf8 : Z → option str;
  sectionFromNode : Z → option (str * Z * Z);
}.

Section WithUnicodedata.
Context `{Unicodedata}.

Definition normalize_for_match (text : str) : str :=
  match text with
  | [] => []
  | _ =>
    let decomposed := normalize NFD text in
    let stripped := filter (λ ch, category ch ≠ Mn) decomposed in
    let normalized := normalize NFC stripped in
    translate FINAL_FORM_TRANSLATION normalized
  end.

Definition strip_diacritics (text : str) : str :=
  let text := replace_char 0x5be%N [] text in
  normalize_for_match text.

(** [load_words] once the Text-Fabric data is loaded: one [WordInfo] per
    word node, in corpus order (the checks that the data exists are about
    the file system and are left out). *)
Definition load_words (api : Api) : list WordInfo :=
  (λ node,
     let raw := default [] (g_word_utf8 api node) in
     let section := sectionFromNode api node in
     let book :=
       match section with
       | Some (book, _, _) => book
       | None => lit "Unknown"
       end in
     {| text := strip_diacritics raw; book := book |}) <$> otype_word api.

End WithUnicodedata.

Definition _suffix_flags (words : list WordInfo) (suffix_target : str) : list bool :=
  match suffix_target with
  | [] => replicate (length words) true
  | _ => (λ word, endswith (text word) suffix_target) <$> words
  end.

(** The [while] loop of [_prefix_flags]: [rest] holds [words[idx:]], so
    [idx < total] is [rest] being non-empty; the result is the pair
    [(remaining, matched)] the loop ends with. *)
Fixpoint prefix_loop (rest : list WordInfo) (remaining : str) (matched : bool)
  : str * bool :=
  match rest, remaining with
  | [], _ | _, [] => (remaining, matched)
  | word :: rest', _ :: _ =>
    let segment := text word in
    match segment with
    | [] => (remaining, matched)
    | _ :: _ =>
      if startswith segment remaining then ([], true)
      else if startswith remaining segment
      then prefix_loop rest' (drop (length segment) remaining) true
      else (remaining, matched)
    end
  end.

Definition _prefix_flags (words : list WordInfo) (prefix_target : str) : list bool :=
  let total := length words in
  let flags := replicate total false in
  match prefix_target with
  | [] => flags
  | _ =>
    foldl (λ flags start,
             let '(remaining, matched) := prefix_loop (drop start words) prefix_target false in
             match remaining with
             | [] => if matched then <[start := true]> flags else flags
             | _ => flags
             end)
          flags (seq 0 total)
  end.

(** The [while True] loop of [_poisson_tail]. *)
Fixpoint poisson_loop (fuel : nat) (lam : float) (k : Z) (term tail : float)
  : option float :=
  match fuel with
  | O => None
  | S fuel' =>
    let k := k + 1 in
    let term := (term * (lam / float_of_int k))%float in
    let tail := (tail + term)%float in
    if (term <? 0x1.19799812dea11p-40)%float then Some tail
    else poisson_loop fuel' lam k term tail
  end.

Section WithLibm.
Context `{Libm}.

Definition _poisson_tail (fuel : nat) (observed : Z) (lam : float) : option float :=
  if (lam <=? 0)%float then Some (if 0 <? observed then 0%float else 1%float)
  else if observed <=? 0 then Some 1%float
  else
    let term :=
      math_exp (float_of_int observed * math_log lam - lam
                - math_lgamma (float_of_int (observed + 1)))%float in
    tail ← poisson_loop fuel lam observed term term;
    Some (float_min 1 tail).

Definition compute_pattern_stats (fuel : nat) (scope : str) (words : list WordInfo)
    (suffix_target prefix_target : str) : option PatternStats :=
  let total_words := Z.of_nat (length words) in
  if total_words =? 0
  then Some (Build_PatternStats scope 0 0 0 0 0 0 0 infinity 1)
  else
    let suffix_flags := _suffix_flags words suffix_target in
    let prefix_flags := _prefix_flags words prefix_target in
    let suffix_count := sum_bools suffix_flags in
    let prefix_count := sum_bools prefix_flags in
    let probability_suffix := int_truediv suffix_count total_words in
    let probability_prefix := int_truediv prefix_count total_words in
    let expected_adjacent :=
      (float_of_int (total_words - 1) * probability_suffix * probability_prefix)%float in
    let observed_adjacent :=
      sum_ints
        (seq 0 (Z.to_nat (total_words - 1)) ≫=
           (λ idx, if (suffix_flags !!! idx) && (prefix_flags !!! (idx + 1))%nat
                   then [1] else [])) in
    let ratio :=
      if (expected_adjacent =? 0)%float then infinity
      else (float_of_int observed_adjacent / expected_adjacent)%float in
    p_value ← _poisson_tail fuel observed_adjacent expected_adjacent;
    Some {|
      scope := scope;
      total_words := total_words;
      suffix_count := suffix_count;
      prefix_count := prefix_count;
      expected_adjacent := expected_adjacent;
      observed_adjacent := observed_adjacent;
      suffix_percent := (probability_suffix * 100)%float;
      prefix_percent := (probability_prefix * 100)%float;
      ratio := ratio;
      p_value := p_value;
    |}.

End WithLibm.

Section WithUnicodedata.
Context `{Unicodedata}.

Definition resolve_targets (word suffix_target prefix_target : option str)
    (split_index : option Z) : exception + (str * str) :=
  let normalized_word := normalize_for_match (default [] word) in
  let suffix :=
    match suffix_target with
    | Some ((_ :: _) as t) => normalize_for_match t
    | _ => []
    end in
  let prefix :=
    match prefix_target with
    | Some ((_ :: _) as t) => normalize_for_match t
    | _ => []
    end in
  match suffix, prefix with
  | _ :: _, _ :: _ => inr (suffix, prefix)
  | _, _ =>
    match normalized_word with
    | [] =>
      inl (ValueError (lit "Provide --word (or BHSA_TARGET_WORD) unless both --suffix-target and --prefix-target are supplied."))
    | _ =>
      let length := Z.of_nat (length normalized_word) in
      if length <? 2
      then inl (ValueError (lit "The normalized target word must contain at least two letters."))
      else
        let check :=
          match split_index with
          | None =>
            inr (Z.max 1 (Z.min (length - 1)
                                (if length `div` 2 =? 0 then 1 else length `div` 2)))
          | Some split_index =>
            if negb ((0 <? split_index) && (split_index <? length))
            then inl (ValueError
                   (lit "--split-index must fall between 1 and " ++ str_of_int (length - 1)
                    ++ lit " for '" ++ default (lit "None") word ++ lit "'."))
            else inr split_index
          end in
        match check with
        | inl e => inl e
        | inr split_idx =>
          let resolved_suffix :=
            match suffix with
            | [] => take (Z.to_nat split_idx) normalized_word
            | _ => suffix
            end in
          let resolved_prefix :=
            match prefix with
            | [] => drop (Z.to_nat split_idx) normalized_word
            | _ => prefix
            end in
          match resolved_suffix, resolved_prefix with
          | _ :: _, _ :: _ => inr (resolved_suffix, resolved_prefix)
          | _, _ =>
            inl (ValueError (lit "Both suffix and prefix must be non-empty after normalization."))
          end
        end
    end
  end.

End WithUnicodedata.

End Stats.

(** * yhwh_between_search.py *)

Module Search.

Definition WORD_TO_SEARCH : str := [0x5e9; 0x5dc; 0x5d5; 0x5de]%N.
Definition FIRST_WORD_SUFFIX : str := take 2 WORD_TO_SEARCH.
Definition SECOND_WORD_PREFIX : str := drop 2 WORD_TO_SEARCH.

Definition FINAL_FORM_TRANSLATION : gmap N str :=
  list_to_map
    [ (0x5da, [0x5db]); (0x5dd, [0x5de]); (0x5df, [0x5e0]);
      (0x5e3, [0x5e4]); (0x5e5, [0x5e6]) ]%N.

Record WordSpan := {
  nodes : list Z;
  consonantal : str;
  pointed : str;
  reference : str;
}.

Record InterWordMatch := {
  first : WordSpan;
  second : WordSpan;
  context : str;
}.

(** What [collect_matches] reads of the Text-Fabric [api]: the word nodes
    [F.otype.s("word")], the features [F.g_cons_utf8.v] and [F.g_word_utf8.v]
    (which answer [None] for a node without a value) and
    [T.sectionFromNode] (book, chapter, verse). *)
Record Api := {
  otype_word : list Z;
  g_cons_utf8 : Z → option str;
  g_word_utf8 : Z → option str;
  sectionFromNode : Z → option (str * Z * Z);
}.

Definition format_reference (section : option (str * Z * Z)) : str :=
  match section with
  | None => lit "Unknown reference"
  | Some (book, chapter, verse) =>
    book ++ lit " " ++ str_of_int chapter ++ lit ":" ++ str_of_int verse
  end.

Inductive exception := SystemExit (msg : str).

(** [available_modules()] on a data directory that exists: [entries] is what
    [BHSA_DATA_DIR.iterdir()] yields, the name of each entry with whether it
    is a directory (cloning the repository and the check that the directory
    exists are operations on the file system and are left out). *)
Definition available_modules (entries : list (str * bool)) : list str :=
  sorted (entries ≫= (λ p, if p.2 && negb (startswith p.1 (lit ".")) then [p.1] else [])).

(** [choose_module(preferred)], given the path [data_dir] of [BHSA_DATA_DIR]
    and the list [modules] that [available_modules()] reads off the data
    directory; [inl] is the raised [SystemExit]. *)
Definition choose_module (data_dir : str) (modules : list str)
    (preferred : option str) : exception + str :=
  match modules with
  | [] => inl (SystemExit (lit "No Text-Fabric modules found in " ++ data_dir ++ lit "."))
  | _ =>
    match preferred with
    | Some ((_ :: _) as preferred) =>
      if bool_decide (preferred ∈ modules) then inr preferred
      else inr (default [] (last modules))
    | _ => inr (default [] (last modules))
    end
  end.

(** The first loop of [summarize_by_book]: [summary] is the
    [defaultdict(int)] built so far; [None] is the [IndexError] of
    [match.first.reference.split()[0]] on a reference with no word. *)
Fixpoint summary_loop (matches : list InterWordMatch) (summary : gmap str Z)
  : option (gmap str Z) :=
  match matches with
  | [] => Some summary
  | match_ :: rest =>
    book ← head (split_whitespace (reference (first match_)));
    summary_loop rest (<[book := default 0 (summary !! book) + 1]> summary)
  end.

(** [summarize_by_book(matches)]: the lines it prints, one per call of
    [print]. *)
Definition summarize_by_book (matches : list InterWordMatch) : option (list str) :=
  summary ← summary_loop matches ∅;
  if decide (summary = ∅) then Some []
  else
    Some ([replicate 60 0x3d%N; lit "SUMMARY BY BOOK"; replicate 60 0x3d%N]
          ++ ((λ book,
                 let count := default 0 (summary !! book) in
                 ljust 20 book ++ lit ": " ++ rjust 3 (str_of_int count)
                 ++ lit " instance" ++ (if decide (count ≠ 1) then lit "s" else []))
              <$> sorted (map_to_list summary).*1)
          ++ [[]]).

(** [xs[a:b]] for [0 <= a] and [0 <= b]. *)
Definition slice {A} (a b : Z) (xs : list A) : list A :=
  drop (Z.to_nat a) (take (Z.to_nat b) xs).

Section WithUnicodedata.
Context `{Unicodedata}.

Definition normalize_for_match (text : str) : str :=
  match text with
  | [] => []
  | _ =>
    let decomposed := normalize NFD text in
    let stripped := filter (λ ch, category ch ≠ Mn) decomposed in
    let normalized := normalize NFC stripped in
    translate FINAL_FORM_TRANSLATION normalized
  end.

Section CollectMatches.
(** The values of the module globals [FIRST_WORD_SUFFIX] and
    [SECOND_WORD_PREFIX] when the scan runs: the source is edited by hand to
    search another word, so the scan is stated for any pair. *)
Variables first_word_suffix second_word_prefix : str.
Variable api : Api.

(** [build_span(nodes)]; [None] is the [IndexError] of [node_tuple[0]]. *)
Definition build_span (nodes : list Z) : option WordSpan :=
  let node_tuple := nodes in
  let pointed := mjoin ((λ n, default [] (g_word_utf8 api n)) <$> node_tuple) in
  let consonantal := mjoin ((λ n, default [] (g_cons_utf8 api n)) <$> node_tuple) in
  n0 ← head node_tuple;
  let reference := format_reference (sectionFromNode api n0) in
  Some {| nodes := node_tuple; consonantal := consonantal;
          pointed := pointed; reference := reference |}.

(** The [while] loop of [second_span_nodes]: [rest] holds [word_nodes[idx:]],
    so [idx < total_words] is [rest] being non-empty; the result is what
    the function returns once the loop is left. *)
Fixpoint second_span_loop (rest : list Z) (remaining : str) (nodes : list Z)
  : option (list Z) :=
  match rest, remaining with
  | [], [] | _ :: _, [] => Some nodes
  | [], _ :: _ => None
  | node :: rest', _ :: _ =>
    let cons := default [] (g_cons_utf8 api node) in
    let norm := normalize_for_match cons in
    match norm with
    | [] => None
    | _ :: _ =>
      if startswith norm remaining then Some (nodes ++ [node])
      else if startswith remaining norm
      then second_span_loop rest' (drop (length norm) remaining) (nodes ++ [node])
      else None
    end
  end.

Definition second_span_nodes (start_index : nat) (prefix : str) : option (list Z) :=
  match prefix with
  | [] => None
  | _ => second_span_loop (drop start_index (otype_word api)) prefix []
  end.

(** The [for idx, first_node in enumerate(word_nodes[:-1])] loop: [rest] holds
    the nodes still to visit, [matches] the list built so far; [None] is an
    exception raised by the body. *)
Fixpoint scan_loop (suffix_target prefix_target : str)
    (idx : nat) (rest : list Z) (matches : list InterWordMatch)
  : option (list InterWordMatch) :=
  match rest with
  | [] => Some matches
  | first_node :: rest' =>
    let word_nodes := otype_word api in
    let total_words := Z.of_nat (length word_nodes) in
    let first_cons := default [] (g_cons_utf8 api first_node) in
    let first_norm := normalize_for_match first_cons in
    if match suffix_target with
       | [] => false
       | _ => negb (endswith first_norm suffix_target)
       end
    then scan_loop suffix_target prefix_target (S idx) rest' matches
    else
      match second_span_nodes (idx + 1) prefix_target with
      | None | Some [] => scan_loop suffix_target prefix_target (S idx) rest' matches
      | Some span_nodes =>
        first_span ← build_span [first_node];
        second_span ← build_span span_nodes;
        let span_length := Z.of_nat (length span_nodes) in
        let context_start := Z.max (Z.of_nat idx - 3) 0 in
        let context_end := Z.min (Z.of_nat idx + 1 + span_length + 3) total_words in
        let context_slice := slice context_start context_end word_nodes in
        let context_words := (λ node, default [] (g_word_utf8 api node)) <$> context_slice in
        let context :=
          strip (join (lit " ") (filter (λ word, word ≠ []) context_words)) in
        scan_loop suffix_target prefix_target (S idx) rest'
          (matches ++ [ {| first := first_span; second := second_span; context := context |} ])
      end
  end.

Definition collect_matches : option (list InterWordMatch) :=
  let word_nodes := otype_word api in
  let suffix_target := normalize_for_match first_word_suffix in
  let prefix_target := normalize_for_match second_word_prefix in
  scan_loop suffix_target prefix_target 0
    (take (length word_nodes - 1) word_nodes) [].

End CollectMatches.
End WithUnicodedata.

End Search.

(** * Laws of the library interfaces *)

(** What the normaliser relies on from the Unicode standard: a composed
    text and a decomposed text have the text's own decomposition and
    composition (UAX 15); decomposing a text made of decomposed characters
    other than nonspacing marks brings no such mark back; the Hebrew letters
    are not marks; in a composed text the final letters stand alone, and in
    a decomposed text they compose with nothing, so folding them to their
    base letters commutes with decomposing the one and composing the other;
    and neither form produces a maqaf (U+05BE) that the text does not have. *)
Class UnicodedataLaws `{Unicodedata} : Prop := {
  nfd_of_nfc text :
    normalize NFD (normalize NFC text) = normalize NFD text;
  nfc_of_nfd text :
    normalize NFC (normalize NFD text) = normalize NFC text;
  nfd_of_stripped text :
    Forall (λ ch, category ch ≠ Mn)
      (normalize NFD (filter (λ ch, category ch ≠ Mn) (normalize NFD text)));
  hebrew_letter_not_mark ch :
    (0x5d0 ≤ ch ≤ 0x5ea)%N → category ch ≠ Mn;
  nfd_fold_final text :
    normalize NFD (translate Stats.FINAL_FORM_TRANSLATION (normalize NFC text))
    = translate Stats.FINAL_FORM_TRANSLATION (normalize NFD (normalize NFC text));
  nfc_fold_final text :
    normalize NFC (translate Stats.FINAL_FORM_TRANSLATION (normalize NFD text))
    = translate Stats.FINAL_FORM_TRANSLATION (normalize NFC (normalize NFD text));
  normalize_maqaf form text :
    0x5be%N ∈ normalize form text → 0x5be%N ∈ text;
}.

(** * Instances of the library interfaces, to run the model *)

(** The Unicode data (version 14) of the Hebrew script: the block
    U+0590..U+05FF and the presentation forms U+FB1D..U+FB4F. Code points
    outside these two ranges are not described: they get the category "Cn",
    the combining class 0 and no decomposition. *)
Module Hebrew.

(** [unicodedata.category]. *)
Definition category (ch : char) : str :=
  if ((0x591 <=? ch) && (ch <=? 0x5bd) || (ch =? 0x5bf) || (ch =? 0x5c1)
      || (ch =? 0x5c2) || (ch =? 0x5c4) || (ch =? 0x5c5) || (ch =? 0x5c7)
      || (ch =? 0xfb1e))%N
  then lit "Mn"
  else if (ch =? 0x5be)%N then lit "Pd"
  else if ((ch =? 0x5c0) || (ch =? 0x5c3) || (ch =? 0x5c6)
           || (ch =? 0x5f3) || (ch =? 0x5f4))%N
  then lit "Po"
  else if (ch =? 0xfb29)%N then lit "Sm"
  else if ((0x5d0 <=? ch) && (ch <=? 0x5ea) || (0x5ef <=? ch) && (ch <=? 0x5f2)
           || (ch =? 0xfb1d) || (0xfb1f <=? ch) && (ch <=? 0xfb28)
           || (0xfb2a <=? ch) && (ch <=? 0xfb36) || (0xfb38 <=? ch) && (ch <=? 0xfb3c)
           || (ch =? 0xfb3e) || (ch =? 0xfb40) || (ch =? 0xfb41)
           || (ch =? 0xfb43) || (ch =? 0xfb44)
           || (0xfb46 <=? ch) && (ch <=? 0xfb4f))%N
  then lit "Lo"
  else lit "Cn".

(** [unicodedata.combining]: the canonical combining classes that are not 0. *)
Definition combining_classes : gmap N N :=
  list_to_map
    [(0x591, 220); (0x592, 230); (0x593, 230); (0x594, 230); (0x595, 230);
      (0x596, 220); (0x597, 230); (0x598, 230); (0x599, 230); (0x59a, 222);
      (0x59b, 220); (0x59c, 230); (0x59d, 230); (0x59e, 230); (0x59f, 230);
      (0x5a0, 230); (0x5a1, 230); (0x5a2, 220); (0x5a3, 220); (0x5a4, 220);
      (0x5a5, 220); (0x5a6, 220); (0x5a7, 220); (0x5a8, 230); (0x5a9, 230);
      (0x5aa, 220); (0x5ab, 230); (0x5ac, 230); (0x5ad, 222); (0x5ae, 228);
      (0x5af, 230); (0x5b0, 10); (0x5b1, 11); (0x5b2, 12); (0x5b3, 13);
      (0x5b4, 14); (0x5b5, 15); (0x5b6, 16); (0x5b7, 17); (0x5b8, 18);
      (0x5b9, 19); (0x5ba, 19); (0x5bb, 20); (0x5bc, 21); (0x5bd, 22);
      (0x5bf, 23); (0x5c1, 24); (0x5c2, 25); (0x5c4, 230); (0x5c5, 220);
      (0x5c7, 18); (0xfb1e, 26) ]%N.

Definition combining (ch : char) : N := default 0%N (combining_classes !! ch).

(** The full canonical decompositions. All of them are excluded from
    composition, so that no two code points of the script compose. *)
Definition decompositions : gmap N str :=
  list_to_map
    [(0xfb1d, [0x5d9; 0x5b4]); (0xfb1f, [0x5f2; 0x5b7]);
      (0xfb2a, [0x5e9; 0x5c1]); (0xfb2b, [0x5e9; 0x5c2]);
      (0xfb2c, [0x5e9; 0x5bc; 0x5c1]); (0xfb2d, [0x5e9; 0x5bc; 0x5c2]);
      (0xfb2e, [0x5d0; 0x5b7]); (0xfb2f, [0x5d0; 0x5b8]);
      (0xfb30, [0x5d0; 0x5bc]); (0xfb31, [0x5d1; 0x5bc]);
      (0xfb32, [0x5d2; 0x5bc]); (0xfb33, [0x5d3; 0x5bc]);
      (0xfb34, [0x5d4; 0x5bc]); (0xfb35, [0x5d5; 0x5bc]);
      (0xfb36, [0x5d6; 0x5bc]); (0xfb38, [0x5d8; 0x5bc]);
      (0xfb39, [0x5d9; 0x5bc]); (0xfb3a, [0x5da; 0x5bc]);
      (0xfb3b, [0x5db; 0x5bc]); (0xfb3c, [0x5dc; 0x5bc]);
      (0xfb3e, [0x5de; 0x5bc]); (0xfb40, [0x5e0; 0x5bc]);
      (0xfb41, [0x5e1; 0x5bc]); (0xfb43, [0x5e3; 0x5bc]);
      (0xfb44, [0x5e4; 0x5bc]); (0xfb46, [0x5e6; 0x5bc]);
      (0xfb47, [0x5e7; 0x5bc]); (0xfb48, [0x5e8; 0x5bc]);
      (0xfb49, [0x5e9; 0x5bc]); (0xfb4a, [0x5ea; 0x5bc]);
      (0xfb4b, [0x5d5; 0x5b9]); (0xfb4c, [0x5d1; 0x5bf]);
      (0xfb4d, [0x5db; 0x5bf]); (0xfb4e, [0x5e4; 0x5bf]) ]%N.

Definition decompose (text : str) : str :=
  text ≫= (λ ch, default [ch] (decompositions !! ch)).

(** Canonical ordering: a character of class [k > 0] moves in front of the
    characters before it that have a class above [k]. [rev] is the text
    ordered so far, last character first. *)
Fixpoint insert_mark (ch : char) (rev : str) : str :=
  match rev with
  | d :: rest =>
    if ((0 <? combining ch) && (combining ch <? combining d))%N
    then d :: insert_mark ch rest
    else ch :: rev
  | [] => [ch]
  end.

Definition canonical_order (text : str) : str :=
  reverse (foldl (λ rev ch, insert_mark ch rev) [] text).

(** [unicodedata.normalize]: with no composition to make, NFC and NFD are
    both the ordered decomposition. *)
Definition normalize (form : normal_form) (text : str) : str :=
  canonical_order (decompose text).

(** [rev], a text with its last character first, is in canonical order. *)
Fixpoint ordered (rev : str) : Prop :=
  match rev with
  | ch :: rest =>
    match rest with
    | d :: _ => ((0 <? combining ch) && (combining ch <? combining d))%N = false
    | [] => True
    end ∧ ordered rest
  | [] => True
  end.

(** A code point with no decomposition. *)
Definition atomic (ch : char) : Prop := decompositions !! ch = None.

#[global] Instance atomic_dec (ch : char) : Decision (atomic ch) :=
  decide (decompositions !! ch = None).

End Hebrew.

Definition hebrew_unicodedata : Unicodedata :=
  {| normalize := Hebrew.normalize; category := Hebrew.category |}.

Module Series.

(** [exp x] by the Taylor polynomial of degree 20 at [x / 2^10], squared ten
    times. *)
Fixpoint taylor (n : nat) (i : Z) (y term acc : float) : float :=
  match n with
  | O => acc
  | S n' =>
    let term := (term * y / float_of_int i)%float in
    taylor n' (i + 1) y term (acc + term)%float
  end.

Fixpoint square (n : nat) (x : float) : float :=
  match n with
  | O => x
  | S n' => square n' (x * x)%float
  end.

Definition exp (x : float) : float :=
  square 10 (taylor 20 1 (x / 1024)%float 1%float 1%float).

(** [sum_(i < n) z^(2i+1) / (2i+1)], the series of [atanh z]. *)
Fixpoint atanh_series (n : nat) (i : Z) (z2 pow acc : float) : float :=
  match n with
  | O => acc
  | S n' =>
    atanh_series n' (i + 2) z2 (pow * z2)%float (acc + pow / float_of_int i)%float
  end.

Definition ln2 : float := 0x1.62e42fefa39efp-1%float.

(** [log x] for a positive [x = m * 2^e]: [2 * atanh ((m - 1) / (m + 1)) + e * log 2]. *)
Definition log (x : float) : float :=
  let '(m, e) := Z.frexp x in
  let z := ((m - 1) / (m + 1))%float in
  (2 * atanh_series 40 1 (z * z)%float z 0%float + float_of_int e * ln2)%float.

(** [lgamma x] for an integer [x >= 1] as [log (x - 1)!], the sum of the
    logarithms; the integer is read off the mantissa of [x]. *)
Fixpoint log_factorial (n : nat) (i : Z) (acc : float) : float :=
  match n with
  | O => acc
  | S n' => log_factorial n' (i + 1) (acc + log (float_of_int i))%float
  end.

Definition lgamma (x : float) : float :=
  let n := Z.to_nat (Uint63.to_Z (normfr_mantissa (fst (Z.frexp x)))
                       ≫ (53 - snd (Z.frexp x))) in
  log_factorial (n - 1) 1 0%float.

End Series.

(** A small [math] library to run the model: [exp] and [log] by series,
    [lgamma] at the positive integers. It agrees with the C library to about
    twelve digits, not to the last bit; the theorems hold for any [Libm]. *)
Definition series_libm : Libm :=
  {| math_exp := Series.exp; math_log := Series.log; math_lgamma := Series.lgamma |}.

(** * Example corpora *)

Module Example.

(** The tokens of the end-to-end example: "אבישלומ", "ואחיו", "אבדה". *)
Definition token1 : str := [0x5d0; 0x5d1; 0x5d9; 0x5e9; 0x5dc; 0x5d5; 0x5de]%N.
Definition token2 : str := [0x5d5; 0x5d0; 0x5d7; 0x5d9; 0x5d5]%N.
Definition token3 : str := [0x5d0; 0x5d1; 0x5d3; 0x5d4]%N.

(** The targets "לומ" and "ואחי". *)
Definition suffix_target : str := [0x5dc; 0x5d5; 0x5de]%N.
Definition prefix_target : str := [0x5d5; 0x5d0; 0x5d7; 0x5d9]%N.

Definition feature (texts : list str) (node : Z) : option str :=
  if node <? 1 then None else texts !! Z.to_nat (node - 1).

(** A corpus of word nodes 1, 2, ... carrying the given texts, all in one
    verse. *)
Definition api_of (texts : list str) : Search.Api :=
  {| Search.otype_word := Z.of_nat <$> seq 1 (length texts);
     Search.g_cons_utf8 := feature texts;
     Search.g_word_utf8 := feature texts;
     Search.sectionFromNode := λ _, Some (lit "Samuel_II", 13, 20) |}.

Definition api : Search.Api := api_of [token1; token2; token3].

Definition words_of (texts : list str) : list Stats.WordInfo :=
  (λ t, {| Stats.text := t; Stats.book := lit "Samuel_II" |}) <$> texts.

Definition words : list Stats.WordInfo := words_of [token1; token2; token3].

(** "שָׁלוֹם" with its points: shin, qamats, shin dot, lamed, vav, holam,
    final mem. *)
Definition pointed_word : str :=
  [0x5e9; 0x5b8; 0x5c1; 0x5dc; 0x5d5; 0x5b9; 0x5dd]%N.

(** The prefix target split over two tokens, "וא" and "חי", with an empty
    token between them. *)
Definition gap_texts : list str :=
  [token1; [0x5d5; 0x5d0]; []; [0x5d7; 0x5d9]]%N.

(** The one match of the end-to-end example. *)
Definition found : Search.InterWordMatch :=
  {| Search.first :=
       {| Search.nodes := [1]; Search.consonantal := token1;
          Search.pointed := token1; Search.reference := lit "Samuel_II 13:20" |};
     Search.second :=
       {| Search.nodes := [2]; Search.consonantal := token2;
          Search.pointed := token2; Search.reference := lit "Samuel_II 13:20" |};
     Search.context := token1 ++ lit " " ++ token2 ++ lit " " ++ token3 |}.

(** A corpus of one pointed word, joined to the next by a maqaf, as the
    statistics program loads it. *)
Definition stats_api : Stats.Api :=
  {| Stats.otype_word := [1];
     Stats.g_word_utf8 := feature [pointed_word ++ [0x5be%N]];
     Stats.sectionFromNode := λ _, Some (lit "Samuel_II", 13, 20) |}.

(** A data directory with two modules, a hidden directory and a file. *)
Definition entries : list (str * bool) :=
  [(lit "c", true); (lit ".git", true); (lit "2021", true); (lit "README.md", false)].

End Example.

(** * Specification-side definitions *)

(** The number of segments the greedy prefix consumption takes from
    [segments] to cover a non-empty [remaining], when it succeeds. Both
    matchers of the source are instances of it. *)
Fixpoint span_length (segments : list str) (remaining : str) : option nat :=
  match segments with
  | [] => None
  | segment :: segments' =>
    match segment with
    | [] => None
    | _ :: _ =>
      if startswith segment remaining then Some 1%nat
      else if startswith remaining segment
      then S <$> span_length segments' (drop (length segment) remaining)
      else None
    end
  end.

(** The normalised consonantal texts of a run of word nodes, as
    [second_span_nodes] reads them. *)
Definition norm_texts `{Unicodedata} (api : Search.Api) (run : list Z) : list str :=
  (λ node, Search.normalize_for_match (default [] (Search.g_cons_utf8 api node))) <$> run.

(** Whether the greedy consumption succeeds from position [start] of the
    word list of the statistics engine. *)
Definition prefix_flag (words : list Stats.WordInfo) (prefix_target : str)
    (start : nat) : bool :=
  bool_decide (is_Some (span_length (Stats.text <$> drop start words) prefix_target)).

(** Whether a match begins at token [i]: the token's normalised text ends
    with the suffix target and the prefix-span matcher succeeds at [i + 1]. *)
Definition begins_match `{Unicodedata} (api : Search.Api)
    (suffix_target prefix_target : str) (i : nat) : bool :=
  match Search.otype_word api !! i with
  | Some node =>
    bool_decide (suffix_target `suffix_of`
                   Search.normalize_for_match (default [] (Search.g_cons_utf8 api node)))
    && bool_decide (is_Some (Search.second_span_nodes api (S i) prefix_target))
  | None => false
  end.

(** A match record [m] is the match that begins at token [i]. *)
Definition match_at `{Unicodedata} (api : Search.Api) (prefix_target : str)
    (i : nat) (m : Search.InterWordMatch) : Prop :=
  ∃ node span,
    Search.otype_word api !! i = Some node
    ∧ Search.second_span_nodes api (S i) prefix_target = Some span
    ∧ Search.nodes (Search.first m) = [node]
    ∧ Search.nodes (Search.second m) = span.

(** The five final letters and the base letters they fold to. *)
Definition fold_final (ch : char) : N :=
  if (ch =? 0x5da)%N then 0x5db%N
  else if (ch =? 0x5dd)%N then 0x5de%N
  else if (ch =? 0x5df)%N then 0x5e0%N
  else if (ch =? 0x5e3)%N then 0x5e4%N
  else if (ch =? 0x5e5)%N then 0x5e6%N
  else ch.

Definition final_letters : str := [0x5da; 0x5dd; 0x5df; 0x5e3; 0x5e5]%N.

(** The number of flags that are set. *)
Definition count_true (flags : list bool) : Z :=
  Z.of_nat (length (filter (λ b : bool, b = true) flags)).

(** The number of indices [i] in [0 .. N-2] with the suffix flag set at [i]
    and the prefix flag set at [i + 1]. *)
Definition adjacent_pairs (suffix_flags prefix_flags : list bool) : Z :=
  Z.of_nat (length (filter (λ i, suffix_flags !! i = Some true
                                 ∧ prefix_flags !! S i = Some true)
                           (seq 0 (length suffix_flags - 1)))).

(** A binary64 value that is a zero or a positive finite number whose
    magnitude (mantissa digits plus exponent) is at most [M]: neither
    negative, nor infinite, nor NaN. *)
Definition nonneg_below (M : Z) (x : spec_float) : Prop :=
  match x with
  | S754_zero s => s = false
  | S754_finite s m e => s = false ∧ Zpos (digits2_pos m) + e ≤ M
  | _ => False
  end.

(** The tokens whose pointed texts make the context of a match that begins
    at token [i] with a second span of [len] tokens: three tokens before the
    first span and three after the second, as far as the corpus goes. *)
Definition context_window (api : Search.Api) (i len : nat) : list Z :=
  Search.slice (Z.max (Z.of_nat i - 3) 0)
    (Z.min (Z.of_nat i + 1 + Z.of_nat len + 3)
           (Z.of_nat (length (Search.otype_word api))))
    (Search.otype_word api).

(** The context string of a run of tokens: their non-empty pointed texts
    joined by single spaces, stripped. *)
Definition context_of (api : Search.Api) (window : list Z) : str :=
  strip (join (lit " ")
           (filter (λ word, word ≠ [])
                   ((λ node, default [] (Search.g_word_utf8 api node)) <$> window))).

(** A match record [m] is the record the scanner builds at token [i]: both
    spans are built by [build_span], from token [i] and from the span the
    matcher returns at [i + 1], and the context is that of the window
    around them. *)
Definition match_record_at `{Unicodedata} (api : Search.Api) (prefix_target : str)
    (i : nat) (m : Search.InterWordMatch) : Prop :=
  ∃ node span,
    Search.otype_word api !! i = Some node
    ∧ Search.second_span_nodes api (S i) prefix_target = Some span
    ∧ Search.build_span api [node] = Some (Search.first m)
    ∧ Search.build_span api span = Some (Search.second m)
    ∧ Search.context m = context_of api (context_window api i (length span)).

(** The key under which [summarize_by_book] counts a match: the first word
    of the reference of its first span. *)
Definition summary_key (m : Search.InterWordMatch) : option str :=
  head (split_whitespace (Search.reference (Search.first m))).

(** A module that [available_modules] lists: the name of a directory of the
    data directory that does not begin with a dot. *)
Definition visible_module (entries : list (str * bool)) (name : str) : Prop :=
  (name, true) ∈ entries ∧ startswith name (lit ".") = false.

(** An explicit target of [resolve_targets] once normalised: empty when the
    option is not given or is the empty string. *)
Definition explicit_target `{Unicodedata} (target : option str) : str :=
  match target with
  | Some ((_ :: _) as t) => Stats.normalize_for_match t
  | _ => []
  end.

(** A binary64 value that is a zero of either sign or a positive finite
    number whose magnitude is at most [M]. *)
Definition small_below (M : Z) (x : spec_float) : Prop :=
  match x with
  | S754_zero _ => True
  | S754_finite false m e => Zpos (digits2_pos m) + e ≤ M
  | _ => False
  end.

(** The magnitude of a finite non-zero float [x]: the [g] such that
    [2^(g-1) <= |x| < 2^g]. *)
Definition magnitude (x : float) : Z :=
  match Prim2SF x with
  | S754_finite _ m e => Zpos (digits2_pos m) + e
  | _ => 0
  end.

(** The term that the loop of [_poisson_tail] holds after [j] more rounds,
    from the count [k] and the term [term], when it does not leave before. *)
Fixpoint poisson_term (lam : float) (k : Z) (term : float) (j : nat) : float :=
  match j with
  | O => term
  | S j' => poisson_term lam (k + 1) (term * (lam / float_of_int (k + 1)))%float j'
  end.

(** The count from which every factor [lam / k] of the loop is below a
    quarter: a power of two above eight times [lam]. *)
Definition decay_start (lam : float) : Z := 2 ^ Z.max 0 (magnitude lam + 3).

(** A binary64 value that is neither negative nor a NaN: a zero, a positive
    finite number or +infinity. *)
Definition nonneg_sf (x : spec_float) : Prop :=
  match x with
  | S754_zero s | S754_infinity s | S754_finite s _ _ => s = false
  | S754_nan => False
  end.

(** * Strings *)

Lemma startswith_prefix s p : startswith s p = true ↔ p `prefix_of` s.
Proof.
  revert s; induction p as [|c p IH]; intros [|d s]; simpl.
  - split; [intros _; apply prefix_nil | done].
  - split; [intros _; apply prefix_nil | done].
  - split; [done | intros Hp; apply prefix_nil_inv in Hp; done].
  - rewrite andb_true_iff, N.eqb_eq, IH. split.
    + intros [-> Hp]. by apply prefix_cons.
    + intros Hp. split; [by apply prefix_cons_inv_1 in Hp | by apply prefix_cons_inv_2 in Hp].
Qed.

Lemma startswith_false s p : startswith s p = false ↔ ¬ p `prefix_of` s.
Proof. rewrite <- startswith_prefix. destruct (startswith s p); naive_solver. Qed.

Lemma endswith_suffix s p : endswith s p = true ↔ p `suffix_of` s.
Proof.
  unfold endswith. rewrite startswith_prefix. split.
  - intros Hp. apply suffix_prefix_reverse. done.
  - intros Hp. apply suffix_prefix_reverse in Hp. done.
Qed.

Lemma startswith_nil s : startswith s [] = true.
Proof. by destruct s. Qed.

(** * The greedy prefix consumption *)

Section SpanLength.
Implicit Types (segments : list str) (remaining : str).

Lemma span_length_sound segments remaining k :
  remaining ≠ [] →
  span_length segments remaining = Some k →
  (1 ≤ k ≤ length segments)%nat
  ∧ Forall (λ segment, segment ≠ []) (take k segments)
  ∧ remaining `prefix_of` mjoin (take k segments)
  ∧ ∀ j, (j < k)%nat →
      ∃ rest, rest ≠ [] ∧ remaining = mjoin (take j segments) ++ rest.
Proof.
  revert remaining k. induction segments as [|segment segments IH]; intros remaining k Hne; simpl.
  { done. }
  destruct segment as [|c segment]; [done|].
  destruct (startswith (c :: segment) remaining) eqn:Hfull.
  - intros [= <-]. apply startswith_prefix in Hfull.
    repeat split; simpl; try lia.
    + by repeat constructor.
    + by rewrite app_nil_r.
    + intros j Hj. assert (j = 0%nat) as -> by lia. simpl. by exists remaining.
  - destruct (startswith remaining (c :: segment)) eqn:Hpart; [|done].
    apply startswith_prefix in Hpart. apply startswith_false in Hfull.
    destruct Hpart as [tail ->].
    rewrite drop_app_length.
    assert (tail ≠ []) as Htail.
    { intros ->. apply Hfull. by rewrite app_nil_r. }
    destruct (span_length segments tail) as [k'|] eqn:Hk'; [|done].
    intros [= <-]. destruct (IH tail k' Htail Hk') as (Hlen & Hall & Hpre & Hmin).
    repeat split; simpl; try lia.
    + by constructor.
    + exact (prefix_app (c :: segment) _ _ Hpre).
    + intros [|j] Hj; simpl.
      * by exists ((c :: segment) ++ tail).
      * destruct (Hmin j ltac:(lia)) as (rest & Hrest & ->).
        exists rest. split; [done|]. by rewrite <- !app_assoc.
Qed.

Lemma span_length_minimal segments remaining k j :
  remaining ≠ [] →
  span_length segments remaining = Some k →
  (j < k)%nat →
  ¬ remaining `prefix_of` mjoin (take j segments).
Proof.
  intros Hne Hk Hj Hpre.
  destruct (span_length_sound _ _ _ Hne Hk) as (_ & _ & _ & Hmin).
  destruct (Hmin j Hj) as (rest & Hrest & Heq).
  apply prefix_length in Hpre. rewrite Heq, length_app in Hpre.
  destruct rest; [done|]. simpl in Hpre. lia.
Qed.

Lemma mjoin_take_prefix segments (j k : nat) :
  (j ≤ k)%nat → mjoin (take j segments) `prefix_of` mjoin (take k segments).
Proof.
  revert j k. induction segments as [|segment segments IH]; intros j k Hjk.
  { rewrite !take_nil. done. }
  destruct j as [|j]; [apply prefix_nil|].
  destruct k as [|k]; [lia|]. simpl. apply prefix_app. apply IH. lia.
Qed.

(** An empty segment met before the target is covered makes the
    consumption fail: it is never skipped. *)
Lemma span_length_empty_segment segments remaining j :
  remaining ≠ [] →
  segments !! j = Some [] →
  ¬ remaining `prefix_of` mjoin (take j segments) →
  span_length segments remaining = None.
Proof.
  intros Hne Hj Hnot.
  destruct (span_length segments remaining) as [k|] eqn:Hk; [|done].
  destruct (span_length_sound _ _ _ Hne Hk) as (Hlen & Hall & Hpre & _).
  destruct (decide (k ≤ j)%nat) as [Hle|Hgt].
  - destruct Hnot. etrans; [exact Hpre|]. by apply mjoin_take_prefix.
  - rewrite Forall_lookup in Hall.
    specialize (Hall j []). rewrite lookup_take_lt in Hall by lia.
    destruct (Hall Hj). done.
Qed.

(** The consumption fails when no run of segments covers the target. *)
Lemma span_length_none segments remaining :
  remaining ≠ [] →
  (∀ k, ¬ remaining `prefix_of` mjoin (take k segments)) →
  span_length segments remaining = None.
Proof.
  intros Hne Hnone.
  destruct (span_length segments remaining) as [k|] eqn:Hk; [|done].
  destruct (span_length_sound _ _ _ Hne Hk) as (_ & _ & Hpre & _).
  by destruct (Hnone k).
Qed.

End SpanLength.

(** * The two matchers against the greedy consumption *)

Section Matchers.
Context `{Unicodedata}.

Lemma second_span_loop_spec api rest remaining nodes :
  remaining ≠ [] →
  Search.second_span_loop api rest remaining nodes
  = k ← span_length (norm_texts api rest) remaining; Some (nodes ++ take k rest).
Proof.
  revert remaining nodes.
  induction rest as [|node rest IH]; intros [|c remaining] nodes Hne; try done.
  cbn [Search.second_span_loop norm_texts fmap list_fmap span_length].
  destruct (Search.normalize_for_match _) as [|d norm] eqn:Hnorm; [done|].
  destruct (startswith (d :: norm) (c :: remaining)) eqn:Hfull; [done|].
  destruct (startswith (c :: remaining) (d :: norm)) eqn:Hpart; [|done].
  apply startswith_prefix in Hpart as [tail Htail].
  apply startswith_false in Hfull.
  assert (tail ≠ []) as Hne'.
  { intros ->. apply Hfull. rewrite Htail, app_nil_r. done. }
  rewrite Htail, drop_app_length. rewrite (IH tail _ Hne').
  fold (norm_texts api rest).
  destruct (span_length (norm_texts api rest) tail) as [k|]; simpl; [|done].
  by rewrite <- app_assoc.
Qed.

Lemma second_span_nodes_spec api start prefix :
  prefix ≠ [] →
  Search.second_span_nodes api start prefix
  = k ← span_length (norm_texts api (drop start (Search.otype_word api))) prefix;
    Some (take k (drop start (Search.otype_word api))).
Proof.
  intros Hne. unfold Search.second_span_nodes.
  destruct prefix; [done|]. by rewrite second_span_loop_spec.
Qed.

Lemma prefix_loop_spec rest remaining matched :
  remaining ≠ [] →
  match span_length (Stats.text <$> rest) remaining with
  | Some _ => Stats.prefix_loop rest remaining matched = ([], true)
  | None => (Stats.prefix_loop rest remaining matched).1 ≠ []
  end.
Proof.
  revert remaining matched.
  induction rest as [|word rest IH]; intros [|c remaining] matched Hne; try done.
  cbn [Stats.prefix_loop fmap list_fmap span_length].
  destruct (Stats.text word) as [|d segment] eqn:Hseg; [done|].
  destruct (startswith (d :: segment) (c :: remaining)) eqn:Hfull; [done|].
  destruct (startswith (c :: remaining) (d :: segment)) eqn:Hpart; [|done].
  apply startswith_prefix in Hpart as [tail Htail].
  apply startswith_false in Hfull.
  assert (tail ≠ []) as Hne'.
  { intros ->. apply Hfull. rewrite Htail, app_nil_r. done. }
  rewrite Htail, drop_app_length. specialize (IH tail true Hne').
  by destruct (span_length (Stats.text <$> rest) tail).
Qed.

Lemma foldl_mark_flags (f : nat → bool) (n m : nat) :
  (m ≤ n)%nat →
  foldl (λ (flags : list bool) start, if f start then <[start := true]> flags else flags)
        (replicate n false) (seq 0 m)
  = (f <$> seq 0 m) ++ replicate (n - m) false.
Proof.
  induction m as [|m IH]; intros Hm.
  { simpl. by rewrite Nat.sub_0_r. }
  rewrite seq_S, foldl_app, IH by lia. simpl.
  rewrite fmap_app. simpl.
  replace (n - m)%nat with (S (n - S m)) by lia. simpl.
  destruct (f m) eqn:Hfm.
  - assert (length (f <$> seq 0 m) = m) as Hlen by (by rewrite length_fmap, length_seq).
    rewrite insert_app_r_alt by lia. rewrite Hlen, Nat.sub_diag. simpl.
    by rewrite <- app_assoc.
  - by rewrite <- app_assoc.
Qed.

Lemma foldl_ext_in {A B} (f g : A → B → A) (l : list B) (a : A) :
  (∀ a b, b ∈ l → f a b = g a b) → foldl f a l = foldl g a l.
Proof.
  revert a. induction l as [|b l IH]; intros a Hfg; [done|]. simpl.
  rewrite Hfg by constructor. apply IH. intros a' b' Hb'. apply Hfg. by constructor.
Qed.

Lemma prefix_flags_spec words prefix_target :
  prefix_target ≠ [] →
  Stats._prefix_flags words prefix_target
  = prefix_flag words prefix_target <$> seq 0 (length words).
Proof.
  intros Hne. unfold Stats._prefix_flags.
  destruct prefix_target as [|c target] eqn:Hp; [done|]. rewrite <- Hp in *.
  rewrite (foldl_ext_in _
    (λ (flags : list bool) start,
       if prefix_flag words prefix_target start then <[start := true]> flags else flags)).
  - rewrite foldl_mark_flags by lia. by rewrite Nat.sub_diag, app_nil_r.
  - intros flags start _. unfold prefix_flag.
    pose proof (prefix_loop_spec (drop start words) prefix_target false Hne) as Hloop.
    destruct (span_length _ _) as [k|].
    + rewrite Hloop. by rewrite bool_decide_eq_true_2.
    + rewrite bool_decide_eq_false_2 by (by intros [? ?]).
      destruct (Stats.prefix_loop _ _ _) as [[|] ?]; [done|done].
Qed.

Lemma prefix_flags_lookup words prefix_target start :
  prefix_target ≠ [] → (start < length words)%nat →
  Stats._prefix_flags words prefix_target !! start
  = Some (prefix_flag words prefix_target start).
Proof.
  intros Hne Hlt. rewrite prefix_flags_spec by done.
  rewrite list_lookup_fmap, lookup_seq_lt by done. done.
Qed.

Lemma suffix_flags_spec words suffix_target :
  Stats._suffix_flags words suffix_target
  = (λ word, bool_decide (suffix_target `suffix_of` Stats.text word)) <$> words.
Proof.
  unfold Stats._suffix_flags. destruct suffix_target as [|c target] eqn:Hs.
  - induction words as [|word words IH]; [done|].
    cbn [length replicate fmap list_fmap]. rewrite IH.
    f_equal; symmetry; apply bool_decide_eq_true_2, suffix_nil.
  - rewrite <- Hs. apply list_fmap_ext. intros _ word _.
    destruct (endswith _ _) eqn:He.
    + symmetry. apply bool_decide_eq_true_2. by apply endswith_suffix.
    + symmetry. apply bool_decide_eq_false_2. rewrite <- endswith_suffix. by rewrite He.
Qed.

End Matchers.

(** * The prefix-span matcher *)

Section PrefixSpanMatcher.
Context `{Unicodedata}.

(** C1 (as the code has it). With an empty prefix target the matcher of the
    scanner returns no span at any start position, and the statistics engine
    sets no prefix flag: the flag vector is constant false. *)
Theorem empty_prefix_target_never_matches (api : Search.Api) (start : nat)
    (words : list Stats.WordInfo) :
  Search.second_span_nodes api start [] = None
  ∧ Stats._prefix_flags words [] = replicate (length words) false.
Proof. split; reflexivity. Qed.

(** C2. For a non-empty prefix target, a span returned by the matcher is a
    non-empty run of consecutive word nodes from the start index; the target
    is a prefix of the concatenated normalised texts of the span and of no
    strict prefix of the span; and no span is returned when no run of
    consecutive tokens from the start index covers the target. The prefix
    flag of the statistics engine is set on the same condition. *)
Theorem second_span_nodes_minimal_cover (api : Search.Api) (start : nat)
    (prefix : str) (words : list Stats.WordInfo) :
  prefix ≠ [] →
  (∀ span, Search.second_span_nodes api start prefix = Some span →
     span ≠ []
     ∧ span `prefix_of` drop start (Search.otype_word api)
     ∧ prefix `prefix_of` mjoin (norm_texts api span)
     ∧ ∀ span', span' `prefix_of` span → span' ≠ span →
         ¬ prefix `prefix_of` mjoin (norm_texts api span'))
  ∧ ((∀ run, run `prefix_of` drop start (Search.otype_word api) →
        ¬ prefix `prefix_of` mjoin (norm_texts api run)) →
     Search.second_span_nodes api start prefix = None)
  ∧ (Stats._prefix_flags words prefix !! start = Some true →
     ∃ k, (1 ≤ k)%nat
       ∧ prefix `prefix_of` mjoin (Stats.text <$> take k (drop start words))
       ∧ ∀ j, (j < k)%nat →
           ¬ prefix `prefix_of` mjoin (Stats.text <$> take j (drop start words)))
  ∧ ((∀ k, ¬ prefix `prefix_of` mjoin (Stats.text <$> take k (drop start words))) →
     Stats._prefix_flags words prefix !! start ≠ Some true).
Proof.
  intros Hne. split; [|split; [|split]].
  - intros span. rewrite second_span_nodes_spec by done.
    set (rest := drop start (Search.otype_word api)).
    destruct (span_length (norm_texts api rest) prefix) as [k|] eqn:Hk; [|done].
    intros [= <-].
    destruct (span_length_sound _ _ _ Hne Hk) as (Hlen & _ & Hpre & _).
    unfold norm_texts in Hlen. rewrite length_fmap in Hlen.
    repeat split.
    + intros Hnil. apply (f_equal length) in Hnil. rewrite length_take in Hnil.
      simpl in Hnil. lia.
    + apply prefix_take.
    + unfold norm_texts. rewrite fmap_take. exact Hpre.
    + intros span' [tail Htail] Hneq.
      assert (length span' + length tail = k)%nat as Hsum.
      { apply (f_equal length) in Htail.
        rewrite length_take, length_app in Htail. lia. }
      assert (span' = take (length span') rest) as Hrun.
      { transitivity (take (length span') (take k rest)).
        - by rewrite Htail, take_app_length.
        - rewrite take_take. f_equal. lia. }
      rewrite Hrun. unfold norm_texts. rewrite fmap_take.
      apply (span_length_minimal _ _ k); [done|done|].
      destruct tail as [|z tail]; [|simpl in Hsum; lia].
      destruct Hneq. by rewrite app_nil_r in Htail.
  - intros Hnone. rewrite second_span_nodes_spec by done.
    rewrite span_length_none; [done|done|].
    intros k. unfold norm_texts. rewrite <- fmap_take. apply Hnone, prefix_take.
  - intros Hflag.
    assert (start < length words)%nat as Hlt.
    { apply lookup_lt_Some in Hflag. rewrite prefix_flags_spec in Hflag by done.
      by rewrite length_fmap, length_seq in Hflag. }
    rewrite prefix_flags_lookup in Hflag by done.
    injection Hflag as Hflag. unfold prefix_flag in Hflag.
    apply bool_decide_eq_true_1 in Hflag as [k Hk].
    destruct (span_length_sound _ _ _ Hne Hk) as (Hlen & _ & Hpre & _).
    exists k. split; [lia|]. rewrite !fmap_take. split; [done|].
    intros j Hj. rewrite fmap_take. by apply (span_length_minimal _ _ k).
  - intros Hnone Hflag.
    assert (start < length words)%nat as Hlt.
    { apply lookup_lt_Some in Hflag. rewrite prefix_flags_spec in Hflag by done.
      by rewrite length_fmap, length_seq in Hflag. }
    rewrite prefix_flags_lookup in Hflag by done.
    injection Hflag as Hflag. unfold prefix_flag in Hflag.
    apply bool_decide_eq_true_1 in Hflag as [k Hk].
    destruct (span_length_sound _ _ _ Hne Hk) as (_ & _ & Hpre & _).
    apply (Hnone k). by rewrite fmap_take.
Qed.

(** C8. For a non-empty prefix target, an empty normalised text at a position
    reached before the texts in front of it cover the target makes the match
    fail: the scanner's matcher returns no span and the prefix flag of the
    statistics engine is false at that start position, whatever the tokens
    after the empty one are. *)
Theorem empty_token_aborts_match (api : Search.Api) (words : list Stats.WordInfo)
    (start j : nat) (prefix : str) :
  prefix ≠ [] →
  (norm_texts api (drop start (Search.otype_word api)) !! j = Some [] →
   ¬ prefix `prefix_of` mjoin (take j (norm_texts api (drop start (Search.otype_word api)))) →
   Search.second_span_nodes api start prefix = None)
  ∧ ((Stats.text <$> drop start words) !! j = Some [] →
     ¬ prefix `prefix_of` mjoin (take j (Stats.text <$> drop start words)) →
     Stats._prefix_flags words prefix !! start = Some false).
Proof.
  intros Hne. split.
  - intros Hempty Hnot. rewrite second_span_nodes_spec by done.
    by rewrite (span_length_empty_segment _ _ j).
  - intros Hempty Hnot.
    assert (start < length words)%nat as Hlt.
    { apply lookup_lt_Some in Hempty. rewrite length_fmap, length_drop in Hempty. lia. }
    rewrite prefix_flags_lookup by done. f_equal. unfold prefix_flag.
    rewrite (span_length_empty_segment _ _ j) by done.
    apply bool_decide_eq_false_2. by intros [? ?].
Qed.

End PrefixSpanMatcher.

(** C1, as stated, fails on the example corpus: the matcher returns no span
    (not the empty span) for the empty target, and no prefix flag is set. *)
Lemma empty_prefix_target_counterexample :
  Search.second_span_nodes (H := hebrew_unicodedata) Example.api 1 [] = None
  ∧ Search.second_span_nodes (H := hebrew_unicodedata) Example.api 1 [] ≠ Some []
  ∧ Stats._prefix_flags Example.words [] = [false; false; false]
  ∧ Stats._prefix_flags Example.words [] ≠ [true; true; true].
Proof. repeat split; done. Qed.

Lemma second_span_nodes_minimal_cover_witness :
  Search.second_span_nodes (H := hebrew_unicodedata) Example.api 1 Example.prefix_target
    = Some [2]
  ∧ ([2] : list Z) ≠ []
  ∧ [2] `prefix_of` drop 1 (Search.otype_word Example.api)
  ∧ Example.prefix_target `prefix_of` mjoin (norm_texts (H := hebrew_unicodedata) Example.api [2])
  ∧ (∀ span', span' `prefix_of` [2] → span' ≠ [2] →
       ¬ Example.prefix_target `prefix_of` mjoin (norm_texts (H := hebrew_unicodedata) Example.api span')).
Proof.
  assert (Example.prefix_target ≠ []) as Hne by done.
  assert (Search.second_span_nodes (H := hebrew_unicodedata) Example.api 1
            Example.prefix_target = Some [2]) as Hrun by (vm_compute; reflexivity).
  split; [exact Hrun|].
  exact (proj1 (second_span_nodes_minimal_cover (H := hebrew_unicodedata)
                  Example.api 1 Example.prefix_target Example.words Hne) [2] Hrun).
Defined.

Lemma empty_token_aborts_match_witness :
  Search.second_span_nodes (H := hebrew_unicodedata)
    (Example.api_of Example.gap_texts) 1 Example.prefix_target = None
  ∧ Stats._prefix_flags (Example.words_of Example.gap_texts) Example.prefix_target !! 1%nat
    = Some false.
Proof.
  assert (Example.prefix_target ≠ []) as Hne by done.
  destruct (empty_token_aborts_match (H := hebrew_unicodedata)
              (Example.api_of Example.gap_texts) (Example.words_of Example.gap_texts)
              1 1 Example.prefix_target Hne) as [Hsearch Hstats].
  split.
  - apply Hsearch; [vm_compute; reflexivity|].
    intros Hpre. apply prefix_length in Hpre. vm_compute in Hpre. lia.
  - apply Hstats; [vm_compute; reflexivity|].
    intros Hpre. apply prefix_length in Hpre. vm_compute in Hpre. lia.
Defined.

(** * The corpus scanner *)

Section CorpusScanner.
Context `{Unicodedata}.

Lemma second_span_nodes_nonempty api start prefix span :
  Search.second_span_nodes api start prefix = Some span → span ≠ [].
Proof.
  intros Hspan.
  assert (prefix ≠ []) as Hne by (by intros ->).
  rewrite second_span_nodes_spec in Hspan by done.
  destruct (span_length _ _) as [k|] eqn:Hk; [|done]. injection Hspan as <-.
  destruct (span_length_sound _ _ _ Hne Hk) as (Hlen & _).
  unfold norm_texts in Hlen. rewrite length_fmap in Hlen.
  intros Hnil. apply (f_equal length) in Hnil. rewrite length_take in Hnil.
  simpl in Hnil. lia.
Qed.

Lemma build_span_cons api node run :
  ∃ span, Search.build_span api (node :: run) = Some span
          ∧ Search.nodes span = node :: run.
Proof. unfold Search.build_span. simpl. eauto. Qed.

Lemma scan_loop_spec api suffix_target prefix_target rest idx matches :
  (∀ j node, rest !! j = Some node → Search.otype_word api !! (idx + j)%nat = Some node) →
  ∃ found,
    Search.scan_loop api suffix_target prefix_target idx rest matches
    = Some (matches ++ found)
    ∧ Forall2 (match_at api prefix_target)
        (filter (λ i, begins_match api suffix_target prefix_target i = true)
                (seq idx (length rest)))
        found.
Proof.
  revert idx matches.
  induction rest as [|first_node rest IH]; intros idx matches Hrest.
  { exists []. simpl. rewrite app_nil_r. split; [done|constructor]. }
  assert (Search.otype_word api !! idx = Some first_node) as Hidx.
  { rewrite <- (Nat.add_0_r idx). by apply Hrest. }
  assert (∀ j node, rest !! j = Some node →
            Search.otype_word api !! (S idx + j)%nat = Some node) as Hrest'.
  { intros j node Hj. replace (S idx + j)%nat with (idx + S j)%nat by lia.
    by apply Hrest. }
  cbn [Search.scan_loop length seq].
  set (first_norm := Search.normalize_for_match
                       (default [] (Search.g_cons_utf8 api first_node))).
  assert ((match suffix_target with
           | [] => false
           | _ :: _ => negb (endswith first_norm suffix_target)
           end) = negb (bool_decide (suffix_target `suffix_of` first_norm))) as ->.
  { destruct suffix_target as [|c t] eqn:Hs.
    - by rewrite bool_decide_eq_true_2 by apply suffix_nil.
    - rewrite <- Hs. f_equal. destruct (endswith _ _) eqn:He.
      + symmetry. apply bool_decide_eq_true_2. by apply endswith_suffix.
      + symmetry. apply bool_decide_eq_false_2. rewrite <- endswith_suffix. by rewrite He. }
  assert (begins_match api suffix_target prefix_target idx
          = bool_decide (suffix_target `suffix_of` first_norm)
            && bool_decide (is_Some (Search.second_span_nodes api (S idx) prefix_target)))
    as Hbegins.
  { unfold begins_match. by rewrite Hidx. }
  replace (idx + 1)%nat with (S idx) by lia.
  destruct (bool_decide (suffix_target `suffix_of` first_norm)) eqn:Hsuffix;
    cbn [negb].
  2: { destruct (IH (S idx) matches Hrest') as (found & Hrun & Hfound).
       exists found. split; [done|]. rewrite filter_cons_False; [done|].
       rewrite Hbegins. done. }
  destruct (Search.second_span_nodes api (S idx) prefix_target) as [span|] eqn:Hspan.
  2: { destruct (IH (S idx) matches Hrest') as (found & Hrun & Hfound).
       exists found. split; [done|]. rewrite filter_cons_False; [done|].
       rewrite Hbegins. rewrite bool_decide_eq_false_2 by (by intros [? ?]). done. }
  destruct span as [|node span].
  { by apply second_span_nodes_nonempty in Hspan. }
  destruct (build_span_cons api first_node []) as (first_span & -> & Hfirst).
  destruct (build_span_cons api node span) as (second_span & -> & Hsecond).
  cbn [mbind option_bind].
  match goal with
  | |- ∃ found, Search.scan_loop _ _ _ _ _ (matches ++ [?m]) = _ ∧ _ =>
    destruct (IH (S idx) (matches ++ [m]) Hrest') as (found & Hrun & Hfound);
    exists (m :: found)
  end.
  split.
  - rewrite Hrun. by rewrite <- app_assoc.
  - rewrite filter_cons_True.
    2: { rewrite Hbegins. by rewrite bool_decide_eq_true_2 by eauto. }
    constructor; [|done].
    exists first_node, (node :: span). done.
Qed.

(** C4. The scanner raises nothing and visits the indices [0 .. N-2] only: it
    returns, in increasing order of [i], one match for exactly each such [i]
    whose normalised text ends with the suffix target (every token when the
    suffix target is empty) and at whose successor the prefix-span matcher
    succeeds; the first span of the match is the single token [i] and the
    second span is the span the matcher returns at [i + 1]. *)
Theorem collect_matches_scan (first_word_suffix second_word_prefix : str)
    (api : Search.Api) :
  ∃ matches,
    Search.collect_matches first_word_suffix second_word_prefix api = Some matches
    ∧ Forall2 (match_at api (Search.normalize_for_match second_word_prefix))
        (filter (λ i, begins_match api (Search.normalize_for_match first_word_suffix)
                        (Search.normalize_for_match second_word_prefix) i = true)
                (seq 0 (length (Search.otype_word api) - 1)))
        matches.
Proof.
  unfold Search.collect_matches.
  destruct (scan_loop_spec api (Search.normalize_for_match first_word_suffix)
              (Search.normalize_for_match second_word_prefix)
              (take (length (Search.otype_word api) - 1) (Search.otype_word api)) 0 [])
    as (found & Hrun & Hfound).
  { intros j node Hj. simpl. apply lookup_take_Some in Hj. tauto. }
  exists found. split; [done|].
  rewrite length_take in Hfound.
  by rewrite Nat.min_l in Hfound by lia.
Qed.

End CorpusScanner.

(** * The normaliser *)

Lemma translate_final_forms text :
  translate Stats.FINAL_FORM_TRANSLATION text = fold_final <$> text.
Proof.
  unfold translate. induction text as [|ch text IH]; [done|].
  cbn [mbind list_bind fmap list_fmap] in *. rewrite IH. clear IH.
  change (default [ch] (Stats.FINAL_FORM_TRANSLATION !! ch) ++ (fold_final <$> text)
          = [fold_final ch] ++ (fold_final <$> text)).
  f_equal. unfold Stats.FINAL_FORM_TRANSLATION, fold_final.
  rewrite !list_to_map_cons, !lookup_insert.
  repeat (case_decide; subst;
          [reflexivity | rewrite (proj2 (N.eqb_neq _ _)) by congruence]).
  by rewrite list_to_map_nil, lookup_empty.
Qed.

Lemma search_normalize_for_match `{Unicodedata} text :
  Search.normalize_for_match text = Stats.normalize_for_match text.
Proof. reflexivity. Qed.

(** Case analysis on which of the five final letters [ch] is, if any. *)
Ltac fold_final_cases ch tac :=
  unfold fold_final;
  repeat match goal with
         | |- context [(ch =? ?c)%N] =>
           destruct (N.eqb_spec ch c) as [->|?]; [solve [tac | congruence]|]
         end;
  try solve [tac].

Lemma fold_final_idemp ch : fold_final (fold_final ch) = fold_final ch.
Proof. fold_final_cases ch ltac:(reflexivity). Qed.

Lemma fold_final_not_final ch : fold_final ch ∉ final_letters.
Proof.
  unfold final_letters. rewrite !elem_of_cons, elem_of_nil.
  fold_final_cases ch ltac:(intros [|[|[|[|[|[]]]]]]; congruence).
Qed.

Lemma fold_final_range ch :
  fold_final ch = ch ∨ ((0x5d0 ≤ ch ≤ 0x5ea)%N ∧ (0x5d0 ≤ fold_final ch ≤ 0x5ea)%N).
Proof.
  destruct (decide (fold_final ch = ch)) as [|Hne]; [by left|right].
  revert Hne. fold_final_cases ch ltac:(intros; first [lia | congruence]).
Qed.

Lemma fold_final_maqaf ch : fold_final ch = 0x5be%N → ch = 0x5be%N.
Proof. fold_final_cases ch ltac:(intros; congruence). Qed.

Lemma filter_all {A} (P : A → Prop) `{∀ x, Decision (P x)} (l : list A) :
  Forall P l → filter P l = l.
Proof.
  induction 1 as [|x l Hx _ IH]; [done|]. by rewrite filter_cons_True, IH.
Qed.

Section Normalizer.
Context `{Unicodedata} {Hlaws : UnicodedataLaws}.

Lemma fold_final_category ch :
  category (fold_final ch) ≠ Mn ↔ category ch ≠ Mn.
Proof.
  destruct (fold_final_range ch) as [->|[Hch Hfold]]; [done|].
  split; intros _; by apply hebrew_letter_not_mark.
Qed.

Lemma filter_fold_final (text : str) :
  filter (λ ch, category ch ≠ Mn) (fold_final <$> text)
  = fold_final <$> filter (λ ch, category ch ≠ Mn) text.
Proof.
  induction text as [|ch text IH]; [done|]. rewrite fmap_cons.
  destruct (decide (category ch ≠ Mn)) as [Hch|Hch].
  - rewrite !filter_cons_True; [|done|by apply fold_final_category].
    by rewrite fmap_cons, IH.
  - rewrite !filter_cons_False; [done|done|]. by rewrite fold_final_category.
Qed.

Lemma normalize_for_match_unfold (text : str) :
  text ≠ [] →
  Stats.normalize_for_match text
  = fold_final <$> normalize NFC (filter (λ ch, category ch ≠ Mn) (normalize NFD text)).
Proof.
  intros Hne. unfold Stats.normalize_for_match.
  destruct text; [done|]. by rewrite translate_final_forms.
Qed.

Lemma normalize_for_match_idemp (text : str) :
  Stats.normalize_for_match (Stats.normalize_for_match text)
  = Stats.normalize_for_match text.
Proof.
  destruct (decide (text = [])) as [->|Hne]; [done|].
  destruct (decide (Stats.normalize_for_match text = [])) as [Hnil|Hout].
  { by rewrite Hnil. }
  rewrite (normalize_for_match_unfold _ Hout).
  rewrite (normalize_for_match_unfold _ Hne).
  rewrite <- !translate_final_forms.
  rewrite nfd_fold_final, nfd_of_nfc.
  rewrite !translate_final_forms, filter_fold_final.
  rewrite (filter_all _ _ (nfd_of_stripped text)).
  rewrite <- !translate_final_forms.
  rewrite nfc_fold_final, nfc_of_nfd.
  rewrite !translate_final_forms, <- list_fmap_compose.
  apply list_fmap_ext. intros _ ch _. apply fold_final_idemp.
Qed.

(** C9. Normalisation is idempotent, for the normaliser of either program:
    [normalize_for_match (normalize_for_match s) = normalize_for_match s]. *)
Theorem normalize_for_match_idempotent (text : str) :
  Stats.normalize_for_match (Stats.normalize_for_match text)
  = Stats.normalize_for_match text
  ∧ Search.normalize_for_match (Search.normalize_for_match text)
    = Search.normalize_for_match text.
Proof.
  split; [apply normalize_for_match_idemp | exact (normalize_for_match_idemp text)].
Qed.

End Normalizer.

(** * The Hebrew Unicode data satisfies the laws *)

Section HebrewData.
Import Hebrew.
Local Opaque combining combining_classes decompositions.

Lemma elem_of_insert_mark x ch rev : x ∈ insert_mark ch rev ↔ x = ch ∨ x ∈ rev.
Proof.
  induction rev as [|d rest IH]; simpl.
  - rewrite list_elem_of_singleton, elem_of_nil. tauto.
  - case_match; rewrite !elem_of_cons; [rewrite IH|]; tauto.
Qed.

Lemma elem_of_canonical_order x text : x ∈ canonical_order text ↔ x ∈ text.
Proof.
  unfold canonical_order. rewrite elem_of_reverse.
  enough (∀ rev, x ∈ foldl (λ rev ch, insert_mark ch rev) rev text ↔ x ∈ rev ∨ x ∈ text)
    as Hrev by (rewrite Hrev, elem_of_nil; tauto).
  induction text as [|ch text IH]; intros rev; simpl.
  - rewrite elem_of_nil. tauto.
  - rewrite IH, elem_of_insert_mark, elem_of_cons. tauto.
Qed.

Lemma insert_mark_head ch rev :
  head (insert_mark ch rev) = Some ch ∨ head (insert_mark ch rev) = head rev.
Proof. destruct rev as [|d rest]; simpl; [by left|]. case_match; [by right|by left]. Qed.

Lemma insert_mark_ordered ch rev : ordered rev → ordered (insert_mark ch rev).
Proof.
  induction rev as [|d rest IH]; intros Hrev; [done|].
  cbn [insert_mark]. destruct Hrev as [Hd Hrest].
  destruct ((0 <? combining ch) && (combining ch <? combining d))%N eqn:Hmove.
  - split; [|by apply IH].
    destruct (insert_mark_head ch rest) as [Hhead|Hhead];
      destruct (insert_mark ch rest) as [|e rest'] eqn:Hins; try done.
    + injection Hhead as ->. apply andb_true_iff in Hmove as [_ Hlt].
      apply N.ltb_lt in Hlt. apply andb_false_iff. right. apply N.ltb_ge. lia.
    + destruct rest as [|e' rest'']; [done|]. by injection Hhead as ->.
  - done.
Qed.

Lemma foldl_insert_mark_ordered text rev :
  ordered rev → ordered (foldl (λ rev ch, insert_mark ch rev) rev text).
Proof.
  revert rev. induction text as [|ch text IH]; intros rev Hrev; [done|].
  simpl. by apply IH, insert_mark_ordered.
Qed.

Lemma canonical_order_ordered text :
  ordered (reverse text) → canonical_order text = text.
Proof.
  unfold canonical_order. intros Hordered.
  enough (foldl (λ rev ch, insert_mark ch rev) [] text = reverse text) as ->
    by apply reverse_involutive.
  induction text as [|ch text IH] using rev_ind; [done|].
  rewrite reverse_snoc in Hordered. destruct Hordered as [Hch Hrest].
  rewrite foldl_app, IH, reverse_snoc by done. simpl.
  destruct (reverse text) as [|d rest]; [done|]. simpl. by rewrite Hch.
Qed.

Lemma canonical_order_idemp text :
  canonical_order (canonical_order text) = canonical_order text.
Proof.
  apply canonical_order_ordered. unfold canonical_order.
  rewrite reverse_involutive. by apply foldl_insert_mark_ordered.
Qed.

Lemma canonical_order_fmap (g : N → N) text :
  (∀ ch, combining (g ch) = combining ch) →
  canonical_order (g <$> text) = g <$> canonical_order text.
Proof.
  intros Hg. unfold canonical_order. rewrite fmap_reverse. f_equal.
  enough (∀ rev, foldl (λ rev ch, insert_mark ch rev) (g <$> rev) (g <$> text)
                 = g <$> foldl (λ rev ch, insert_mark ch rev) rev text)
    as Hrev by apply (Hrev []).
  induction text as [|ch text IH]; intros rev; [done|].
  rewrite fmap_cons. cbn [foldl]. rewrite <- IH. f_equal.
  clear IH. induction rev as [|d rest IH]; [done|].
  rewrite fmap_cons. cbn [insert_mark]. rewrite !Hg.
  case_match; [by rewrite fmap_cons, IH | by rewrite !fmap_cons].
Qed.

Lemma decompositions_atomic :
  map_Forall (λ _ parts, Forall atomic parts) decompositions.
Proof.
  apply (bool_decide_unpack _). vm_compute. exact I.
Qed.

Lemma decompositions_keys :
  map_Forall (λ ch _, (0xfb1d ≤ ch)%N) decompositions.
Proof.
  apply (bool_decide_unpack _). vm_compute. exact I.
Qed.

Lemma decompositions_maqaf :
  map_Forall (λ _ parts, 0x5be%N ∉ parts) decompositions.
Proof.
  apply (bool_decide_unpack _). vm_compute. exact I.
Qed.

Lemma decompose_atomic text : Forall atomic text → decompose text = text.
Proof.
  induction 1 as [|ch text Hch _ IH]; [done|].
  unfold decompose in *. cbn [mbind list_bind]. rewrite IH.
  unfold atomic in Hch. by rewrite Hch.
Qed.

Lemma atomic_decompose text : Forall atomic (decompose text).
Proof.
  apply Forall_forall. intros x Hx. unfold decompose in Hx.
  apply list_elem_of_bind in Hx as (ch & Hx & _).
  destruct (decompositions !! ch) as [parts|] eqn:Hparts; simpl in Hx.
  - pose proof (decompositions_atomic ch parts Hparts) as Hatomic.
    rewrite Forall_forall in Hatomic. by apply Hatomic.
  - by apply list_elem_of_singleton in Hx as ->.
Qed.

Lemma atomic_normalize form text : Forall atomic (normalize form text).
Proof.
  apply Forall_forall. intros x Hx. unfold normalize in Hx.
  rewrite elem_of_canonical_order in Hx.
  pose proof (atomic_decompose text) as Hatomic.
  rewrite Forall_forall in Hatomic. by apply Hatomic.
Qed.

Lemma normalize_atomic form text :
  Forall atomic text → normalize form text = canonical_order text.
Proof. intros Hatomic. unfold normalize. by rewrite decompose_atomic. Qed.

Lemma normalize_idemp form form' form'' text :
  normalize form (normalize form' text) = normalize form'' text.
Proof.
  rewrite normalize_atomic by apply atomic_normalize.
  unfold normalize. apply canonical_order_idemp.
Qed.

Lemma fold_final_combining ch : combining (fold_final ch) = combining ch.
Proof. fold_final_cases ch ltac:(vm_compute; reflexivity). Qed.

Lemma fold_final_atomic ch : atomic ch → atomic (fold_final ch).
Proof.
  intros Hch. destruct (fold_final_range ch) as [->|[_ Hrange]]; [done|].
  unfold atomic. destruct (decompositions !! fold_final ch) as [parts|] eqn:Hparts; [|done].
  pose proof (decompositions_keys _ _ Hparts). simpl in *. lia.
Qed.

Lemma normalize_fold_final form form' form'' text :
  normalize form (translate Stats.FINAL_FORM_TRANSLATION (normalize form' text))
  = translate Stats.FINAL_FORM_TRANSLATION (normalize form'' text).
Proof.
  rewrite !translate_final_forms.
  rewrite normalize_atomic.
  - rewrite canonical_order_fmap by apply fold_final_combining.
    f_equal. unfold normalize. apply canonical_order_idemp.
  - apply Forall_fmap. eapply Forall_impl; [apply atomic_normalize|].
    intros ch. apply fold_final_atomic.
Qed.

Lemma hebrew_category_letter ch :
  (0x5d0 ≤ ch ≤ 0x5ea)%N → category ch ≠ Mn.
Proof.
  intros Hch. unfold category.
  repeat case_match; try done.
  repeat match goal with
         | Hb : _ = true |- _ =>
           rewrite ?orb_true_iff, ?andb_true_iff, ?N.leb_le, ?N.eqb_eq in Hb
         end.
  lia.
Qed.

End HebrewData.

Lemma hebrew_unicodedata_laws :
  UnicodedataLaws (H := hebrew_unicodedata).
Proof.
  split; cbn [normalize category hebrew_unicodedata].
  - intros text. apply normalize_idemp.
  - intros text. apply normalize_idemp.
  - intros text. rewrite normalize_atomic.
    + apply Forall_forall. intros ch Hch.
      rewrite elem_of_canonical_order in Hch.
      by apply list_elem_of_filter in Hch as [? _].
    + apply Forall_forall. intros ch Hch.
      apply list_elem_of_filter in Hch as [_ Hch].
      pose proof (atomic_normalize NFD text) as Hatomic.
      rewrite Forall_forall in Hatomic. by apply Hatomic.
  - apply hebrew_category_letter.
  - intros text. rewrite (normalize_idemp NFD NFC NFD). apply normalize_fold_final.
  - intros text. rewrite (normalize_idemp NFC NFD NFD). apply normalize_fold_final.
  - intros form text Hin. unfold Hebrew.normalize in Hin.
    rewrite elem_of_canonical_order in Hin. unfold Hebrew.decompose in Hin.
    apply list_elem_of_bind in Hin as (ch & Hin & Hch).
    destruct (Hebrew.decompositions !! ch) as [parts|] eqn:Hparts; simpl in Hin.
    + by destruct (decompositions_maqaf ch parts Hparts).
    + by apply list_elem_of_singleton in Hin as ->.
Qed.

Section NormalizerMaqaf.
Context `{Unicodedata} {Hlaws : UnicodedataLaws}.

Lemma strip_diacritics_clean (text : str) :
  (0x5be%N ∉ Stats.strip_diacritics text)
  ∧ (∀ ch, ch ∈ final_letters → ch ∉ Stats.strip_diacritics text).
Proof.
  unfold Stats.strip_diacritics.
  set (cleaned := replace_char 0x5be%N [] text).
  assert (0x5be%N ∉ cleaned) as Hclean.
  { unfold cleaned, replace_char. rewrite list_elem_of_bind.
    intros (ch & Hin & _). case_decide; [by apply elem_of_nil in Hin|].
    apply list_elem_of_singleton in Hin. congruence. }
  destruct (decide (cleaned = [])) as [->|Hne].
  { split; [|intros ch _]; apply not_elem_of_nil. }
  rewrite (normalize_for_match_unfold _ Hne). split.
  - rewrite list_elem_of_fmap. intros (ch & Hfold & Hin).
    symmetry in Hfold. apply fold_final_maqaf in Hfold as ->.
    apply normalize_maqaf in Hin. apply list_elem_of_filter in Hin as [_ Hin].
    apply normalize_maqaf in Hin. done.
  - intros ch Hfinal. rewrite list_elem_of_fmap. intros (ch' & -> & _).
    by apply fold_final_not_final in Hfinal.
Qed.

(** C5 (as the code has it). The maqaf is removed by [strip_diacritics], the
    normaliser that the corpus loader of the statistics program applies to
    every word, not by [normalize_for_match]: for every input string the
    output of [strip_diacritics] contains no maqaf (U+05BE) and none of the
    five final letters, and so no word text that [load_words] returns
    contains a maqaf. *)
Theorem strip_diacritics_no_maqaf (text : str) :
  (0x5be%N ∉ Stats.strip_diacritics text)
  ∧ (∀ ch, ch ∈ final_letters → ch ∉ Stats.strip_diacritics text)
  ∧ (∀ api word, word ∈ Stats.load_words api → 0x5be%N ∉ Stats.text word).
Proof.
  destruct (strip_diacritics_clean text) as [Hmaqaf Hfinal].
  split; [done|split; [done|]].
  intros api word Hword. unfold Stats.load_words in Hword.
  apply list_elem_of_fmap in Hword as (node & -> & _). simpl.
  exact (proj1 (strip_diacritics_clean _)).
Qed.

(** C10. When both an explicit suffix target and an explicit prefix target
    are given and both normalise to non-empty strings, [resolve_targets]
    returns the normalised pair and raises nothing, whatever the word
    (missing or empty included) and the split index (out of range
    included) are. *)
Theorem resolve_targets_explicit_pair (word : option str)
    (suffix_target prefix_target : str) (split_index : option Z) :
  Stats.normalize_for_match suffix_target ≠ [] →
  Stats.normalize_for_match prefix_target ≠ [] →
  Stats.resolve_targets word (Some suffix_target) (Some prefix_target) split_index
  = inr (Stats.normalize_for_match suffix_target,
         Stats.normalize_for_match prefix_target).
Proof.
  intros Hsuffix Hprefix. unfold Stats.resolve_targets.
  destruct suffix_target as [|c suffix_target]; [done|].
  destruct prefix_target as [|d prefix_target]; [done|].
  destruct (Stats.normalize_for_match (c :: suffix_target)); [done|].
  destruct (Stats.normalize_for_match (d :: prefix_target)); [done|].
  reflexivity.
Qed.

End NormalizerMaqaf.

(** C5, as stated, fails: [normalize_for_match] returns a lone maqaf
    unchanged, in both programs. *)
Lemma normalize_for_match_keeps_maqaf :
  Stats.normalize_for_match (H := hebrew_unicodedata) [0x5be%N] = [0x5be%N]
  ∧ Search.normalize_for_match (H := hebrew_unicodedata) [0x5be%N] = [0x5be%N]
  ∧ 0x5be%N ∈ Stats.normalize_for_match (H := hebrew_unicodedata) [0x5be%N].
Proof. repeat split; by apply list_elem_of_singleton. Qed.

Lemma strip_diacritics_no_maqaf_witness :
  Stats.strip_diacritics (H := hebrew_unicodedata) (0x5be%N :: Example.pointed_word)
    = Search.WORD_TO_SEARCH
  ∧ 0x5be%N ∉ Stats.strip_diacritics (H := hebrew_unicodedata)
                (0x5be%N :: Example.pointed_word).
Proof.
  split; [reflexivity|].
  exact (proj1 (strip_diacritics_no_maqaf (H := hebrew_unicodedata)
                  (Hlaws := hebrew_unicodedata_laws)
                  (0x5be%N :: Example.pointed_word))).
Defined.

Lemma normalize_for_match_idempotent_witness :
  Stats.normalize_for_match (H := hebrew_unicodedata) Example.pointed_word
    = Search.WORD_TO_SEARCH
  ∧ Stats.normalize_for_match (H := hebrew_unicodedata)
      (Stats.normalize_for_match (H := hebrew_unicodedata) Example.pointed_word)
    = Stats.normalize_for_match (H := hebrew_unicodedata) Example.pointed_word.
Proof.
  split; [reflexivity|].
  exact (proj1 (normalize_for_match_idempotent (H := hebrew_unicodedata)
                  (Hlaws := hebrew_unicodedata_laws) Example.pointed_word)).
Defined.

Lemma resolve_targets_explicit_pair_witness :
  Stats.resolve_targets (H := hebrew_unicodedata) None
    (Some Example.suffix_target) (Some Example.prefix_target) (Some 99)
  = inr (Example.suffix_target, Example.prefix_target).
Proof.
  apply (resolve_targets_explicit_pair (H := hebrew_unicodedata) None
           Example.suffix_target Example.prefix_target (Some 99)); done.
Defined.

(** * Rounding: signs and magnitudes of binary64 results *)

Section Rounding.

Lemma Zdigits2_log2 m : 0 < m → Zdigits2 m = Z.log2 m + 1.
Proof.
  destruct m as [|p|p]; try lia. intros _. simpl.
  destruct p as [p|p|]; simpl; try done.
  - rewrite Pos2Z.inj_succ. 
    induction p; simpl; rewrite ?Pos2Z.inj_succ; lia.
  - rewrite Pos2Z.inj_succ.
    induction p; simpl; rewrite ?Pos2Z.inj_succ; lia.
Qed.

Lemma Zdigits2_nonneg m : 0 ≤ Zdigits2 m.
Proof. destruct m; simpl; lia. Qed.

Lemma Zdigits2_le m n : 0 ≤ m ≤ n → Zdigits2 m ≤ Zdigits2 n.
Proof.
  intros [Hm Hmn]. destruct (decide (m = 0)) as [->|Hm0].
  { apply Zdigits2_nonneg. }
  rewrite !Zdigits2_log2 by lia. pose proof (Z.log2_le_mono m n Hmn). lia.
Qed.

Lemma Zdigits2_succ m : 0 ≤ m → Zdigits2 (m + 1) ≤ Zdigits2 m + 1.
Proof.
  intros Hm. destruct (decide (m = 0)) as [->|Hm0]; [done|].
  rewrite !Zdigits2_log2 by lia.
  pose proof (Z.log2_succ_le m). unfold Z.succ in *. lia.
Qed.

Lemma shr_1_digits mrs :
  0 ≤ shr_m mrs →
  0 ≤ shr_m (shr_1 mrs)
  ∧ Zdigits2 (shr_m (shr_1 mrs)) = Z.max 0 (Zdigits2 (shr_m mrs) - 1).
Proof.
  destruct mrs as [m r s]. simpl. intros Hm.
  destruct m as [|[p|p|]|p]; simpl; rewrite ?Pos2Z.inj_succ; lia.
Qed.

Lemma iter_shr_1_digits (p : positive) : ∀ mrs,
  0 ≤ shr_m mrs →
  0 ≤ shr_m (SpecFloat.iter_pos shr_1 p mrs)
  ∧ Zdigits2 (shr_m (SpecFloat.iter_pos shr_1 p mrs)) = Z.max 0 (Zdigits2 (shr_m mrs) - Zpos p).
Proof.
  induction p as [p IH|p IH|]; intros mrs Hm; simpl.
  - destruct (shr_1_digits mrs Hm) as [H1 D1].
    destruct (IH _ H1) as [H2 D2]. destruct (IH _ H2) as [H3 D3].
    split; [done|]. rewrite D3, D2, D1. lia.
  - destruct (IH _ Hm) as [H2 D2]. destruct (IH _ H2) as [H3 D3].
    split; [done|]. rewrite D3, D2. lia.
  - apply shr_1_digits, Hm.
Qed.

Lemma shr_digits mrs e n :
  0 ≤ shr_m mrs →
  0 ≤ shr_m (shr mrs e n).1
  ∧ Zdigits2 (shr_m (shr mrs e n).1) + (shr mrs e n).2
    ≤ Z.max (Zdigits2 (shr_m mrs) + e) (e + n).
Proof.
  intros Hm. destruct n as [|p|p]; simpl; try lia.
  destruct (iter_shr_1_digits p mrs Hm) as [H1 D1]. split; [done|]. rewrite D1. lia.
Qed.

Lemma shr_m_of_loc m l : shr_m (shr_record_of_loc m l) = m.
Proof. by destruct l as [|[]]. Qed.

Lemma shr_fexp_digits m e l :
  0 ≤ m →
  0 ≤ shr_m (shr_fexp prec emax m e l).1
  ∧ Zdigits2 (shr_m (shr_fexp prec emax m e l).1) + (shr_fexp prec emax m e l).2
    ≤ Z.max (Zdigits2 m + e) emin.
Proof.
  intros Hm. unfold shr_fexp.
  destruct (shr_digits (shr_record_of_loc m l) e
              (fexp prec emax (Zdigits2 m + e) - e)) as [H1 D1].
  { by rewrite shr_m_of_loc. }
  rewrite shr_m_of_loc in D1.
  destruct (shr _ _ _) as [mrs' e']. simpl in *. split; [done|].
  unfold fexp, SpecFloat.emin, prec, emax in *. lia.
Qed.

Lemma round_nearest_even_digits m l :
  0 ≤ m →
  0 ≤ round_nearest_even m l ∧ Zdigits2 (round_nearest_even m l) ≤ Zdigits2 m + 1.
Proof.
  intros Hm. pose proof (Zdigits2_succ m Hm).
  destruct l as [|[]]; simpl; try (split; lia).
  destruct (Z.even m); split; lia.
Qed.

Lemma binary_round_aux_nonneg (M mx ex : Z) (lx : location) :
  0 ≤ mx → Zdigits2 mx + ex ≤ M → emin ≤ M → M ≤ emax - prec →
  nonneg_below (M + 1) (binary_round_aux prec emax false mx ex lx).
Proof.
  intros Hm Hmag Hmin Hmax. unfold binary_round_aux.
  destruct (shr_fexp_digits mx ex lx Hm) as [H1 D1].
  destruct (shr_fexp prec emax mx ex lx) as [mrs1 e1]. simpl in H1, D1.
  destruct (round_nearest_even_digits (shr_m mrs1) (loc_of_shr_record mrs1) H1)
    as [H2 D2].
  set (m2 := round_nearest_even (shr_m mrs1) (loc_of_shr_record mrs1)) in *.
  destruct (shr_fexp_digits m2 e1 loc_Exact H2) as [H3 D3].
  destruct (shr_fexp prec emax m2 e1 loc_Exact) as [mrs3 e3]. simpl in H3, D3.
  destruct (shr_m mrs3) as [|m|m] eqn:Hm3; simpl; [done| |lia].
  simpl in D3. pose proof (Pos2Z.is_pos (digits2_pos m)).
  destruct (Z.leb_spec e3 (emax - prec)); simpl; [split; [done|lia] | lia].
Qed.


Lemma binary_round_aux_canonical (s : bool) (m : positive) (e : Z) :
  fexp prec emax (Zpos (digits2_pos m) + e) = e → e ≤ emax - prec →
  binary_round_aux prec emax s (Zpos m) e loc_Exact = S754_finite s m e.
Proof.
  intros Hcanon Hmax. unfold binary_round_aux, shr_fexp.
  cbn [Zdigits2 shr_record_of_loc]. rewrite Hcanon, Z.sub_diag.
  cbn [shr shr_m loc_of_shr_record round_nearest_even Zdigits2 shr_record_of_loc].
  rewrite Hcanon, Z.sub_diag. cbn [shr shr_m].
  by rewrite (proj2 (Z.leb_le _ _) Hmax).
Qed.

Lemma digits2_iter_xO (m k : positive) :
  digits2_pos (Pos.iter xO m k) = (digits2_pos m + k)%positive.
Proof.
  induction k as [|k IH] using Pos.peano_ind.
  - simpl. lia.
  - rewrite Pos.iter_succ. simpl. rewrite IH. lia.
Qed.

Lemma digits2_below (m : positive) (k : Z) :
  Zpos m < 2 ^ k → 0 ≤ k → Zpos (digits2_pos m) ≤ k.
Proof.
  intros Hm Hk. change (Zpos (digits2_pos m)) with (Zdigits2 (Zpos m)).
  rewrite Zdigits2_log2 by lia.
  pose proof (proj1 (Z.log2_lt_pow2 (Zpos m) k ltac:(lia)) Hm). lia.
Qed.

(** A positive integer below [2^53] converts exactly. *)
Lemma float_of_int_pos (z : Z) :
  0 < z < 2 ^ 53 →
  ∃ m e, Prim2SF (float_of_int z) = S754_finite false m e
         ∧ -52 ≤ e ∧ Zpos (digits2_pos m) + e ≤ 53.
Proof.
  intros Hz. unfold float_of_int. rewrite (proj2 (Z.ltb_ge z 0)) by lia.
  rewrite of_uint63_spec, Uint63.of_Z_spec, Z.mod_small
    by (change wB with (2 ^ 63); lia).
  destruct z as [|m|m]; try lia. cbn [binary_normalize]. unfold binary_round.
  pose proof (digits2_below m 53 ltac:(lia) ltac:(lia)) as Hd.
  pose proof (Pos2Z.is_pos (digits2_pos m)) as Hd0.
  assert (fexp prec emax (Zpos (digits2_pos m) + 0) = Zpos (digits2_pos m) - 53) as ->.
  { unfold fexp, SpecFloat.emin, prec, emax. lia. }
  unfold shl_align. rewrite Z.sub_0_r.
  destruct (Zpos (digits2_pos m) - 53) as [|k|k] eqn:Hk; try lia.
  - rewrite binary_round_aux_canonical.
    + exists m, 0. repeat split; lia.
    + unfold fexp, SpecFloat.emin, prec, emax. lia.
    + unfold prec, emax. lia.
  - rewrite binary_round_aux_canonical.
    + exists (Pos.iter xO m k), (Zneg k). repeat split; [lia|].
      rewrite digits2_iter_xO. lia.
    + rewrite digits2_iter_xO. unfold fexp, SpecFloat.emin, prec, emax. lia.
    + unfold prec, emax. lia.
Qed.

Lemma float_of_int_nonneg (z : Z) :
  0 ≤ z < 2 ^ 53 → nonneg_below 53 (Prim2SF (float_of_int z)).
Proof.
  intros Hz. destruct (decide (z = 0)) as [->|Hz0]; [done|].
  destruct (float_of_int_pos z ltac:(lia)) as (m & e & -> & _ & Hmag). by split.
Qed.

Lemma SFmul_nonneg (M1 M2 : Z) (x y : spec_float) :
  nonneg_below M1 x → nonneg_below M2 y →
  emin ≤ M1 + M2 → M1 + M2 ≤ emax - prec →
  nonneg_below (M1 + M2 + 1) (SFmul prec emax x y).
Proof.
  intros Hx Hy Hmin Hmax.
  destruct x as [[]| | |[] m1 e1], y as [[]| | |[] m2 e2]; simpl in Hx, Hy;
    try done; try (by destruct Hx); try (by destruct Hy).
  destruct Hx as [_ Hx], Hy as [_ Hy]. cbn [SFmul xorb].
  apply binary_round_aux_nonneg; [lia| |done|done].
  change (Zdigits2 (Zpos (m1 * m2))) with (Zpos (digits2_pos (m1 * m2))).
  pose proof (Zdigits2_log2 (Zpos m1) ltac:(lia)) as D1.
  pose proof (Zdigits2_log2 (Zpos m2) ltac:(lia)) as D2.
  pose proof (Zdigits2_log2 (Zpos (m1 * m2)) ltac:(lia)) as D12.
  pose proof (Z.log2_mul_above (Zpos m1) (Zpos m2) ltac:(lia) ltac:(lia)) as Hlog.
  cbn [Zdigits2] in D1, D2, D12. rewrite Pos2Z.inj_mul in D12. lia.
Qed.

Lemma SFdiv_nonneg (M1 L2 : Z) (x : spec_float) (m2 : positive) (e2 : Z) :
  nonneg_below M1 x → L2 ≤ e2 →
  emin ≤ M1 - L2 → M1 - L2 ≤ emax - prec →
  nonneg_below (M1 - L2 + 1) (SFdiv prec emax x (S754_finite false m2 e2)).
Proof.
  intros Hx Hy Hmin Hmax.
  destruct x as [[]| | |[] m1 e1]; simpl in Hx; try done; try (by destruct Hx).
  destruct Hx as [_ Hx]. cbn [SFdiv xorb].
  destruct (SFdiv_core_binary prec emax (Zpos m1) e1 (Zpos m2) e2)
    as [[mz ez] lz] eqn:Hcore.
  unfold SFdiv_core_binary in Hcore.
  set (e' := Z.min (fexp prec emax (Zdigits2 (Zpos m1) + e1 - (Zdigits2 (Zpos m2) + e2)))
                   (e1 - e2)) in *.
  set (m' := match e1 - e2 - e' with
             | 0 => Zpos m1
             | Zpos _ => Z.shiftl (Zpos m1) (e1 - e2 - e')
             | Zneg _ => 0
             end) in *.
  assert (0 ≤ e1 - e2 - e') as Hs by lia.
  assert (0 ≤ m' ∧ Zdigits2 m' ≤ Zpos (digits2_pos m1) + (e1 - e2 - e')) as [Hm' Dm'].
  { unfold m'. destruct (e1 - e2 - e') as [|s|s] eqn:Hse; try lia.
    - simpl. lia.
    - rewrite Z.shiftl_mul_pow2 by lia.
      pose proof (Z.pow_pos_nonneg 2 (Zpos s) ltac:(lia) ltac:(lia)).
      split; [lia|]. rewrite Zdigits2_log2 by lia.
      rewrite Z.log2_mul_pow2 by lia.
      pose proof (Zdigits2_log2 (Zpos m1) ltac:(lia)) as D1. cbn [Zdigits2] in D1. lia. }
  pose proof (Z_div_mod m' (Zpos m2) ltac:(lia)) as Hdiv.
  destruct (Z.div_eucl m' (Zpos m2)) as [q r]. injection Hcore as <- <- <-.
  destruct Hdiv as [Hq Hr].
  assert (0 ≤ q ≤ m') as Hqm by nia.
  apply binary_round_aux_nonneg; [lia| |done|done].
  pose proof (Zdigits2_le q m' Hqm). lia.
Qed.

Lemma nonneg_eqb_zero (M : Z) (x : float) :
  nonneg_below M (Prim2SF x) → (x =? 0)%float = negb (0 <? x)%float.
Proof.
  intros Hx. rewrite FloatAxioms.eqb_spec, FloatAxioms.ltb_spec.
  change (Prim2SF 0) with (S754_zero false).
  destruct (Prim2SF x) as [[]| | |[] m e]; simpl in Hx; try done; by destruct Hx.
Qed.

End Rounding.
(** * The statistics engine *)

Lemma sum_bools_count (flags : list bool) : sum_bools flags = count_true flags.
Proof.
  unfold sum_bools, count_true.
  enough (∀ acc, foldl (λ acc (b : bool), acc + (if b then 1 else 0)) acc flags
                 = acc + Z.of_nat (length (filter (λ b : bool, b = true) flags)))
    as Hacc by (rewrite Hacc; lia).
  induction flags as [|[] flags IH]; intros acc; cbn [foldl].
  - rewrite filter_nil. simpl. lia.
  - rewrite IH, filter_cons_True by done. cbn [length]. lia.
  - rewrite IH, filter_cons_False by done. lia.
Qed.

Lemma sum_ints_indicator (c : nat → bool) (l : list nat) :
  sum_ints (l ≫= (λ idx, if c idx then [1] else []))
  = Z.of_nat (length (filter (λ idx, c idx = true) l)).
Proof.
  unfold sum_ints.
  enough (∀ acc, foldl Z.add acc (l ≫= (λ idx, if c idx then [1] else []))
                 = acc + Z.of_nat (length (filter (λ idx, c idx = true) l)))
    as Hacc by (rewrite Hacc; lia).
  induction l as [|idx l IH]; intros acc; cbn [mbind list_bind].
  - rewrite filter_nil. simpl. lia.
  - rewrite foldl_app, IH. destruct (c idx) eqn:Hc.
    + rewrite filter_cons_True by done. cbn [foldl length]. lia.
    + rewrite filter_cons_False by (by rewrite Hc). cbn [foldl]. lia.
Qed.

Lemma filter_ext_in {A} (P Q : A → Prop) `{∀ x, Decision (P x)} `{∀ x, Decision (Q x)}
    (l : list A) :
  (∀ x, x ∈ l → P x ↔ Q x) → filter P l = filter Q l.
Proof.
  induction l as [|x l IH]; intros HPQ; [done|].
  rewrite !filter_cons. rewrite IH by (intros y Hy; apply HPQ; by constructor).
  destruct (decide (P x)) as [HP|HP], (decide (Q x)) as [HQ|HQ]; try done.
  - destruct HQ. apply HPQ; [constructor|done].
  - destruct HP. apply HPQ; [constructor|done].
Qed.

Lemma length_suffix_flags words suffix_target :
  length (Stats._suffix_flags words suffix_target) = length words.
Proof. by rewrite suffix_flags_spec, length_fmap. Qed.

Lemma length_prefix_flags words prefix_target :
  length (Stats._prefix_flags words prefix_target) = length words.
Proof.
  destruct (decide (prefix_target = [])) as [->|Hne].
  - apply length_replicate.
  - by rewrite prefix_flags_spec, length_fmap, length_seq.
Qed.

Lemma count_true_bounds (flags : list bool) :
  0 ≤ count_true flags ≤ Z.of_nat (length flags).
Proof. unfold count_true. pose proof (length_filter (λ b : bool, b = true) flags). lia. Qed.

Lemma observed_adjacent_count (suffix_flags prefix_flags : list bool) (n : nat) :
  length suffix_flags = n → length prefix_flags = n →
  sum_ints (seq 0 (Z.to_nat (Z.of_nat n - 1)) ≫=
              (λ idx, if (suffix_flags !!! idx) && (prefix_flags !!! (idx + 1)%nat)
                      then [1] else []))
  = adjacent_pairs suffix_flags prefix_flags.
Proof.
  intros Hsuffix Hprefix. rewrite sum_ints_indicator. unfold adjacent_pairs.
  replace (Z.to_nat (Z.of_nat n - 1)) with (length suffix_flags - 1)%nat by lia.
  f_equal. f_equal. apply filter_ext_in. intros idx Hidx.
  apply elem_of_seq in Hidx.
  rewrite andb_true_iff, Nat.add_1_r.
  destruct (lookup_lt_is_Some_2 suffix_flags idx ltac:(lia)) as [b Hb].
  destruct (lookup_lt_is_Some_2 prefix_flags (S idx) ltac:(lia)) as [b' Hb'].
  rewrite (list_lookup_total_correct _ _ _ Hb), (list_lookup_total_correct _ _ _ Hb').
  rewrite Hb, Hb'. split; [by intros [-> ->] | by intros [[= ->] [= ->]]].
Qed.

Lemma adjacent_pairs_bounds (suffix_flags prefix_flags : list bool) :
  0 ≤ adjacent_pairs suffix_flags prefix_flags
    ≤ Z.max 0 (Z.of_nat (length suffix_flags) - 1).
Proof.
  unfold adjacent_pairs.
  match goal with
  | |- context [length (filter ?P ?l)] => pose proof (length_filter P l) as Hlen
  end.
  rewrite length_seq in Hlen. lia.
Qed.

(** The expected count of the engine is a zero or a positive finite number:
    its operands are exact conversions of counts below [2^53], and neither
    the two quotients nor the two products overflow or produce a NaN. *)
Lemma expected_adjacent_nonneg (a b c n : Z) :
  0 ≤ a < 2 ^ 53 → 0 ≤ b < 2 ^ 53 → 0 ≤ c < 2 ^ 53 → 0 < n < 2 ^ 53 →
  nonneg_below 267
    (Prim2SF (float_of_int a * int_truediv b n * int_truediv c n)%float).
Proof.
  intros Ha Hb Hc Hn.
  destruct (float_of_int_pos n Hn) as (m & e & Hfn & He & _).
  assert (∀ z, 0 ≤ z < 2 ^ 53 → nonneg_below 106 (Prim2SF (int_truediv z n))) as Hdiv.
  { intros z Hz. unfold int_truediv. rewrite FloatAxioms.div_spec, Hfn.
    apply (SFdiv_nonneg 53 (-52)); [by apply float_of_int_nonneg|done|done|done]. }
  rewrite !FloatAxioms.mul_spec.
  apply (SFmul_nonneg 160 106); [|by apply Hdiv|done|done].
  apply (SFmul_nonneg 53 106); [by apply float_of_int_nonneg|by apply Hdiv|done|done].
Qed.

(** * The end of the Poisson loop *)

Lemma small_below_mono (M M' : Z) (x : spec_float) :
  M ≤ M' → small_below M x → small_below M' x.
Proof. intros HM. destruct x as [| | |[] m e]; simpl; try done. lia. Qed.

Lemma nonneg_below_small (M : Z) (x : spec_float) :
  nonneg_below M x → small_below M x.
Proof. destruct x as [| | |[] m e]; simpl; try done; by intros [? ?]. Qed.

Lemma valid_digits (s : bool) (m : positive) (e : Z) :
  valid_binary (S754_finite s m e) = true →
  e = Z.max (Zpos (digits2_pos m) + e - 53) (-1074).
Proof.
  unfold valid_binary, SpecFloat.valid_binary, bounded, canonical_mantissa.
  rewrite andb_true_iff.
  intros [Hcanon _]. apply Z.eqb_eq in Hcanon.
  unfold fexp, SpecFloat.emin, prec, emax in Hcanon. lia.
Qed.

(** A value below [2^-40] is below the threshold [1e-12] of the loop. *)
Lemma below_threshold (x : float) :
  small_below (-40) (Prim2SF x) → (x <? 0x1.19799812dea11p-40)%float = true.
Proof.
  intros Hx. rewrite FloatAxioms.ltb_spec.
  change (Prim2SF 0x1.19799812dea11p-40) with (S754_finite false 4951760157141521 (-92)).
  pose proof (FloatAxioms.Prim2SF_valid x) as Hvalid.
  destruct (Prim2SF x) as [| | |[] m e]; simpl in Hx; try done.
  apply valid_digits in Hvalid. unfold SFltb, SFcompare.
  by rewrite (proj2 (Z.compare_lt_iff e (-92))) by lia.
Qed.

Lemma valid_exponent (s : bool) (m : positive) (e : Z) :
  valid_binary (S754_finite s m e) = true → e ≤ emax - prec.
Proof.
  unfold valid_binary, SpecFloat.valid_binary, bounded. rewrite andb_true_iff.
  intros [_ Hmax]. by apply Z.leb_le in Hmax.
Qed.

Lemma shr_fexp_exponent (m e : Z) (l : location) :
  (shr_fexp prec emax m e l).2 = Z.max e (fexp prec emax (Zdigits2 m + e)).
Proof.
  unfold shr_fexp, shr.
  destruct (fexp prec emax (Zdigits2 m + e) - e) as [|p|p] eqn:Hshift;
    cbn [fst snd]; lia.
Qed.

(** Rounding a number below [2^M] gives a number at most [2^M], and no
    infinity as long as [2^M] is a float. *)
Lemma binary_round_aux_below (s : bool) (M mx ex : Z) (lx : location) :
  0 ≤ mx → Zdigits2 mx + ex ≤ M → emin ≤ M → M < emax → ex ≤ emax - prec →
  match binary_round_aux prec emax s mx ex lx with
  | S754_zero s' => s' = s
  | S754_finite s' m e => s' = s ∧ Zpos (digits2_pos m) + e ≤ M + 1
  | _ => False
  end.
Proof.
  intros Hm Hmag Hmin Hmax Hex. unfold binary_round_aux.
  destruct (shr_fexp_digits mx ex lx Hm) as [H1 D1].
  pose proof (shr_fexp_exponent mx ex lx) as E1.
  destruct (shr_fexp prec emax mx ex lx) as [mrs1 e1]. cbn [fst snd] in H1, D1, E1.
  destruct (round_nearest_even_digits (shr_m mrs1) (loc_of_shr_record mrs1) H1)
    as [H2 D2].
  set (m2 := round_nearest_even (shr_m mrs1) (loc_of_shr_record mrs1)) in *.
  destruct (shr_fexp_digits m2 e1 loc_Exact H2) as [H3 D3].
  pose proof (shr_fexp_exponent m2 e1 loc_Exact) as E3.
  destruct (shr_fexp prec emax m2 e1 loc_Exact) as [mrs3 e3]. cbn [fst snd] in H3, D3, E3.
  destruct (shr_m mrs3) as [|m|m] eqn:Hm3; [done| |lia].
  cbn [Zdigits2] in D3.
  assert (e3 ≤ emax - prec) as He3.
  { unfold fexp, SpecFloat.emin, prec, emax in *. lia. }
  rewrite (proj2 (Z.leb_le _ _) He3). split; [done|].
  unfold SpecFloat.emin, prec, emax in *. lia.
Qed.

(** A zero or a positive float below [2^M1] times a factor below [2^M2],
    itself below 2, is below [2^(M1 + M2 + 1)]: nothing overflows, up to the
    largest floats. *)
Lemma SFmul_decay (M1 M2 : Z) (x y : spec_float) :
  small_below M1 x → valid_binary x = true → nonneg_below M2 y → M2 ≤ 1 →
  emin ≤ M1 + M2 → M1 + M2 < emax →
  small_below (M1 + M2 + 1) (SFmul prec emax x y).
Proof.
  intros Hx Hvalid Hy HM2 Hmin Hmax.
  destruct x as [s| | |[] m1 e1]; simpl in Hx; try done.
  { destruct y as [[]| | |[] m2 e2]; simpl in Hy; try done; by destruct Hy. }
  destruct y as [[]| | |[] m2 e2]; simpl in Hy; try done; try (by destruct Hy).
  destruct Hy as [_ Hy]. cbn [SFmul xorb].
  apply valid_exponent in Hvalid.
  pose proof (Pos2Z.is_pos (digits2_pos m2)) as Hd2.
  assert (Zdigits2 (Zpos (m1 * m2)) + (e1 + e2) ≤ M1 + M2) as Hdigits.
  { change (Zdigits2 (Zpos (m1 * m2))) with (Zpos (digits2_pos (m1 * m2))).
    pose proof (Zdigits2_log2 (Zpos m1) ltac:(lia)) as D1.
    pose proof (Zdigits2_log2 (Zpos m2) ltac:(lia)) as D2.
    pose proof (Zdigits2_log2 (Zpos (m1 * m2)) ltac:(lia)) as D12.
    pose proof (Z.log2_mul_above (Zpos m1) (Zpos m2) ltac:(lia) ltac:(lia)) as Hlog.
    cbn [Zdigits2] in D1, D2, D12. rewrite Pos2Z.inj_mul in D12. lia. }
  pose proof (binary_round_aux_below false (M1 + M2) (Zpos (m1 * m2)) (e1 + e2)
                loc_Exact ltac:(lia) Hdigits Hmin Hmax ltac:(lia)) as Hround.
  destruct (binary_round_aux prec emax false (Zpos (m1 * m2)) (e1 + e2) loc_Exact)
    as [| | |[] m e]; simpl in *; try done; by destruct Hround.
Qed.

(** A negative float times a factor that is zero or positive is below the
    threshold of the loop. *)
Lemma SFmul_negative (M2 : Z) (m1 : positive) (e1 : Z) (y : spec_float) :
  nonneg_below M2 y →
  SFltb (SFmul prec emax (S754_finite true m1 e1) y)
        (S754_finite false 4951760157141521 (-92)) = true.
Proof.
  intros Hy.
  destruct y as [[]| | |[] m2 e2]; simpl in Hy; try done; try (by destruct Hy).
  cbn [SFmul xorb]. unfold binary_round_aux.
  destruct (shr_fexp_digits (Zpos (m1 * m2)) (e1 + e2) loc_Exact ltac:(lia)) as [H1 _].
  destruct (shr_fexp prec emax (Zpos (m1 * m2)) (e1 + e2) loc_Exact) as [mrs1 e1'].
  cbn [fst] in H1.
  destruct (round_nearest_even_digits (shr_m mrs1) (loc_of_shr_record mrs1) H1)
    as [H2 _].
  destruct (shr_fexp_digits (round_nearest_even (shr_m mrs1) (loc_of_shr_record mrs1))
              e1' loc_Exact H2) as [H3 _].
  destruct (shr_fexp prec emax _ e1' loc_Exact) as [mrs3 e3]. cbn [fst] in H3.
  destruct (shr_m mrs3) as [|m|m]; [done| |lia].
  by destruct (e3 <=? emax - prec).
Qed.

(** A finite float is a zero or a number below [2^1024]. *)
Lemma finite_cases (x : float) :
  is_finite x = true →
  match Prim2SF x with
  | S754_zero _ => True
  | S754_finite _ m e => Zpos (digits2_pos m) + e ≤ 1024
  | _ => False
  end.
Proof.
  unfold is_finite, is_nan, is_infinity.
  rewrite negb_true_iff, orb_false_iff, negb_false_iff.
  rewrite !FloatAxioms.eqb_spec, FloatAxioms.abs_spec.
  change (Prim2SF infinity) with (S754_infinity false).
  pose proof (FloatAxioms.Prim2SF_valid x) as Hvalid.
  destruct (Prim2SF x) as [| | |s m e]; try (by intros [? ?]). intros _.
  pose proof (valid_exponent _ _ _ Hvalid). apply valid_digits in Hvalid.
  unfold prec, emax in *. lia.
Qed.

Lemma shr_fexp_normal (m e : Z) (l : location) :
  0 < m → emin + prec ≤ Zdigits2 m + e →
  0 < shr_m (shr_fexp prec emax m e l).1
  ∧ Zdigits2 (shr_m (shr_fexp prec emax m e l).1) + (shr_fexp prec emax m e l).2
    = Zdigits2 m + e
  ∧ (shr_fexp prec emax m e l).2 = Z.max e (Zdigits2 m + e - prec)
  ∧ shr_m (shr_fexp prec emax m e l).1 ≤ m.
Proof.
  intros Hm Hnormal. unfold shr_fexp.
  assert (fexp prec emax (Zdigits2 m + e) - e = Zdigits2 m - prec) as ->.
  { unfold fexp, SpecFloat.emin, prec, emax in *. lia. }
  unfold shr. destruct (Zdigits2 m - prec) as [|p|p] eqn:Hshift.
  - cbn [fst snd]. rewrite shr_m_of_loc. lia.
  - destruct (iter_shr_1_digits p (shr_record_of_loc m l)) as [Hpos Hdigits].
    { rewrite shr_m_of_loc. lia. }
    rewrite shr_m_of_loc in Hdigits. cbn [fst snd].
    set (m' := shr_m (SpecFloat.iter_pos shr_1 p (shr_record_of_loc m l))) in *.
    assert (Zdigits2 m' = prec) as Hd by (unfold prec in *; lia).
    assert (0 < m') as Hm'.
    { destruct (decide (m' = 0)) as [Hz|]; [|lia]. rewrite Hz in Hd. done. }
    split; [done|]. split; [lia|]. split; [lia|].
    destruct (Z.le_gt_cases m' m) as [|Hgt]; [done|].
    pose proof (Zdigits2_le m m' ltac:(lia)). unfold prec in *. lia.
  - cbn [fst snd]. rewrite shr_m_of_loc. lia.
Qed.

Lemma round_nearest_even_bounds (m : Z) (l : location) :
  m ≤ round_nearest_even m l ≤ m + 1.
Proof. destruct l as [|[]]; simpl; try lia. destruct (Z.even m); lia. Qed.

(** Rounding a positive number of the normal range keeps its magnitude or
    raises it by one. *)
Lemma binary_round_aux_lower (mx ex : Z) (lx : location) :
  0 < mx → emin + prec ≤ Zdigits2 mx + ex → Zdigits2 mx + ex < emax →
  ex ≤ emax - prec →
  ∃ m e, binary_round_aux prec emax false mx ex lx = S754_finite false m e
         ∧ Zdigits2 mx + ex ≤ Zpos (digits2_pos m) + e.
Proof.
  intros Hm Hnormal Hmax Hex. unfold binary_round_aux.
  destruct (shr_fexp_normal mx ex lx Hm Hnormal) as (H1 & D1 & E1 & _).
  destruct (shr_fexp prec emax mx ex lx) as [mrs1 e1]. cbn [fst snd] in H1, D1, E1.
  pose proof (round_nearest_even_bounds (shr_m mrs1) (loc_of_shr_record mrs1)) as Hround.
  set (m2 := round_nearest_even (shr_m mrs1) (loc_of_shr_record mrs1)) in *.
  pose proof (Zdigits2_le (shr_m mrs1) m2 ltac:(lia)) as Hd2.
  pose proof (Zdigits2_succ (shr_m mrs1) ltac:(lia)) as Hd2'.
  pose proof (Zdigits2_le m2 (shr_m mrs1 + 1) ltac:(lia)) as Hd2''.
  destruct (shr_fexp_normal m2 e1 loc_Exact ltac:(lia) ltac:(lia)) as (H3 & D3 & E3 & _).
  destruct (shr_fexp prec emax m2 e1 loc_Exact) as [mrs3 e3]. cbn [fst snd] in H3, D3, E3.
  destruct (shr_m mrs3) as [|m|m] eqn:Hm3; try lia.
  rewrite (proj2 (Z.leb_le e3 (emax - prec))) by (unfold prec, emax in *; lia).
  exists m, e3. split; [done|]. cbn [Zdigits2] in D3. lia.
Qed.

Lemma shl_align_magnitude (m : positive) (e e' : Z) :
  Zpos (digits2_pos (shl_align m e e').1) + (shl_align m e e').2
  = Zpos (digits2_pos m) + e
  ∧ (shl_align m e e').2 ≤ e.
Proof.
  unfold shl_align. destruct (e' - e) as [|d|d] eqn:Hd; cbn [fst snd]; try lia.
  rewrite digits2_iter_xO. lia.
Qed.

(** An integer below [2^63] converts to a float of at least its magnitude. *)
Lemma float_of_int_magnitude (z : Z) :
  0 < z < 2 ^ 63 →
  ∃ m e, Prim2SF (float_of_int z) = S754_finite false m e
         ∧ Zdigits2 z ≤ Zpos (digits2_pos m) + e.
Proof.
  intros Hz. unfold float_of_int. rewrite (proj2 (Z.ltb_ge z 0)) by lia.
  rewrite of_uint63_spec, Uint63.of_Z_spec, Z.mod_small
    by (change wB with (2 ^ 63); lia).
  destruct z as [|m|m]; try lia. cbn [binary_normalize]. unfold binary_round.
  pose proof (digits2_below m 63 ltac:(lia) ltac:(lia)) as Hd.
  pose proof (Pos2Z.is_pos (digits2_pos m)) as Hd0.
  destruct (shl_align_magnitude m 0 (fexp prec emax (Zpos (digits2_pos m) + 0)))
    as [Hmag He].
  destruct (shl_align m 0 _) as [mz ez]. cbn [fst snd] in Hmag, He.
  destruct (binary_round_aux_lower (Zpos mz) ez loc_Exact) as (m' & e' & -> & Hlower);
    cbn [Zdigits2]; unfold SpecFloat.emin, prec, emax; try lia.
  exists m', e'. split; [done|]. cbn [Zdigits2] in *. lia.
Qed.

(** An integer below [2^53] converts to a float of exactly its magnitude. *)
Lemma float_of_int_exact_magnitude (z : Z) :
  0 < z < 2 ^ 53 →
  ∃ m e, Prim2SF (float_of_int z) = S754_finite false m e
         ∧ Zpos (digits2_pos m) + e = Zdigits2 z.
Proof.
  intros Hz. unfold float_of_int. rewrite (proj2 (Z.ltb_ge z 0)) by lia.
  rewrite of_uint63_spec, Uint63.of_Z_spec, Z.mod_small
    by (change wB with (2 ^ 63); lia).
  destruct z as [|m|m]; try lia. cbn [binary_normalize Zdigits2]. unfold binary_round.
  pose proof (digits2_below m 53 ltac:(lia) ltac:(lia)) as Hd.
  pose proof (Pos2Z.is_pos (digits2_pos m)) as Hd0.
  assert (fexp prec emax (Zpos (digits2_pos m) + 0) = Zpos (digits2_pos m) - 53) as ->.
  { unfold fexp, SpecFloat.emin, prec, emax. lia. }
  unfold shl_align. rewrite Z.sub_0_r.
  destruct (Zpos (digits2_pos m) - 53) as [|k|k] eqn:Hk; try lia.
  - rewrite binary_round_aux_canonical.
    + exists m, 0. split; [done|lia].
    + unfold fexp, SpecFloat.emin, prec, emax. lia.
    + unfold prec, emax. lia.
  - rewrite binary_round_aux_canonical.
    + exists (Pos.iter xO m k), (Zneg k). split; [done|].
      rewrite digits2_iter_xO. lia.
    + rewrite digits2_iter_xO. unfold fexp, SpecFloat.emin, prec, emax. lia.
    + unfold prec, emax. lia.
Qed.

Lemma nonneg_below_mono (M M' : Z) (x : spec_float) :
  M ≤ M' → nonneg_below M x → nonneg_below M' x.
Proof. intros HM. destruct x as [| | |s m e]; simpl; try done. intros [? ?]. split; [done|lia]. Qed.

Lemma digits2_pow2_bounds (m : positive) :
  2 ^ (Zpos (digits2_pos m) - 1) ≤ Zpos m < 2 ^ Zpos (digits2_pos m).
Proof.
  change (Zpos (digits2_pos m)) with (Zdigits2 (Zpos m)).
  rewrite Zdigits2_log2 by lia.
  pose proof (Z.log2_spec (Zpos m) ltac:(lia)) as Hspec.
  replace (Z.log2 (Zpos m) + 1 - 1) with (Z.log2 (Zpos m)) by lia.
  unfold Z.succ in Hspec. lia.
Qed.

Lemma Zdigits2_below (q k : Z) : 0 ≤ q < 2 ^ k → 0 ≤ k → Zdigits2 q ≤ k.
Proof.
  intros Hq Hk. destruct q as [|q|q]; [simpl; lia| |lia].
  apply digits2_below; lia.
Qed.

(** The quotient of a number below [2^M1] by a positive number of magnitude
    at least [G] is at most [2^(M1 - G + 1)], also once rounded. *)
Lemma SFdiv_magnitude (M1 G : Z) (x : spec_float) (m2 : positive) (e2 : Z) :
  nonneg_below M1 x → G ≤ Zpos (digits2_pos m2) + e2 →
  emin ≤ M1 - G + 1 → M1 - G + 1 ≤ emax - prec →
  nonneg_below (M1 - G + 2) (SFdiv prec emax x (S754_finite false m2 e2)).
Proof.
  intros Hx Hy Hmin Hmax.
  destruct x as [[]| | |[] m1 e1]; simpl in Hx; try done; try (by destruct Hx).
  destruct Hx as [_ Hx]. cbn [SFdiv xorb].
  destruct (SFdiv_core_binary prec emax (Zpos m1) e1 (Zpos m2) e2)
    as [[mz ez] lz] eqn:Hcore.
  unfold SFdiv_core_binary in Hcore. cbn [Zdigits2] in Hcore.
  set (d1 := Zpos (digits2_pos m1)) in *. set (d2 := Zpos (digits2_pos m2)) in *.
  set (e' := Z.min (fexp prec emax (d1 + e1 - (d2 + e2))) (e1 - e2)) in *.
  set (m' := match e1 - e2 - e' with
             | 0 => Zpos m1
             | Zpos _ => Z.shiftl (Zpos m1) (e1 - e2 - e')
             | Zneg _ => 0
             end) in *.
  assert (0 ≤ e1 - e2 - e') as Hs by lia.
  pose proof (digits2_pow2_bounds m1) as B1. pose proof (digits2_pow2_bounds m2) as B2.
  fold d1 in B1. fold d2 in B2.
  assert (0 < d1 ∧ 0 < d2) as [Hd1 Hd2] by (unfold d1, d2; lia).
  assert (0 ≤ m' < 2 ^ (d1 + (e1 - e2 - e'))) as Hm'.
  { unfold m'. destruct (e1 - e2 - e') as [|s|s] eqn:Hse; try lia.
    - rewrite Z.add_0_r. lia.
    - rewrite Z.shiftl_mul_pow2 by lia. rewrite Z.pow_add_r by lia.
      pose proof (Z.pow_pos_nonneg 2 (Zpos s) ltac:(lia) ltac:(lia)). nia. }
  pose proof (Z_div_mod m' (Zpos m2) ltac:(lia)) as Hdiv.
  destruct (Z.div_eucl m' (Zpos m2)) as [q r]. injection Hcore as <- <- <-.
  destruct Hdiv as [Hq Hr].
  assert (0 ≤ q) as Hq0 by nia.
  apply (nonneg_below_mono (M1 - G + 1 + 1)); [lia|].
  apply binary_round_aux_nonneg; [done| |done|done].
  destruct (Z.le_gt_cases (d1 + (e1 - e2 - e') - d2 + 1) 0) as [Hneg|Hpos].
  - assert (q = 0) as ->.
    { pose proof (Z.pow_le_mono_r 2 (d1 + (e1 - e2 - e')) (d2 - 1) ltac:(lia) ltac:(lia)).
      nia. }
    simpl. unfold e', fexp, SpecFloat.emin, prec, emax in *. lia.
  - assert (q < 2 ^ (d1 + (e1 - e2 - e') - d2 + 1)) as Hqb.
    { assert (2 ^ (d1 + (e1 - e2 - e'))
              = 2 ^ (d2 - 1) * 2 ^ (d1 + (e1 - e2 - e') - d2 + 1)) as Hsplit.
      { rewrite <- Z.pow_add_r by lia. f_equal. lia. }
      pose proof (Z.pow_pos_nonneg 2 (d2 - 1) ltac:(lia) ltac:(lia)).
      nia. }
    pose proof (Zdigits2_below q _ (conj Hq0 Hqb) ltac:(lia)). lia.
Qed.

Lemma Zdigits2_mono_pos (a n : Z) : 0 < a ≤ n → Zdigits2 a ≤ Zdigits2 n.
Proof. intros Han. apply Zdigits2_le. lia. Qed.

(** A quotient [a / n] with [0 <= a <= n] is below 4 (it is at most 1). *)
Lemma int_truediv_unit (a n : Z) :
  0 ≤ a ≤ n → 0 < n < 2 ^ 53 → nonneg_below 2 (Prim2SF (int_truediv a n)).
Proof.
  intros Ha Hn. unfold int_truediv. rewrite FloatAxioms.div_spec.
  destruct (float_of_int_exact_magnitude n Hn) as (m & e & -> & Hmag).
  destruct (decide (a = 0)) as [->|Ha0]; [done|].
  destruct (float_of_int_exact_magnitude a ltac:(lia)) as (ma & ea & Hfa & Hmaga).
  pose proof (Zdigits2_mono_pos a n ltac:(lia)) as Hdigits.
  assert (1 ≤ Zdigits2 a ≤ 53) as Hda.
  { split; [destruct a; simpl; lia|]. apply Zdigits2_below; lia. }
  assert (Zdigits2 n ≤ 53) as Hdn by (apply Zdigits2_below; lia).
  apply (nonneg_below_mono (Zdigits2 a - Zdigits2 n + 2)); [lia|].
  apply SFdiv_magnitude; unfold SpecFloat.emin, prec, emax; try lia.
  rewrite Hfa. split; [done|lia].
Qed.

(** The expected count is below [2^59]. *)
Lemma expected_adjacent_magnitude (a b c n : Z) :
  0 ≤ a < 2 ^ 53 → 0 ≤ b ≤ n → 0 ≤ c ≤ n → 0 < n < 2 ^ 53 →
  nonneg_below 59
    (Prim2SF (float_of_int a * int_truediv b n * int_truediv c n)%float).
Proof.
  intros Ha Hb Hc Hn. rewrite !FloatAxioms.mul_spec.
  apply (SFmul_nonneg 56 2); [|by apply int_truediv_unit|done|done].
  apply (SFmul_nonneg 53 2); [by apply float_of_int_nonneg|by apply int_truediv_unit|done|done].
Qed.

(** From [decay_start] on, the factor [lam / k] of the loop is below a
    quarter. *)
Lemma decay_ratio (lam : float) (k : Z) :
  nonneg_below 59 (Prim2SF lam) → (0 <? lam)%float = true →
  decay_start lam ≤ k < 2 ^ 63 →
  nonneg_below (-2) (Prim2SF (lam / float_of_int k)).
Proof.
  intros Hlam Hpos Hk. unfold decay_start, magnitude in Hk.
  rewrite FloatAxioms.ltb_spec in Hpos. change (Prim2SF 0) with (S754_zero false) in Hpos.
  rewrite FloatAxioms.div_spec.
  destruct (Prim2SF lam) as [[]| | |[] m e]; simpl in Hlam, Hpos; try done;
    try (by destruct Hlam).
  destruct Hlam as [_ Hmag].
  set (g := Zpos (digits2_pos m) + e) in *.
  assert (0 < k) as Hk0.
  { pose proof (Z.pow_pos_nonneg 2 (Z.max 0 (g + 3)) ltac:(lia) ltac:(lia)). lia. }
  destruct (float_of_int_magnitude k ltac:(lia)) as (mk & ek & -> & Hmk).
  assert (g + 4 ≤ Zdigits2 k) as Hdigits.
  { rewrite Zdigits2_log2 by lia.
    pose proof (proj1 (Z.log2_le_pow2 k (Z.max 0 (g + 3)) Hk0) ltac:(lia)). lia. }
  replace (-2) with (g - (g + 4) + 2) by lia.
  apply SFdiv_magnitude; unfold SpecFloat.emin, prec, emax; try lia.
  split; [done|]. fold g. lia.
Qed.

Section PoissonLoop.
Variable lam : float.
Hypothesis Hlam : nonneg_below 59 (Prim2SF lam).
Hypothesis Hpos : (0 <? lam)%float = true.

Lemma decay_start_bounds : 1 ≤ decay_start lam ≤ 2 ^ 62.
Proof.
  unfold decay_start, magnitude.
  rewrite FloatAxioms.ltb_spec in Hpos. change (Prim2SF 0) with (S754_zero false) in Hpos.
  destruct (Prim2SF lam) as [[]| | |[] m e]; simpl in Hlam, Hpos; try done;
    try (by destruct Hlam).
  destruct Hlam as [_ Hmag]. split.
  - pose proof (Z.pow_pos_nonneg 2 (Z.max 0 (Zpos (digits2_pos m) + e + 3))
                  ltac:(lia) ltac:(lia)). lia.
  - apply Z.pow_le_mono_r; lia.
Qed.

(** Once the factors are below a quarter the loop is left within
    [M + 40] rounds by a term below [2^M]. *)
Lemma poisson_loop_decay (n : nat) : ∀ (k : Z) (term tail : float) (M : Z) (fuel : nat),
  decay_start lam ≤ k + 1 → k + Z.of_nat n + 1 < 2 ^ 63 →
  small_below M (Prim2SF term) → M ≤ -39 + Z.of_nat n → M ≤ 1024 →
  (n < fuel)%nat →
  is_Some (Stats.poisson_loop fuel lam k term tail).
Proof.
  induction n as [|n IH]; intros k term tail M fuel Hk Hmax Hterm HM HM1 Hfuel;
    (destruct fuel as [|fuel]; [lia|]); cbn [Stats.poisson_loop].
  all: pose proof (decay_ratio lam (k + 1) Hlam Hpos ltac:(lia)) as Hratio.
  all: pose proof (SFmul_decay (Z.max M (-39)) (-2) _ _
                     (small_below_mono M (Z.max M (-39)) _ ltac:(lia) Hterm)
                     (FloatAxioms.Prim2SF_valid term) Hratio ltac:(lia)
                     ltac:(unfold SpecFloat.emin, prec, emax; lia)
                     ltac:(unfold emax; lia)) as Hnext.
  all: rewrite <- FloatAxioms.mul_spec in Hnext.
  - rewrite below_threshold; [done|].
    eapply small_below_mono; [|exact Hnext]. lia.
  - destruct (_ * _ <? _)%float eqn:Hleave; [by eexists|].
    destruct (Z.le_gt_cases M (-39)) as [Hsmall|Hlarge].
    { rewrite below_threshold in Hleave; [done|].
      eapply small_below_mono; [|exact Hnext]. lia. }
    apply (IH _ _ _ (M - 1)); try lia.
    eapply small_below_mono; [|exact Hnext]. lia.
Qed.

(** Before that, the loop either leaves or goes on to the next term; it is
    enough that the term it has reached by then is finite. *)
Lemma poisson_loop_growth (g : nat) : ∀ (k : Z) (term tail : float) (fuel : nat),
  decay_start lam ≤ k + Z.of_nat g + 1 → k + Z.of_nat g + 1065 < 2 ^ 63 →
  is_finite (poisson_term lam k term g) = true →
  (g + 1063 < fuel)%nat →
  is_Some (Stats.poisson_loop fuel lam k term tail).
Proof.
  induction g as [|g IH]; intros k term tail fuel Hk Hmax Hterm Hfuel.
  - cbn [poisson_term] in Hterm. apply finite_cases in Hterm.
    destruct (Prim2SF term) as [s| | |[] m e] eqn:Hsf; try done.
    + apply (poisson_loop_decay 1063 k term tail 1024); try lia. by rewrite Hsf.
    + destruct fuel as [|fuel]; [lia|]. cbn [Stats.poisson_loop].
      pose proof (decay_ratio lam (k + 1) Hlam Hpos ltac:(lia)) as Hratio.
      assert ((term * (lam / float_of_int (k + 1)) <? 0x1.19799812dea11p-40)%float = true)
        as ->; [|by eexists].
      rewrite FloatAxioms.ltb_spec, FloatAxioms.mul_spec, Hsf.
      by apply (SFmul_negative (-2)).
    + apply (poisson_loop_decay 1063 k term tail 1024); try lia. by rewrite Hsf.
  - destruct fuel as [|fuel]; [lia|]. cbn [Stats.poisson_loop].
    destruct (_ * _ <? _)%float; [by eexists|].
    apply IH; [lia|lia|exact Hterm|lia].
Qed.

End PoissonLoop.

(** [_poisson_tail] returns, given enough fuel, when the term that the loop
    has reached once its factors are below a quarter is finite. *)
Lemma poisson_tail_returns `{Libm} (observed : Z) (lam : float) :
  nonneg_below 59 (Prim2SF lam) → observed < 2 ^ 53 →
  (0 < observed → (0 <? lam)%float = true →
   is_finite
     (poisson_term lam observed
        (math_exp (float_of_int observed * math_log lam - lam
                   - math_lgamma (float_of_int (observed + 1))))
        (Z.to_nat (decay_start lam - observed - 1))) = true) →
  ∃ fuel0 : nat, ∀ fuel, (fuel0 ≤ fuel)%nat →
    is_Some (Stats._poisson_tail fuel observed lam).
Proof.
  intros Hlam Hobserved Hterm.
  exists (Z.to_nat (decay_start lam - observed - 1) + 1064)%nat. intros fuel Hfuel.
  unfold Stats._poisson_tail.
  destruct (lam <=? 0)%float eqn:Hle; [by eexists|].
  destruct (Z.leb_spec observed 0) as [|Hobs]; [by eexists|].
  assert ((0 <? lam)%float = true) as Hpos.
  { rewrite FloatAxioms.leb_spec in Hle. rewrite FloatAxioms.ltb_spec.
    change (Prim2SF 0) with (S754_zero false) in *.
    destruct (Prim2SF lam) as [[]| | |[] m e]; simpl in Hlam; try done;
      by destruct Hlam. }
  pose proof (decay_start_bounds lam Hlam Hpos) as Hstart.
  destruct (poisson_loop_growth lam Hlam Hpos
              (Z.to_nat (decay_start lam - observed - 1)) observed
              (math_exp (float_of_int observed * math_log lam - lam
                         - math_lgamma (float_of_int (observed + 1))))
              (math_exp (float_of_int observed * math_log lam - lam
                         - math_lgamma (float_of_int (observed + 1))))
              fuel) as [tail ->]; [lia|lia|by apply Hterm|lia|].
  by eexists.
Qed.

Section StatisticsEngine.
Context `{Libm}.

(** C7. On an empty scope [compute_pattern_stats] raises nothing and returns
    the degenerate record: no words, both counts 0, expected 0.0, observed 0,
    ratio +infinity and p-value 1.0, whatever the targets are. *)
Theorem compute_pattern_stats_empty_scope (fuel : nat)
    (scope suffix_target prefix_target : str) :
  Stats.compute_pattern_stats fuel scope [] suffix_target prefix_target
  = Some {| Stats.scope := scope;
            Stats.total_words := 0;
            Stats.suffix_count := 0;
            Stats.prefix_count := 0;
            Stats.expected_adjacent := 0%float;
            Stats.observed_adjacent := 0;
            Stats.suffix_percent := 0%float;
            Stats.prefix_percent := 0%float;
            Stats.ratio := infinity;
            Stats.p_value := 1%float |}.
Proof. reflexivity. Qed.

Lemma float_min_le (a b : float) :
  (a <=? a)%float = true → (float_min a b <=? a)%float = true.
Proof.
  intros Ha. unfold float_min. destruct (b <? a)%float eqn:Hlt; [|done].
  rewrite FloatAxioms.ltb_spec in Hlt. rewrite FloatAxioms.leb_spec.
  unfold SFltb in Hlt. unfold SFleb.
  by destruct (SFcompare (Prim2SF b) (Prim2SF a)) as [[]|].
Qed.

Lemma float_pos_not_le (x : float) :
  (0 <? x)%float = true → (x <=? 0)%float = false.
Proof.
  rewrite FloatAxioms.ltb_spec, FloatAxioms.leb_spec.
  change (Prim2SF 0) with (S754_zero false).
  by destruct (Prim2SF x) as [[]|[]| |[] m e].
Qed.

(** C6. [_poisson_tail] returns 0.0 for a mean [lam <= 0] and a positive
    count, 1.0 for [lam <= 0] and a count [<= 0], and 1.0 for [lam > 0] and
    a count [<= 0]; in the remaining case the value it returns is the sum of
    the loop capped by [min(1.0, tail)], which never exceeds 1.0. *)
Theorem poisson_tail_cases (fuel : nat) (observed : Z) (lam : float) :
  ((lam <=? 0)%float = true → 0 < observed →
   Stats._poisson_tail fuel observed lam = Some 0%float)
  ∧ ((lam <=? 0)%float = true → observed ≤ 0 →
     Stats._poisson_tail fuel observed lam = Some 1%float)
  ∧ ((0 <? lam)%float = true → observed ≤ 0 →
     Stats._poisson_tail fuel observed lam = Some 1%float)
  ∧ ((0 <? lam)%float = true → 0 < observed →
     ∀ p, Stats._poisson_tail fuel observed lam = Some p →
       (p <=? 1)%float = true
       ∧ ∃ tail,
           Stats.poisson_loop fuel lam observed
             (math_exp (float_of_int observed * math_log lam - lam
                        - math_lgamma (float_of_int (observed + 1))))
             (math_exp (float_of_int observed * math_log lam - lam
                        - math_lgamma (float_of_int (observed + 1))))
           = Some tail
           ∧ p = float_min 1 tail).
Proof.
  unfold Stats._poisson_tail. split; [|split; [|split]].
  - intros -> Hobs. by rewrite (proj2 (Z.ltb_lt _ _) Hobs).
  - intros -> Hobs. by rewrite (proj2 (Z.ltb_ge _ _) Hobs).
  - intros Hlam Hobs. rewrite (float_pos_not_le _ Hlam).
    by rewrite (proj2 (Z.leb_le _ _) Hobs).
  - intros Hlam Hobs p.
    rewrite (float_pos_not_le _ Hlam), (proj2 (Z.leb_gt _ _) Hobs).
    destruct (Stats.poisson_loop _ _ _ _ _) as [tail|]; [|done].
    simpl. intros [= <-]. split; [by apply float_min_le | by exists tail].
Qed.

(** C3. On a non-empty scope of [N] words, [compute_pattern_stats] returns,
    once the fuel is enough for its Poisson loop, and the record it returns
    (with whatever fuel) has [suffix_count] and [prefix_count] equal to the
    numbers of suffix and prefix flags set, [expected_adjacent = (N - 1) *
    (suffix_count / N) * (prefix_count / N)], [observed_adjacent] equal to
    the number of indices [i] in [0 .. N-2] with the suffix flag set at [i]
    and the prefix flag set at [i + 1], and [ratio = observed_adjacent /
    expected_adjacent] when [expected_adjacent > 0] and +infinity otherwise.
    The scope is shorter than [2^53] words, so that the counts convert to
    floats exactly. The loop is entered with the term that [math.exp],
    [math.log] and [math.lgamma] give, and it ends because its factors
    [lam / k] fall below a quarter, from where each term is less than half
    the one before; what is asked of the library is that the term reached
    by then is finite, neither a NaN nor an infinity: such a term would keep
    the loop running for ever. *)
Theorem compute_pattern_stats_nonempty (scope : str)
    (words : list Stats.WordInfo) (suffix_target prefix_target : str) :
  words ≠ [] →
  Z.of_nat (length words) < 2 ^ 53 →
  let total := Z.of_nat (length words) in
  let suffix_flags := Stats._suffix_flags words suffix_target in
  let prefix_flags := Stats._prefix_flags words prefix_target in
  let expected :=
    (float_of_int (total - 1)
     * int_truediv (count_true suffix_flags) total
     * int_truediv (count_true prefix_flags) total)%float in
  let observed := adjacent_pairs suffix_flags prefix_flags in
  let first_term :=
    math_exp (float_of_int observed * math_log expected - expected
              - math_lgamma (float_of_int (observed + 1)))%float in
  (0 < observed → (0 <? expected)%float = true →
   is_finite
     (poisson_term expected observed first_term
        (Z.to_nat (decay_start expected - observed - 1))) = true) →
  (∃ fuel0 : nat, ∀ fuel, (fuel0 ≤ fuel)%nat →
     is_Some (Stats.compute_pattern_stats fuel scope words suffix_target prefix_target))
  ∧ ∀ fuel stats,
      Stats.compute_pattern_stats fuel scope words suffix_target prefix_target
      = Some stats →
      Stats.total_words stats = total
      ∧ Stats.suffix_count stats = count_true suffix_flags
      ∧ Stats.prefix_count stats = count_true prefix_flags
      ∧ Stats.expected_adjacent stats = expected
      ∧ Stats.observed_adjacent stats = observed
      ∧ Stats.ratio stats
        = (if (0 <? expected)%float
           then (float_of_int observed / expected)%float
           else infinity)
      ∧ Stats._poisson_tail fuel observed expected = Some (Stats.p_value stats).
Proof.
  intros Hne Hbound total suffix_flags prefix_flags expected observed first_term Hterm.
  assert (0 < total) as Htotal.
  { unfold total. destruct words; [done|]. simpl. lia. }
  assert (length suffix_flags = length words) as Hls by apply length_suffix_flags.
  assert (length prefix_flags = length words) as Hlp by apply length_prefix_flags.
  pose proof (count_true_bounds suffix_flags) as Hsc. rewrite Hls in Hsc.
  pose proof (count_true_bounds prefix_flags) as Hpc. rewrite Hlp in Hpc.
  pose proof (adjacent_pairs_bounds suffix_flags prefix_flags) as Hobs.
  rewrite Hls in Hobs.
  assert (nonneg_below 59 (Prim2SF expected)) as Hexpected.
  { apply expected_adjacent_magnitude; fold total; lia. }
  assert (∀ fuel,
          Stats.compute_pattern_stats fuel scope words suffix_target prefix_target
          = p_value ← Stats._poisson_tail fuel observed expected;
            Some {| Stats.scope := scope;
                    Stats.total_words := total;
                    Stats.suffix_count := count_true suffix_flags;
                    Stats.prefix_count := count_true prefix_flags;
                    Stats.expected_adjacent := expected;
                    Stats.observed_adjacent := observed;
                    Stats.suffix_percent :=
                      (int_truediv (count_true suffix_flags) total * 100)%float;
                    Stats.prefix_percent :=
                      (int_truediv (count_true prefix_flags) total * 100)%float;
                    Stats.ratio :=
                      if (0 <? expected)%float
                      then (float_of_int observed / expected)%float
                      else infinity;
                    Stats.p_value := p_value |}) as Hcompute.
  { intros fuel. subst first_term expected observed suffix_flags prefix_flags total.
    unfold Stats.compute_pattern_stats.
    rewrite (proj2 (Z.eqb_neq (Z.of_nat (length words)) 0)) by lia.
    rewrite !sum_bools_count.
    rewrite (observed_adjacent_count _ _ (length words) Hls Hlp).
    rewrite (nonneg_eqb_zero 59 _ Hexpected).
    by destruct (0 <? _)%float. }
  split.
  - destruct (poisson_tail_returns observed expected Hexpected ltac:(lia) Hterm)
      as [fuel0 Hreturns].
    exists fuel0. intros fuel Hfuel. rewrite Hcompute.
    destruct (Hreturns fuel Hfuel) as [p ->]. by eexists.
  - intros fuel stats. rewrite Hcompute.
    destruct (Stats._poisson_tail fuel observed expected) as [p|]; simpl; [|done].
    by intros [= <-].
Qed.

End StatisticsEngine.

Lemma poisson_tail_cases_witness :
  Stats._poisson_tail (H := series_libm) 0 3 0%float = Some 0%float
  ∧ Stats._poisson_tail (H := series_libm) 0 0 (-1)%float = Some 1%float
  ∧ Stats._poisson_tail (H := series_libm) 0 0 2.5%float = Some 1%float
  ∧ ∃ p, Stats._poisson_tail (H := series_libm) 100 3 2.5%float = Some p
         ∧ (p <=? 1)%float = true.
Proof.
  split; [|split; [|split]].
  - apply (proj1 (poisson_tail_cases (H := series_libm) 0 3 0%float));
      [reflexivity | lia].
  - apply (proj1 (proj2 (poisson_tail_cases (H := series_libm) 0 0 (-1)%float)));
      [reflexivity | lia].
  - apply (proj1 (proj2 (proj2 (poisson_tail_cases (H := series_libm) 0 0 2.5%float))));
      [reflexivity | lia].
  - eexists. split; [vm_compute; reflexivity|].
    apply (proj2 (proj2 (proj2 (poisson_tail_cases (H := series_libm) 100 3 2.5%float))));
      [reflexivity | lia | vm_compute; reflexivity].
Defined.

Lemma compute_pattern_stats_nonempty_witness :
  (∃ fuel0 : nat, ∀ fuel, (fuel0 ≤ fuel)%nat →
     is_Some (Stats.compute_pattern_stats (H := series_libm) fuel (lit "Samuel_II")
                Example.words Example.suffix_target Example.prefix_target))
  ∧ ∃ stats,
      Stats.compute_pattern_stats (H := series_libm) 100 (lit "Samuel_II")
        Example.words Example.suffix_target Example.prefix_target = Some stats
      ∧ Stats.total_words stats = 3
      ∧ Stats.suffix_count stats = 1
      ∧ Stats.prefix_count stats = 1
      ∧ Stats.expected_adjacent stats = 0x1.c71c71c71c71cp-3%float
      ∧ Stats.observed_adjacent stats = 1
      ∧ Stats.ratio stats = 0x1.2000000000000p+2%float.
Proof.
  pose proof (compute_pattern_stats_nonempty (H := series_libm) (lit "Samuel_II")
                Example.words Example.suffix_target Example.prefix_target
                ltac:(done) ltac:(simpl; lia)) as Hstats.
  cbv zeta in Hstats.
  destruct Hstats as [Hreturns Hfields]; [intros _ _; vm_compute; reflexivity|].
  split; [exact Hreturns|].
  assert (∃ stats,
            Stats.compute_pattern_stats (H := series_libm) 100 (lit "Samuel_II")
              Example.words Example.suffix_target Example.prefix_target
            = Some stats) as [stats Hrun].
  { vm_compute. eexists. reflexivity. }
  exists stats. split; [exact Hrun|].
  destruct (Hfields 100%nat stats Hrun) as (-> & -> & -> & -> & -> & -> & _).
  repeat split; vm_compute; reflexivity.
Defined.

(** The end-to-end example: one match, token 1 followed by token 2, with all
    three words as its context. *)
Example collect_matches_example :
  Search.collect_matches (H := hebrew_unicodedata)
    Example.suffix_target Example.prefix_target Example.api
  = Some [ {| Search.first :=
                {| Search.nodes := [1]; Search.consonantal := Example.token1;
                   Search.pointed := Example.token1;
                   Search.reference := lit "Samuel_II 13:20" |};
              Search.second :=
                {| Search.nodes := [2]; Search.consonantal := Example.token2;
                   Search.pointed := Example.token2;
                   Search.reference := lit "Samuel_II 13:20" |};
              Search.context :=
                Example.token1 ++ lit " " ++ Example.token2 ++ lit " " ++ Example.token3 |} ].
Proof. vm_compute. reflexivity. Qed.

(** The source's own targets, the two halves of [WORD_TO_SEARCH], find
    nothing in the example corpus. *)
Example collect_matches_default_example :
  Search.collect_matches (H := hebrew_unicodedata)
    Search.FIRST_WORD_SUFFIX Search.SECOND_WORD_PREFIX Example.api = Some [].
Proof. vm_compute. reflexivity. Qed.

(** A target split over two tokens is matched by a two-token span. *)
Example second_span_nodes_two_tokens :
  Search.second_span_nodes (H := hebrew_unicodedata)
    (Example.api_of [Example.token1; [0x5d5; 0x5d0]; [0x5d7; 0x5d9; 0x5d5]]%N)
    1 Example.prefix_target
  = Some [2; 3].
Proof. vm_compute. reflexivity. Qed.

(** Without an explicit pair the word is split at its midpoint, and a split
    index outside the word is refused. *)
Example resolve_targets_midpoint :
  Stats.resolve_targets (H := hebrew_unicodedata)
    (Some Example.pointed_word) None None None
  = inr (Search.FIRST_WORD_SUFFIX, Search.SECOND_WORD_PREFIX).
Proof. vm_compute. reflexivity. Qed.

Example resolve_targets_bad_split :
  Stats.resolve_targets (H := hebrew_unicodedata)
    (Some Search.WORD_TO_SEARCH) None None (Some 4)
  = inl (Stats.ValueError
           (lit "--split-index must fall between 1 and 3 for '"
            ++ Search.WORD_TO_SEARCH ++ lit "'.")).
Proof. vm_compute. reflexivity. Qed.

(** The Hebrew data at work: points are put in canonical order (the shin
    dot, of class 24, after the qamats, of class 18), presentation forms are
    decomposed and not recomposed, and a final kaf with dagesh is folded to
    a kaf once its dagesh is dropped. *)
Example hebrew_normalize_example :
  Hebrew.normalize NFD [0x5e9; 0x5c1; 0x5b8]%N = [0x5e9; 0x5b8; 0x5c1]%N
  ∧ Hebrew.normalize NFC [0xfb2c]%N = [0x5e9; 0x5bc; 0x5c1]%N
  ∧ Stats.normalize_for_match (H := hebrew_unicodedata) [0xfb3a; 0x5be; 0xfb2c]%N
    = [0x5db; 0x5be; 0x5e9]%N.
Proof. repeat split; vm_compute; reflexivity. Qed.

(** * Further properties of the prefix-span matcher *)

Section MatcherCompleteness.
Implicit Types (segments : list str) (remaining : str).

(** The greedy consumption loses nothing: it succeeds as soon as some run of
    non-empty segments covers the target. *)
Lemma span_length_complete segments remaining k :
  remaining ≠ [] →
  Forall (λ segment, segment ≠ []) (take k segments) →
  remaining `prefix_of` mjoin (take k segments) →
  is_Some (span_length segments remaining).
Proof.
  revert remaining k. induction segments as [|segment segments IH];
    intros remaining k Hne Hall Hcover.
  { rewrite take_nil in Hcover. simpl in Hcover. by apply prefix_nil_inv in Hcover. }
  destruct k as [|k]; [simpl in Hcover; by apply prefix_nil_inv in Hcover|].
  cbn [take mjoin list_join] in Hall, Hcover. apply Forall_cons in Hall as [Hseg Hall].
  cbn [span_length]. destruct segment as [|c segment]; [done|].
  destruct (startswith (c :: segment) remaining) eqn:Hfull; [by eexists|].
  apply startswith_false in Hfull.
  destruct (prefix_weak_total remaining (c :: segment) _ Hcover
              (prefix_app_r _ _ _ (reflexivity _))) as [Hpre|[tail ->]]; [done|].
  rewrite (proj2 (startswith_prefix _ _)) by (by eexists).
  rewrite drop_app_length.
  assert (tail ≠ []) as Htail.
  { intros ->. apply Hfull. by rewrite app_nil_r. }
  apply prefix_app_inv in Hcover.
  destruct (IH tail k Htail Hall Hcover) as [k' ->]. by eexists.
Qed.

Lemma span_length_bound segments remaining k :
  remaining ≠ [] →
  span_length segments remaining = Some k → (k ≤ length remaining)%nat.
Proof.
  revert remaining k. induction segments as [|segment segments IH];
    intros remaining k Hne; cbn [span_length]; [done|].
  destruct segment as [|c segment]; [done|].
  destruct (startswith (c :: segment) remaining) eqn:Hfull.
  { intros [= <-]. destruct remaining; [done|]. simpl. lia. }
  destruct (startswith remaining (c :: segment)) eqn:Hpart; [|done].
  apply startswith_prefix in Hpart as [tail ->]. apply startswith_false in Hfull.
  rewrite drop_app_length.
  assert (tail ≠ []) as Htail.
  { intros ->. apply Hfull. by rewrite app_nil_r. }
  destruct (span_length segments tail) as [k'|] eqn:Hk'; [|done].
  intros [= <-]. pose proof (IH tail k' Htail Hk'). rewrite length_app. simpl. lia.
Qed.

Lemma span_length_iff segments remaining :
  remaining ≠ [] →
  is_Some (span_length segments remaining)
  ↔ ∃ k, Forall (λ segment, segment ≠ []) (take k segments)
         ∧ remaining `prefix_of` mjoin (take k segments).
Proof.
  intros Hne. split.
  - intros [k Hk]. exists k.
    destruct (span_length_sound _ _ _ Hne Hk) as (_ & Hall & Hpre & _). done.
  - intros (k & Hall & Hpre). by apply (span_length_complete _ _ k).
Qed.

End MatcherCompleteness.

Section MatcherExtras.
Context `{Unicodedata}.

(** X1. The matcher needs no backtracking: for a non-empty prefix target it
    returns a span exactly when some run of consecutive tokens from the
    start index, all with a non-empty normalised text, covers the target;
    the prefix flag of the statistics engine is set on the same condition. *)
Theorem matcher_succeeds_iff_covered (api : Search.Api) (words : list Stats.WordInfo)
    (start : nat) (prefix : str) :
  prefix ≠ [] →
  (is_Some (Search.second_span_nodes api start prefix)
   ↔ ∃ run, run `prefix_of` drop start (Search.otype_word api)
            ∧ Forall (λ text, text ≠ []) (norm_texts api run)
            ∧ prefix `prefix_of` mjoin (norm_texts api run))
  ∧ ((start < length words)%nat →
     Stats._prefix_flags words prefix !! start = Some true
     ↔ ∃ k, Forall (λ word, Stats.text word ≠ []) (take k (drop start words))
            ∧ prefix `prefix_of` mjoin (Stats.text <$> take k (drop start words))).
Proof.
  intros Hne. split.
  - rewrite second_span_nodes_spec by done.
    set (rest := drop start (Search.otype_word api)).
    transitivity (is_Some (span_length (norm_texts api rest) prefix)).
    { destruct (span_length _ _); simpl; split; intros [? ?]; by eauto. }
    rewrite span_length_iff by done. split.
    + intros (k & Hall & Hpre). exists (take k rest).
      unfold norm_texts in *. rewrite fmap_take. split; [apply prefix_take|done].
    + intros (run & [tail Hrun] & Hall & Hpre). exists (length run).
      unfold norm_texts in *. rewrite <- fmap_take, Hrun, take_app_length. done.
  - intros Hlt. rewrite prefix_flags_lookup by done. unfold prefix_flag.
    transitivity (is_Some (span_length (Stats.text <$> drop start words) prefix)).
    { split; [intros [= Hflag]; by apply bool_decide_eq_true_1 in Hflag
             | intros Hsome; f_equal; by apply bool_decide_eq_true_2]. }
    rewrite span_length_iff by done.
    split; intros (k & Hall & Hpre); exists k; rewrite <- ?fmap_take in *.
    + split; [|done]. rewrite Forall_forall in Hall.
      apply Forall_forall. intros word Hword. apply Hall.
      apply list_elem_of_fmap. by exists word.
    + split; [|done]. rewrite Forall_forall in Hall.
      apply Forall_forall. intros text Htext.
      apply list_elem_of_fmap in Htext as (word & -> & Hword). by apply Hall.
Qed.

Lemma second_span_nodes_length_bound (api : Search.Api) (start : nat)
    (prefix : str) (span : list Z) :
  Search.second_span_nodes api start prefix = Some span →
  (1 ≤ length span ≤ length prefix)%nat.
Proof.
  intros Hspan. assert (prefix ≠ []) as Hne by (by intros ->).
  rewrite second_span_nodes_spec in Hspan by done.
  destruct (span_length _ _) as [k|] eqn:Hk; [|done]. injection Hspan as <-.
  destruct (span_length_sound _ _ _ Hne Hk) as (Hlen & _).
  pose proof (span_length_bound _ _ _ Hne Hk).
  unfold norm_texts in Hlen. rewrite length_fmap in Hlen.
  rewrite length_take. lia.
Qed.

(** X2. A span returned by the matcher has at least one token and at most as
    many tokens as the prefix target has characters. *)
Theorem second_span_nodes_length (api : Search.Api) (start : nat)
    (prefix : str) (span : list Z) :
  Search.second_span_nodes api start prefix = Some span →
  (1 ≤ length span ≤ length prefix)%nat.
Proof. apply second_span_nodes_length_bound. Qed.

End MatcherExtras.

(** * Further properties of the corpus scanner *)

Lemma Forall2_elem_of_r {A B} (R : A → B → Prop) (l : list A) (k : list B) (y : B) :
  Forall2 R l k → y ∈ k → ∃ x, x ∈ l ∧ R x y.
Proof.
  induction 1 as [|x y' l k Hxy _ IH]; intros Hy; [by apply elem_of_nil in Hy|].
  apply elem_of_cons in Hy as [->|Hy].
  - exists x. split; [constructor|done].
  - destruct (IH Hy) as (x' & Hx' & HR). exists x'. split; [by constructor|done].
Qed.

Section ScannerExtras.
Context `{Unicodedata}.

Lemma scan_loop_records api suffix_target prefix_target rest idx matches :
  (∀ j node, rest !! j = Some node → Search.otype_word api !! (idx + j)%nat = Some node) →
  ∃ found,
    Search.scan_loop api suffix_target prefix_target idx rest matches
    = Some (matches ++ found)
    ∧ Forall2 (match_record_at api prefix_target)
        (filter (λ i, begins_match api suffix_target prefix_target i = true)
                (seq idx (length rest)))
        found.
Proof.
  revert idx matches.
  induction rest as [|first_node rest IH]; intros idx matches Hrest.
  { exists []. simpl. rewrite app_nil_r. split; [done|constructor]. }
  assert (Search.otype_word api !! idx = Some first_node) as Hidx.
  { rewrite <- (Nat.add_0_r idx). by apply Hrest. }
  assert (∀ j node, rest !! j = Some node →
            Search.otype_word api !! (S idx + j)%nat = Some node) as Hrest'.
  { intros j node Hj. replace (S idx + j)%nat with (idx + S j)%nat by lia.
    by apply Hrest. }
  cbn [Search.scan_loop length seq].
  set (first_norm := Search.normalize_for_match
                       (default [] (Search.g_cons_utf8 api first_node))).
  assert ((match suffix_target with
           | [] => false
           | _ :: _ => negb (endswith first_norm suffix_target)
           end) = negb (bool_decide (suffix_target `suffix_of` first_norm))) as ->.
  { destruct suffix_target as [|c t] eqn:Hs.
    - by rewrite bool_decide_eq_true_2 by apply suffix_nil.
    - rewrite <- Hs. f_equal. destruct (endswith _ _) eqn:He.
      + symmetry. apply bool_decide_eq_true_2. by apply endswith_suffix.
      + symmetry. apply bool_decide_eq_false_2. rewrite <- endswith_suffix. by rewrite He. }
  assert (begins_match api suffix_target prefix_target idx
          = bool_decide (suffix_target `suffix_of` first_norm)
            && bool_decide (is_Some (Search.second_span_nodes api (S idx) prefix_target)))
    as Hbegins.
  { unfold begins_match. by rewrite Hidx. }
  replace (idx + 1)%nat with (S idx) by lia.
  destruct (bool_decide (suffix_target `suffix_of` first_norm)) eqn:Hsuffix;
    cbn [negb].
  2: { destruct (IH (S idx) matches Hrest') as (found & Hrun & Hfound).
       exists found. split; [done|]. rewrite filter_cons_False; [done|].
       rewrite Hbegins. done. }
  destruct (Search.second_span_nodes api (S idx) prefix_target) as [span|] eqn:Hspan.
  2: { destruct (IH (S idx) matches Hrest') as (found & Hrun & Hfound).
       exists found. split; [done|]. rewrite filter_cons_False; [done|].
       rewrite Hbegins. rewrite bool_decide_eq_false_2 by (by intros [? ?]). done. }
  destruct span as [|node span].
  { by apply second_span_nodes_nonempty in Hspan. }
  destruct (build_span_cons api first_node []) as (first_span & Hbuild1 & _).
  destruct (build_span_cons api node span) as (second_span & Hbuild2 & _).
  rewrite Hbuild1, Hbuild2. cbn [mbind option_bind].
  match goal with
  | |- ∃ found, Search.scan_loop _ _ _ _ _ (matches ++ [?m]) = _ ∧ _ =>
    destruct (IH (S idx) (matches ++ [m]) Hrest') as (found & Hrun & Hfound);
    exists (m :: found)
  end.
  split.
  - rewrite Hrun. by rewrite <- app_assoc.
  - rewrite filter_cons_True.
    2: { rewrite Hbegins. by rewrite bool_decide_eq_true_2 by eauto. }
    constructor; [|done].
    by exists first_node, (node :: span).
Qed.

Lemma collect_matches_records (first_word_suffix second_word_prefix : str)
    (api : Search.Api) :
  ∃ matches,
    Search.collect_matches first_word_suffix second_word_prefix api = Some matches
    ∧ Forall2 (match_record_at api (Search.normalize_for_match second_word_prefix))
        (filter (λ i, begins_match api (Search.normalize_for_match first_word_suffix)
                        (Search.normalize_for_match second_word_prefix) i = true)
                (seq 0 (length (Search.otype_word api) - 1)))
        matches.
Proof.
  unfold Search.collect_matches.
  destruct (scan_loop_records api (Search.normalize_for_match first_word_suffix)
              (Search.normalize_for_match second_word_prefix)
              (take (length (Search.otype_word api) - 1) (Search.otype_word api)) 0 [])
    as (found & Hrun & Hfound).
  { intros j node Hj. simpl. apply lookup_take_Some in Hj. tauto. }
  exists found. split; [done|].
  by rewrite length_take, Nat.min_l in Hfound by lia.
Qed.

Lemma second_span_nodes_cover api start prefix span :
  Search.second_span_nodes api start prefix = Some span →
  span `prefix_of` drop start (Search.otype_word api)
  ∧ prefix `prefix_of` mjoin (norm_texts api span).
Proof.
  intros Hspan. assert (prefix ≠ []) as Hne by (by intros ->).
  rewrite second_span_nodes_spec in Hspan by done.
  destruct (span_length _ _) as [k|] eqn:Hk; [|done]. injection Hspan as <-.
  destruct (span_length_sound _ _ _ Hne Hk) as (_ & _ & Hpre & _).
  split; [apply prefix_take|]. unfold norm_texts in *. by rewrite fmap_take.
Qed.

(** X3. Every match the scanner reports is a real one. Its first span is a
    single token whose normalised text ends with the suffix target; its
    second span is the run of one or more tokens right after it, no longer
    than the prefix target, whose concatenated normalised texts begin with
    the prefix target; and the texts and the reference of both spans are
    those of their tokens, the reference being that of the first token. *)
Theorem collect_matches_sound (first_word_suffix second_word_prefix : str)
    (api : Search.Api) (matches : list Search.InterWordMatch)
    (m : Search.InterWordMatch) :
  Search.collect_matches first_word_suffix second_word_prefix api = Some matches →
  m ∈ matches →
  ∃ (i : nat) (node node' : Z) (span : list Z),
    Search.otype_word api !! i = Some node
    ∧ Search.nodes (Search.first m) = [node]
    ∧ Search.nodes (Search.second m) = node' :: span
    ∧ node :: node' :: span
      = take (2 + length span) (drop i (Search.otype_word api))
    ∧ (1 + length span ≤ length (Search.normalize_for_match second_word_prefix))%nat
    ∧ Search.normalize_for_match first_word_suffix
      `suffix_of` Search.normalize_for_match (default [] (Search.g_cons_utf8 api node))
    ∧ Search.normalize_for_match second_word_prefix
      `prefix_of` mjoin (norm_texts api (node' :: span))
    ∧ Search.consonantal (Search.first m) = default [] (Search.g_cons_utf8 api node)
    ∧ Search.pointed (Search.first m) = default [] (Search.g_word_utf8 api node)
    ∧ Search.reference (Search.first m)
      = Search.format_reference (Search.sectionFromNode api node)
    ∧ Search.consonantal (Search.second m)
      = mjoin ((λ n, default [] (Search.g_cons_utf8 api n)) <$> node' :: span)
    ∧ Search.pointed (Search.second m)
      = mjoin ((λ n, default [] (Search.g_word_utf8 api n)) <$> node' :: span)
    ∧ Search.reference (Search.second m)
      = Search.format_reference (Search.sectionFromNode api node').
Proof.
  intros Hrun Hm.
  destruct (collect_matches_records first_word_suffix second_word_prefix api)
    as (matches' & Hrun' & Hrecords).
  rewrite Hrun in Hrun'. injection Hrun' as <-.
  destruct (Forall2_elem_of_r _ _ _ _ Hrecords Hm) as (i & Hi & Hrecord).
  apply list_elem_of_filter in Hi as [Hbegins Hi].
  destruct Hrecord as (node & span & Hnode & Hspan & Hfirst & Hsecond & _).
  unfold begins_match in Hbegins. rewrite Hnode in Hbegins.
  apply andb_true_iff in Hbegins as [Hsuffix _].
  apply bool_decide_eq_true_1 in Hsuffix.
  pose proof (second_span_nodes_length_bound _ _ _ _ Hspan) as Hlen.
  destruct (second_span_nodes_cover _ _ _ _ Hspan) as ([tail Htail] & Hcover).
  destruct span as [|node' span]; [simpl in Hlen; lia|].
  exists i, node, node', span.
  unfold Search.build_span in Hfirst, Hsecond. simpl in Hfirst, Hsecond.
  injection Hfirst as Hfirst. injection Hsecond as Hsecond.
  rewrite <- Hfirst, <- Hsecond. simpl. rewrite !app_nil_r.
  repeat split; try done.
  - rewrite (drop_S _ _ _ Hnode). simpl. f_equal. rewrite Htail.
    change (node' :: span ++ tail) with ((node' :: span) ++ tail).
    by rewrite (take_app_length' (node' :: span)) by (simpl; lia).
  - simpl in Hlen. lia.
Qed.

(** X4. The scanner never reports more than [N - 1] matches, so that a
    corpus of fewer than two words has none; and it reports none at all when
    the prefix target normalises to the empty string. *)
Theorem collect_matches_bounds (first_word_suffix second_word_prefix : str)
    (api : Search.Api) :
  ∃ matches,
    Search.collect_matches first_word_suffix second_word_prefix api = Some matches
    ∧ (length matches ≤ length (Search.otype_word api) - 1)%nat
    ∧ (Search.normalize_for_match second_word_prefix = [] → matches = []).
Proof.
  destruct (collect_matches_records first_word_suffix second_word_prefix api)
    as (matches & Hrun & Hscan).
  exists matches. split; [done|]. apply Forall2_length in Hscan. split.
  - rewrite <- Hscan.
    match goal with
    | |- (length (filter ?P ?l) ≤ _)%nat => pose proof (length_filter P l) as Hle
    end.
    by rewrite length_seq in Hle.
  - intros Hnil. rewrite Hnil in Hscan.
    rewrite (filter_ext_in _ (λ _, False)) in Hscan.
    + destruct matches; [done|]. simpl in Hscan.
      assert (∀ l : list nat, filter (λ _, False) l = []) as Hfalse.
      { induction l as [|x l IH]; [done|]. rewrite filter_cons_False by tauto. exact IH. }
      by rewrite Hfalse in Hscan.
    + intros i _. unfold begins_match. destruct (Search.otype_word api !! i); [|done].
      rewrite andb_true_iff. split; [|done]. intros [_ Hspan].
      apply bool_decide_eq_true_1 in Hspan. by destruct Hspan.
Qed.

End ScannerExtras.

(** * The two programs against each other *)

Lemma compute_pattern_stats_counts `{Libm} (fuel : nat) (scope : str)
    (words : list Stats.WordInfo) (suffix_target prefix_target : str)
    (stats : Stats.PatternStats) :
  Stats.compute_pattern_stats fuel scope words suffix_target prefix_target = Some stats →
  Stats.total_words stats = Z.of_nat (length words)
  ∧ Stats.suffix_count stats = count_true (Stats._suffix_flags words suffix_target)
  ∧ Stats.prefix_count stats = count_true (Stats._prefix_flags words prefix_target)
  ∧ Stats.observed_adjacent stats
    = adjacent_pairs (Stats._suffix_flags words suffix_target)
        (Stats._prefix_flags words prefix_target).
Proof.
  unfold Stats.compute_pattern_stats.
  destruct (Z.eqb_spec (Z.of_nat (length words)) 0) as [Hzero|Hpos].
  - destruct words; [|simpl in Hzero; lia]. intros [= <-].
    by destruct suffix_target, prefix_target.
  - rewrite !sum_bools_count.
    rewrite (observed_adjacent_count _ _ (length words)
               (length_suffix_flags _ _) (length_prefix_flags _ _)).
    destruct (Stats._poisson_tail _ _ _); [|done]. by intros [= <-].
Qed.

Section ProgramsAgree.
Context `{Unicodedata}.

Lemma prefix_flags_matcher (api : Search.Api)
    (words : list Stats.WordInfo) (prefix : str) (start : nat) :
  Stats.text <$> words = norm_texts api (Search.otype_word api) →
  (start < length words)%nat →
  Stats._prefix_flags words prefix !! start
  = Some (bool_decide (is_Some (Search.second_span_nodes api start prefix))).
Proof.
  intros Htexts Hlt. destruct (decide (prefix = [])) as [->|Hne].
  - cbn [Stats._prefix_flags Search.second_span_nodes].
    rewrite lookup_replicate_2 by done. reflexivity.
  - rewrite prefix_flags_lookup, second_span_nodes_spec by done. f_equal.
    unfold prefix_flag. rewrite fmap_drop, Htexts.
    unfold norm_texts. rewrite <- fmap_drop.
    apply bool_decide_ext. by destruct (span_length _ _); split; intros [? ?]; eauto.
Qed.

(** X5. The two programs carry the same matcher: on a word list whose texts
    are the normalised consonantal texts of the corpus, the prefix flag of
    the statistics engine at a position is set exactly when the matcher of
    the scanner returns a span from that position, for every prefix target,
    the empty one included. *)
Theorem prefix_flags_agree_with_matcher (api : Search.Api)
    (words : list Stats.WordInfo) (prefix : str) (start : nat) :
  Stats.text <$> words = norm_texts api (Search.otype_word api) →
  (start < length words)%nat →
  Stats._prefix_flags words prefix !! start
  = Some (bool_decide (is_Some (Search.second_span_nodes api start prefix))).
Proof. apply prefix_flags_matcher. Qed.

(** X6. The two programs count the same thing: on a word list whose texts are
    the normalised consonantal texts of the corpus, the [observed_adjacent]
    of the statistics engine is the number of matches the scanner reports
    for the same targets. *)
Theorem observed_adjacent_is_match_count `{Libm} (api : Search.Api)
    (words : list Stats.WordInfo) (first_word_suffix second_word_prefix : str)
    (matches : list Search.InterWordMatch) (fuel : nat) (scope : str)
    (stats : Stats.PatternStats) :
  Stats.text <$> words = norm_texts api (Search.otype_word api) →
  Search.collect_matches first_word_suffix second_word_prefix api = Some matches →
  Stats.compute_pattern_stats fuel scope words
    (Search.normalize_for_match first_word_suffix)
    (Search.normalize_for_match second_word_prefix) = Some stats →
  Stats.observed_adjacent stats = Z.of_nat (length matches).
Proof.
  intros Htexts Hrun Hstats.
  apply compute_pattern_stats_counts in Hstats as (_ & _ & _ & ->).
  destruct (collect_matches_records first_word_suffix second_word_prefix api)
    as (matches' & Hrun' & Hscan).
  rewrite Hrun in Hrun'. injection Hrun' as <-.
  apply Forall2_length in Hscan. rewrite <- Hscan.
  unfold adjacent_pairs. rewrite length_suffix_flags.
  assert (length words = length (Search.otype_word api)) as Hlen.
  { apply (f_equal length) in Htexts. unfold norm_texts in Htexts.
    by rewrite !length_fmap in Htexts. }
  rewrite Hlen. f_equal. f_equal. apply filter_ext_in. intros i Hi.
  apply elem_of_seq in Hi.
  rewrite (prefix_flags_matcher api words _ (S i) Htexts) by lia.
  rewrite suffix_flags_spec, list_lookup_fmap.
  destruct (lookup_lt_is_Some_2 (Search.otype_word api) i ltac:(lia)) as [node Hnode].
  assert (words !! i
          ≫= (λ word, Some (Stats.text word))
          = Some (Search.normalize_for_match (default [] (Search.g_cons_utf8 api node))))
    as Htext.
  { change (words !! i ≫= (λ word, Some (Stats.text word)))
      with (Stats.text <$> (words !! i)).
    rewrite <- list_lookup_fmap, Htexts. unfold norm_texts.
    by rewrite list_lookup_fmap, Hnode. }
  unfold begins_match. rewrite Hnode.
  destruct (words !! i) as [word|] eqn:Hword; [|done]. simpl in Htext.
  injection Htext as Htext. simpl. rewrite Htext.
  rewrite andb_true_iff. split.
  - intros [[= ->] [= ->]]. done.
  - intros [-> ->]. done.
Qed.

End ProgramsAgree.

Lemma prefix_flags_agree_with_matcher_witness :
  Stats._prefix_flags Example.words Example.prefix_target !! 1%nat
  = Some (bool_decide
            (is_Some (Search.second_span_nodes (H := hebrew_unicodedata)
                        Example.api 1 Example.prefix_target))).
Proof.
  apply (prefix_flags_agree_with_matcher (H := hebrew_unicodedata) Example.api
           Example.words Example.prefix_target 1);
    [vm_compute; reflexivity | simpl; lia].
Defined.

(** * Further properties of the statistics engine *)

Lemma length_filter_mono {A} (P Q : A → Prop) `{∀ x, Decision (P x)}
    `{∀ x, Decision (Q x)} (l : list A) :
  (∀ x, x ∈ l → P x → Q x) → (length (filter P l) ≤ length (filter Q l))%nat.
Proof.
  induction l as [|x l IH]; intros HPQ; [done|].
  assert (length (filter P l) ≤ length (filter Q l))%nat as Hl.
  { apply IH. intros y Hy. apply HPQ. by constructor. }
  rewrite !filter_cons.
  destruct (decide (P x)) as [HP|HP], (decide (Q x)) as [HQ|HQ]; simpl; try lia.
  destruct HQ. apply HPQ; [constructor|done].
Qed.

Lemma length_filter_fmap {A B} (f : A → B) (P : B → Prop) (Q : A → Prop)
    `{∀ x, Decision (P x)} `{∀ x, Decision (Q x)} (l : list A) :
  (∀ x, Q x ↔ P (f x)) →
  length (filter P (f <$> l)) = length (filter Q l).
Proof.
  intros HPQ. induction l as [|x l IH]; [done|]. rewrite fmap_cons, !filter_cons.
  destruct (decide (P (f x))) as [HP|HP], (decide (Q x)) as [HQ|HQ];
    simpl; rewrite ?IH; try done.
  - destruct HQ. by apply HPQ.
  - destruct HP. by apply HPQ.
Qed.

Lemma count_true_indices (flags : list bool) :
  count_true flags
  = Z.of_nat (length (filter (λ i, flags !! i = Some true) (seq 0 (length flags)))).
Proof.
  unfold count_true. f_equal.
  induction flags as [|b flags IH] using rev_ind; [done|].
  rewrite length_app, Nat.add_1_r, seq_S, !filter_app, !length_app, IH. simpl.
  f_equal.
  - f_equal. apply filter_ext_in. intros i Hi. apply elem_of_seq in Hi.
    by rewrite lookup_app_l by lia.
  - destruct b.
    + rewrite (filter_cons_True _ true) by done.
      by rewrite (filter_cons_True _ (length flags)) by (by rewrite list_lookup_middle).
    + rewrite (filter_cons_False _ false) by done.
      by rewrite (filter_cons_False _ (length flags)) by (by rewrite list_lookup_middle).
Qed.

Lemma adjacent_pairs_le_suffix (suffix_flags prefix_flags : list bool) :
  adjacent_pairs suffix_flags prefix_flags ≤ count_true suffix_flags.
Proof.
  rewrite count_true_indices. unfold adjacent_pairs. apply inj_le.
  etrans; [apply (length_filter_mono _ (λ i, suffix_flags !! i = Some true));
           by intros i _ [? _]|].
  replace (length suffix_flags)
    with ((length suffix_flags - 1) + (length suffix_flags - (length suffix_flags - 1)))%nat
    at 2 by lia.
  rewrite seq_app, filter_app, length_app. lia.
Qed.

Lemma adjacent_pairs_le_prefix (suffix_flags prefix_flags : list bool) :
  length prefix_flags = length suffix_flags →
  adjacent_pairs suffix_flags prefix_flags ≤ count_true prefix_flags.
Proof.
  intros Hlen. rewrite count_true_indices. unfold adjacent_pairs. apply inj_le.
  etrans; [apply (length_filter_mono _ (λ i, prefix_flags !! S i = Some true));
           by intros i _ [_ ?]|].
  assert (∀ m, length (filter (λ i, prefix_flags !! S i = Some true) (seq 0 m))
               = length (filter (λ j, prefix_flags !! j = Some true) (seq 1 m))) as ->.
  { intros m. rewrite <- fmap_S_seq. symmetry. by apply length_filter_fmap. }
  rewrite Hlen. destruct (length suffix_flags) as [|n]; [done|].
  replace (S n - 1)%nat with n by lia. cbn [seq].
  rewrite (filter_cons _ 0%nat). destruct (decide _); simpl; lia.
Qed.

Section StatisticsExtras.
Context `{Libm}.

(** X7. The counts of a returned record are consistent: the observed
    adjacencies are at most the suffix-bearing words, at most the
    prefix-starting positions and at most [N - 1], and both counts are at
    most the number [N] of words. *)
Theorem pattern_stats_counts_consistent (fuel : nat) (scope : str)
    (words : list Stats.WordInfo) (suffix_target prefix_target : str)
    (stats : Stats.PatternStats) :
  Stats.compute_pattern_stats fuel scope words suffix_target prefix_target = Some stats →
  Stats.total_words stats = Z.of_nat (length words)
  ∧ 0 ≤ Stats.observed_adjacent stats ≤ Stats.suffix_count stats
  ∧ Stats.observed_adjacent stats ≤ Stats.prefix_count stats
  ∧ Stats.observed_adjacent stats ≤ Z.max 0 (Stats.total_words stats - 1)
  ∧ Stats.suffix_count stats ≤ Stats.total_words stats
  ∧ Stats.prefix_count stats ≤ Stats.total_words stats.
Proof.
  intros Hstats.
  apply compute_pattern_stats_counts in Hstats as (-> & -> & -> & ->).
  pose proof (adjacent_pairs_bounds (Stats._suffix_flags words suffix_target)
                (Stats._prefix_flags words prefix_target)) as Hobs.
  pose proof (adjacent_pairs_le_suffix (Stats._suffix_flags words suffix_target)
                (Stats._prefix_flags words prefix_target)) as Hsuffix.
  pose proof (adjacent_pairs_le_prefix (Stats._suffix_flags words suffix_target)
                (Stats._prefix_flags words prefix_target)) as Hprefix.
  rewrite length_suffix_flags, length_prefix_flags in Hprefix.
  specialize (Hprefix eq_refl).
  pose proof (count_true_bounds (Stats._suffix_flags words suffix_target)) as Hsc.
  pose proof (count_true_bounds (Stats._prefix_flags words prefix_target)) as Hpc.
  rewrite length_suffix_flags in Hobs, Hsc. rewrite length_prefix_flags in Hpc.
  lia.
Qed.

(** X8. When no adjacency is observed the engine returns without entering
    the Poisson loop, whatever the fuel, and reports the p-value 1.0. *)
Theorem no_adjacency_p_value_one (fuel : nat) (scope : str)
    (words : list Stats.WordInfo) (suffix_target prefix_target : str) :
  adjacent_pairs (Stats._suffix_flags words suffix_target)
    (Stats._prefix_flags words prefix_target) = 0 →
  ∃ stats,
    Stats.compute_pattern_stats fuel scope words suffix_target prefix_target = Some stats
    ∧ Stats.observed_adjacent stats = 0
    ∧ Stats.p_value stats = 1%float.
Proof.
  intros Hnone. unfold Stats.compute_pattern_stats.
  destruct (Z.eqb_spec (Z.of_nat (length words)) 0) as [Hzero|Hpos]; [by eexists|].
  rewrite (observed_adjacent_count _ _ (length words)
             (length_suffix_flags _ _) (length_prefix_flags _ _)), Hnone.
  unfold Stats._poisson_tail.
  destruct (_ <=? 0)%float; simpl; by eexists.
Qed.

Lemma poisson_loop_nan (fuel : nat) (lam : float) (k : Z) (term tail : float) :
  Prim2SF lam = S754_nan → Stats.poisson_loop fuel lam k term tail = None.
Proof.
  intros Hnan. revert k term tail.
  induction fuel as [|fuel IH]; intros k term tail; [done|].
  cbn [Stats.poisson_loop].
  assert ((term * (lam / float_of_int (k + 1)) <? 0x1.19799812dea11p-40)%float = false)
    as ->.
  { rewrite FloatAxioms.ltb_spec, FloatAxioms.mul_spec, FloatAxioms.div_spec, Hnan.
    by destruct (Prim2SF term). }
  apply IH.
Qed.

(** X9. A NaN mean with a positive count is never answered: the loop of
    [_poisson_tail] runs out of any fuel, since every term it computes is
    a NaN and no NaN is below the threshold. *)
Theorem poisson_tail_nan_diverges (fuel : nat) (observed : Z) (lam : float) :
  is_nan lam = true → 0 < observed →
  Stats._poisson_tail fuel observed lam = None.
Proof.
  intros Hnan Hobs.
  assert (Prim2SF lam = S754_nan) as Hsf by (unfold Prim2SF; by rewrite Hnan).
  unfold Stats._poisson_tail.
  rewrite FloatAxioms.leb_spec, Hsf. cbn [SFleb SFcompare].
  rewrite (proj2 (Z.leb_gt _ _) Hobs).
  by rewrite poisson_loop_nan.
Qed.

End StatisticsExtras.


(** * Targets *)

Section ResolveTargets.
Context `{Unicodedata}.

Lemma resolve_targets_explicit (word st pt : option str) (si : option Z) :
  explicit_target st ≠ [] → explicit_target pt ≠ [] →
  Stats.resolve_targets word st pt si = inr (explicit_target st, explicit_target pt).
Proof.
  intros Hs Hp. unfold Stats.resolve_targets. fold (explicit_target st) (explicit_target pt).
  by destruct (explicit_target st), (explicit_target pt).
Qed.

Lemma resolve_targets_from_word (word st pt : option str) (si : option Z) :
  let w := Stats.normalize_for_match (default [] word) in
  let n := Z.of_nat (length w) in
  let k := default (n `div` 2) si in
  explicit_target st = [] ∨ explicit_target pt = [] →
  Stats.resolve_targets word st pt si
  = if bool_decide (2 ≤ n ∧ 0 < k < n)
    then inr (if decide (explicit_target st = []) then take (Z.to_nat k) w
              else explicit_target st,
              if decide (explicit_target pt = []) then drop (Z.to_nat k) w
              else explicit_target pt)
    else inl (Stats.ValueError
      (if bool_decide (n = 0)
       then lit "Provide --word (or BHSA_TARGET_WORD) unless both --suffix-target and --prefix-target are supplied."
       else if bool_decide (n < 2)
       then lit "The normalized target word must contain at least two letters."
       else lit "--split-index must fall between 1 and " ++ str_of_int (n - 1)
            ++ lit " for '" ++ default (lit "None") word ++ lit "'.")).
Proof.
  intros w n k Habsent. unfold Stats.resolve_targets.
  fold (explicit_target st) (explicit_target pt). fold w.
  subst n k. clearbody w.
  set (S := explicit_target st) in *. set (P := explicit_target pt) in *.
  clearbody S P.
  match goal with
  | |- match S with [] => ?X | _ :: _ => _ end = _ => transitivity X
  end.
  { destruct S, P; try done; by destruct Habsent. }
  destruct w as [|c w'] eqn:Hw.
  { simpl. done. }
  rewrite <- Hw. set (n := Z.of_nat (length w)).
  assert (0 < n) as Hn by (unfold n; rewrite Hw; simpl; lia).
  rewrite (bool_decide_eq_false_2 (n = 0)) by lia.
  destruct (Z.ltb_spec n 2) as [Hsmall|Hbig].
  { rewrite bool_decide_eq_false_2 by lia. by rewrite bool_decide_eq_true_2. }
  rewrite (bool_decide_eq_false_2 (n < 2)) by lia.
  assert (∀ k, 0 < k < n →
            match (match S with [] => take (Z.to_nat k) w | _ :: _ => S end) with
            | [] => inl (Stats.ValueError (lit "Both suffix and prefix must be non-empty after normalization."))
            | _ :: _ =>
              match (match P with [] => drop (Z.to_nat k) w | _ :: _ => P end) with
              | [] => inl (Stats.ValueError (lit "Both suffix and prefix must be non-empty after normalization."))
              | _ :: _ =>
                inr (match S with [] => take (Z.to_nat k) w | _ :: _ => S end,
                     match P with [] => drop (Z.to_nat k) w | _ :: _ => P end)
              end
            end
            = (inr (if decide (S = []) then take (Z.to_nat k) w else S,
                    if decide (P = []) then drop (Z.to_nat k) w else P)
               : Stats.exception + (list N * list N))) as Hsplit.
  { intros k Hk.
    assert (take (Z.to_nat k) w ≠ []) as Htake.
    { rewrite Hw. destruct (Z.to_nat k) eqn:Hk'; [lia|done]. }
    assert (drop (Z.to_nat k) w ≠ []) as Hdrop.
    { intros Hnil. apply (f_equal length) in Hnil. rewrite length_drop in Hnil.
      simpl in Hnil. lia. }
    destruct S as [|s S'], P as [|p P']; simpl;
      repeat match goal with
             | |- context [match ?x with [] => _ | _ :: _ => _ end] =>
               destruct x eqn:?; try done
             end; reflexivity. }
  destruct si as [k|]; simpl.
  - destruct (Z.ltb_spec 0 k), (Z.ltb_spec k n); simpl;
      try (rewrite bool_decide_eq_false_2 by lia; done).
    rewrite bool_decide_eq_true_2 by lia. apply Hsplit. lia.
  - pose proof (Z.div_mod n 2 ltac:(lia)) as Hdiv.
    pose proof (Z.mod_pos_bound n 2 ltac:(lia)) as Hmod.
    assert (1 `max` ((n - 1) `min` (if n `div` 2 =? 0 then 1 else n `div` 2))
            = n `div` 2) as ->.
    { destruct (Z.eqb_spec (n `div` 2) 0); lia. }
    rewrite bool_decide_eq_true_2 by lia. apply Hsplit. lia.
Qed.

Lemma take_drop_nonempty {A} (w : list A) (k : Z) :
  0 < k < Z.of_nat (length w) →
  take (Z.to_nat k) w ≠ [] ∧ drop (Z.to_nat k) w ≠ [].
Proof.
  intros Hk. split; intros Hnil; apply (f_equal length) in Hnil;
    rewrite ?length_take, ?length_drop in Hnil; simpl in Hnil; lia.
Qed.

(** X12. [resolve_targets] never returns an empty fragment, and the error of
    its last check, "Both suffix and prefix must be non-empty after
    normalization.", is never raised: the checks before it leave nothing
    for it to refuse. *)
Theorem resolve_targets_fragments (word st pt : option str) (si : option Z) :
  (∀ a b, Stats.resolve_targets word st pt si = inr (a, b) → a ≠ [] ∧ b ≠ [])
  ∧ Stats.resolve_targets word st pt si
    ≠ inl (Stats.ValueError
             (lit "Both suffix and prefix must be non-empty after normalization.")).
Proof.
  destruct (decide (explicit_target st = [] ∨ explicit_target pt = [])) as [Habsent|Hboth].
  - rewrite (resolve_targets_from_word word st pt si Habsent).
    set (w := Stats.normalize_for_match (default [] word)).
    set (n := Z.of_nat (length w)). set (k := default (n `div` 2) si).
    case_bool_decide as Hok.
    + split; [|done]. intros a b [= <- <-].
      destruct (take_drop_nonempty w k ltac:(tauto)).
      split; case_decide; done.
    + split; [done|]. repeat case_bool_decide; intros [= Heq]; done.
  - assert (explicit_target st ≠ [] ∧ explicit_target pt ≠ []) as [Hs Hp] by tauto.
    rewrite (resolve_targets_explicit word st pt si Hs Hp).
    split; [|done]. by intros a b [= <- <-].
Qed.

(** X13. With no explicit target, [resolve_targets] splits the normalised
    word: it succeeds exactly when the word has at least two letters and the
    split index [k], the midpoint [n // 2] when none is given, lies
    strictly inside the word; the midpoint always does, so the clamping in
    the source changes nothing; and the two fragments returned concatenate
    to the normalised word, the first having [k] letters. *)
Theorem resolve_targets_splits_word (word st pt : option str) (si : option Z) :
  explicit_target st = [] → explicit_target pt = [] →
  let w := Stats.normalize_for_match (default [] word) in
  let n := Z.of_nat (length w) in
  let k := default (n `div` 2) si in
  ((∃ a b, Stats.resolve_targets word st pt si = inr (a, b)) ↔ 2 ≤ n ∧ 0 < k < n)
  ∧ (si = None → 2 ≤ n → 0 < k < n)
  ∧ ∀ a b, Stats.resolve_targets word st pt si = inr (a, b) →
           a ++ b = w ∧ Z.of_nat (length a) = k.
Proof.
  intros Hs Hp w n k.
  rewrite (resolve_targets_from_word word st pt si (or_introl Hs)).
  fold w n k. rewrite Hs, Hp. simpl. split; [|split].
  - case_bool_decide as Hok; split; try done.
    + by eexists _, _.
    + by intros (a & b & [=]).
  - intros -> Hn. subst k. simpl.
    pose proof (Z.div_mod n 2 ltac:(lia)) as Hdiv.
    pose proof (Z.mod_pos_bound n 2 ltac:(lia)) as Hmod. lia.
  - intros a b. case_bool_decide as Hok; [|done]. intros [= <- <-].
    split; [apply take_drop|]. rewrite length_take. lia.
Qed.

End ResolveTargets.

Lemma replace_char_absent (old : N) (s : list N) :
  old ∉ s → replace_char old [] s = s.
Proof.
  unfold replace_char. induction s as [|ch s IH]; [done|].
  rewrite not_elem_of_cons. intros [Hne Hs].
  cbn [mbind list_bind]. rewrite decide_False by done.
  simpl. f_equal. by apply IH.
Qed.

Section NormalisedTexts.
Context `{Unicodedata} {Hlaws : UnicodedataLaws}.

Lemma strip_diacritics_fixed (text : list N) :
  Stats.normalize_for_match (Stats.strip_diacritics text) = Stats.strip_diacritics text
  ∧ Stats.strip_diacritics (Stats.strip_diacritics text) = Stats.strip_diacritics text.
Proof.
  assert (Stats.normalize_for_match (Stats.strip_diacritics text)
          = Stats.strip_diacritics text) as Hfixed.
  { unfold Stats.strip_diacritics. apply normalize_for_match_idemp. }
  split; [done|].
  unfold Stats.strip_diacritics at 1.
  rewrite replace_char_absent; [exact Hfixed|].
  exact (proj1 (strip_diacritics_clean text)).
Qed.

(** X14. Every word text that [load_words] returns is in normal form: both
    normalisers leave it unchanged, so that the texts compare with targets
    that [resolve_targets] has normalised; and [load_words] returns one word
    per word node. *)
Theorem load_words_normalised (api : Stats.Api) (word : Stats.WordInfo) :
  word ∈ Stats.load_words api →
  Stats.normalize_for_match (Stats.text word) = Stats.text word
  ∧ Stats.strip_diacritics (Stats.text word) = Stats.text word
  ∧ length (Stats.load_words api) = length (Stats.otype_word api).
Proof.
  intros Hword. unfold Stats.load_words in *. rewrite length_fmap.
  apply list_elem_of_fmap in Hword as (node & -> & _). simpl.
  destruct (strip_diacritics_fixed (default [] (Stats.g_word_utf8 api node))). done.
Qed.

End NormalisedTexts.

Section FinalLetters.
Context `{Unicodedata}.

Lemma normalize_for_match_no_final (text : list N) (ch : N) :
  ch ∈ final_letters → ch ∉ Stats.normalize_for_match text.
Proof.
  intros Hfinal. unfold Stats.normalize_for_match.
  destruct text; [apply not_elem_of_nil|].
  rewrite translate_final_forms, list_elem_of_fmap. intros (ch' & -> & _).
  by apply fold_final_not_final in Hfinal.
Qed.

Lemma explicit_target_no_final (target : option str) (ch : N) :
  ch ∈ final_letters → ch ∉ explicit_target target.
Proof.
  intros Hfinal. destruct target as [[|c t]|]; try apply not_elem_of_nil.
  by apply normalize_for_match_no_final.
Qed.

(** X15. The targets that [resolve_targets] returns contain none of the five
    final letters, whether they come from the explicit targets or from the
    word. *)
Theorem resolved_targets_no_final_letters (word st pt : option str)
    (si : option Z) (a b : str) (ch : N) :
  Stats.resolve_targets word st pt si = inr (a, b) →
  ch ∈ final_letters → (ch ∉ a) ∧ (ch ∉ b).
Proof.
  intros Hres Hfinal.
  pose proof (explicit_target_no_final st ch Hfinal) as Hs.
  pose proof (explicit_target_no_final pt ch Hfinal) as Hp.
  pose proof (normalize_for_match_no_final (default [] word) ch Hfinal) as Hw.
  destruct (decide (explicit_target st = [] ∨ explicit_target pt = [])) as [Habsent|Hboth].
  - rewrite (resolve_targets_from_word word st pt si Habsent) in Hres.
    case_bool_decide; [|done]. injection Hres as <- <-.
    split; case_decide; try done.
    + intros Hin. by apply subseteq_take in Hin.
    + intros Hin. by apply subseteq_drop in Hin.
  - assert (explicit_target st ≠ [] ∧ explicit_target pt ≠ []) as [Hs' Hp'] by tauto.
    rewrite (resolve_targets_explicit word st pt si Hs' Hp') in Hres.
    by injection Hres as <- <-.
Qed.

End FinalLetters.

(** * Statistics of an absent pattern *)

Lemma mul_zero_r (M : Z) (x y : float) :
  nonneg_below M (Prim2SF x) → Prim2SF y = S754_zero false →
  Prim2SF (x * y) = S754_zero false.
Proof.
  intros Hx Hy. rewrite FloatAxioms.mul_spec, Hy.
  destruct (Prim2SF x) as [[]| | |[] m e]; simpl in Hx; try done; by destruct Hx.
Qed.

Lemma mul_zero_l (M : Z) (x y : float) :
  Prim2SF x = S754_zero false → nonneg_below M (Prim2SF y) →
  Prim2SF (x * y) = S754_zero false.
Proof.
  intros Hx Hy. rewrite FloatAxioms.mul_spec, Hx.
  destruct (Prim2SF y) as [[]| | |[] m e]; simpl in Hy; try done; by destruct Hy.
Qed.

Lemma int_truediv_zero (n : Z) :
  0 < n < 2 ^ 53 → Prim2SF (int_truediv 0 n) = S754_zero false.
Proof.
  intros Hn. destruct (float_of_int_pos n Hn) as (m & e & Hfn & _).
  unfold int_truediv. rewrite FloatAxioms.div_spec, Hfn. reflexivity.
Qed.

Lemma int_truediv_nonneg (z n : Z) :
  0 ≤ z < 2 ^ 53 → 0 < n < 2 ^ 53 → nonneg_below 106 (Prim2SF (int_truediv z n)).
Proof.
  intros Hz Hn. destruct (float_of_int_pos n Hn) as (m & e & Hfn & He & _).
  unfold int_truediv. rewrite FloatAxioms.div_spec, Hfn.
  apply (SFdiv_nonneg 53 (-52)); [by apply float_of_int_nonneg|done|done|done].
Qed.

Lemma count_true_replicate_false (n : nat) : count_true (replicate n false) = 0.
Proof.
  unfold count_true. induction n as [|n IH]; [done|].
  simpl. by rewrite filter_cons_False.
Qed.

Section ZeroCounts.
Context `{Libm}.

(** X11. When no word carries the suffix, or no position starts the prefix,
    or the prefix target is empty, the engine on a non-empty scope of fewer
    than [2^53] words returns for any fuel, with the expected count 0.0,
    no observed adjacency, the ratio +infinity and the p-value 1.0. *)
Theorem zero_count_statistics (fuel : nat) (scope : str)
    (words : list Stats.WordInfo) (suffix_target prefix_target : str) :
  words ≠ [] →
  Z.of_nat (length words) < 2 ^ 53 →
  count_true (Stats._suffix_flags words suffix_target) = 0
  ∨ count_true (Stats._prefix_flags words prefix_target) = 0
  ∨ prefix_target = [] →
  ∃ stats,
    Stats.compute_pattern_stats fuel scope words suffix_target prefix_target = Some stats
    ∧ Stats.expected_adjacent stats = 0%float
    ∧ Stats.observed_adjacent stats = 0
    ∧ Stats.ratio stats = infinity
    ∧ Stats.p_value stats = 1%float.
Proof.
  intros Hne Hbound Hzero. unfold Stats.compute_pattern_stats.
  assert (0 < Z.of_nat (length words)) as Htotal by (destruct words; [done|simpl; lia]).
  rewrite (proj2 (Z.eqb_neq (Z.of_nat (length words)) 0)) by lia.
  rewrite !sum_bools_count.
  rewrite (observed_adjacent_count _ _ (length words)
             (length_suffix_flags _ _) (length_prefix_flags _ _)).
  set (suffix_flags := Stats._suffix_flags words suffix_target).
  set (prefix_flags := Stats._prefix_flags words prefix_target).
  assert (length suffix_flags = length words) as Hls by apply length_suffix_flags.
  assert (length prefix_flags = length words) as Hlp by apply length_prefix_flags.
  pose proof (count_true_bounds suffix_flags) as Hsc. rewrite Hls in Hsc.
  pose proof (count_true_bounds prefix_flags) as Hpc. rewrite Hlp in Hpc.
  pose proof (adjacent_pairs_bounds suffix_flags prefix_flags) as Hobs.
  pose proof (adjacent_pairs_le_suffix suffix_flags prefix_flags) as Hos.
  pose proof (adjacent_pairs_le_prefix suffix_flags prefix_flags) as Hop.
  rewrite Hls, Hlp in Hop. specialize (Hop eq_refl).
  assert (count_true suffix_flags = 0 ∨ count_true prefix_flags = 0) as Hcount.
  { destruct Hzero as [?|[?|Hnil]]; [by left|by right|right].
    unfold prefix_flags. rewrite Hnil. apply count_true_replicate_false. }
  assert (adjacent_pairs suffix_flags prefix_flags = 0) as -> by lia.
  set (total := Z.of_nat (length words)) in *.
  assert ((float_of_int (total - 1) * int_truediv (count_true suffix_flags) total
           * int_truediv (count_true prefix_flags) total)%float = 0%float) as ->.
  { apply FloatAxioms.Prim2SF_inj. change (Prim2SF 0) with (S754_zero false).
    destruct Hcount as [-> | ->].
    - apply (mul_zero_l 106); [|apply int_truediv_nonneg; lia].
      apply (mul_zero_r 53); [apply float_of_int_nonneg; lia|].
      apply int_truediv_zero; lia.
    - apply (mul_zero_r 160); [|apply int_truediv_zero; lia].
      rewrite FloatAxioms.mul_spec.
      apply (SFmul_nonneg 53 106);
        [apply float_of_int_nonneg; lia|apply int_truediv_nonneg; lia|done|done]. }
  by eexists.
Qed.

End ZeroCounts.

(** * Signs of the expected count and of the ratio *)

Lemma binary_round_aux_sign (mx ex : Z) (lx : location) :
  0 ≤ mx → nonneg_sf (binary_round_aux prec emax false mx ex lx).
Proof.
  intros Hm. unfold binary_round_aux.
  destruct (shr_fexp_digits mx ex lx Hm) as [H1 _].
  destruct (shr_fexp prec emax mx ex lx) as [mrs1 e1]. simpl in H1.
  destruct (round_nearest_even_digits (shr_m mrs1) (loc_of_shr_record mrs1) H1)
    as [H2 _].
  set (m2 := round_nearest_even (shr_m mrs1) (loc_of_shr_record mrs1)) in *.
  destruct (shr_fexp_digits m2 e1 loc_Exact H2) as [H3 _].
  destruct (shr_fexp prec emax m2 e1 loc_Exact) as [mrs3 e3]. simpl in H3.
  destruct (shr_m mrs3) as [|m|m]; simpl; [done| |lia].
  by destruct (e3 <=? emax - prec).
Qed.

Lemma SFdiv_sign (M : Z) (x : spec_float) (m2 : positive) (e2 : Z) :
  nonneg_below M x → nonneg_sf (SFdiv prec emax x (S754_finite false m2 e2)).
Proof.
  intros Hx.
  destruct x as [[]| | |[] m1 e1]; simpl in Hx; try done; try (by destruct Hx).
  cbn [SFdiv xorb].
  destruct (SFdiv_core_binary prec emax (Zpos m1) e1 (Zpos m2) e2)
    as [[mz ez] lz] eqn:Hcore.
  unfold SFdiv_core_binary in Hcore.
  set (e' := Z.min (fexp prec emax (Zdigits2 (Zpos m1) + e1 - (Zdigits2 (Zpos m2) + e2)))
                   (e1 - e2)) in *.
  set (m' := match e1 - e2 - e' with
             | 0 => Zpos m1
             | Zpos _ => Z.shiftl (Zpos m1) (e1 - e2 - e')
             | Zneg _ => 0
             end) in *.
  assert (0 ≤ m') as Hm'.
  { unfold m'. destruct (e1 - e2 - e') as [|s|s] eqn:Hse; try lia.
    rewrite Z.shiftl_mul_pow2 by lia.
    pose proof (Z.pow_pos_nonneg 2 (Zpos s) ltac:(lia) ltac:(lia)). lia. }
  pose proof (Z_div_mod m' (Zpos m2) ltac:(lia)) as Hdiv.
  destruct (Z.div_eucl m' (Zpos m2)) as [q r]. injection Hcore as <- <- <-.
  destruct Hdiv as [Hq Hr].
  apply binary_round_aux_sign. nia.
Qed.

Lemma nonneg_sf_leb (x : float) : nonneg_sf (Prim2SF x) → (0 <=? x)%float = true.
Proof.
  intros Hx. rewrite FloatAxioms.leb_spec.
  change (Prim2SF 0) with (S754_zero false).
  by destruct (Prim2SF x) as [[]|[]| |[] m e].
Qed.

Lemma nonneg_below_sf (M : Z) (x : spec_float) : nonneg_below M x → nonneg_sf x.
Proof. destruct x as [| | |s m e]; simpl; try done. by intros [? _]. Qed.

Section SignsOfStatistics.
Context `{Libm}.

(** X10. On a non-empty scope of fewer than [2^53] words the expected
    count, the ratio and the two percentages of a returned record are never
    negative and never a NaN ([0 <= x] holds of each), and the ratio is
    +infinity when the expected count is zero. *)
Theorem expected_and_ratio_nonnegative (fuel : nat) (scope : str)
    (words : list Stats.WordInfo) (suffix_target prefix_target : str)
    (stats : Stats.PatternStats) :
  words ≠ [] →
  Z.of_nat (length words) < 2 ^ 53 →
  Stats.compute_pattern_stats fuel scope words suffix_target prefix_target = Some stats →
  (0 <=? Stats.expected_adjacent stats)%float = true
  ∧ (0 <=? Stats.ratio stats)%float = true
  ∧ (0 <=? Stats.suffix_percent stats)%float = true
  ∧ (0 <=? Stats.prefix_percent stats)%float = true
  ∧ ((Stats.expected_adjacent stats =? 0)%float = true → Stats.ratio stats = infinity).
Proof.
  intros Hne Hbound. unfold Stats.compute_pattern_stats.
  assert (0 < Z.of_nat (length words)) as Htotal by (destruct words; [done|simpl; lia]).
  rewrite (proj2 (Z.eqb_neq (Z.of_nat (length words)) 0)) by lia.
  rewrite !sum_bools_count.
  rewrite (observed_adjacent_count _ _ (length words)
             (length_suffix_flags _ _) (length_prefix_flags _ _)).
  set (suffix_flags := Stats._suffix_flags words suffix_target).
  set (prefix_flags := Stats._prefix_flags words prefix_target).
  assert (length suffix_flags = length words) as Hls by apply length_suffix_flags.
  assert (length prefix_flags = length words) as Hlp by apply length_prefix_flags.
  pose proof (count_true_bounds suffix_flags) as Hsc. rewrite Hls in Hsc.
  pose proof (count_true_bounds prefix_flags) as Hpc. rewrite Hlp in Hpc.
  pose proof (adjacent_pairs_bounds suffix_flags prefix_flags) as Hobs.
  rewrite Hls in Hobs.
  set (expected := (float_of_int (Z.of_nat (length words) - 1)
                    * int_truediv (count_true suffix_flags) (Z.of_nat (length words))
                    * int_truediv (count_true prefix_flags) (Z.of_nat (length words)))%float).
  assert (nonneg_below 267 (Prim2SF expected)) as Hexpected.
  { apply expected_adjacent_nonneg; lia. }
  assert (∀ count, 0 ≤ count ≤ Z.of_nat (length words) →
            (0 <=? int_truediv count (Z.of_nat (length words)) * 100)%float = true)
    as Hpercent.
  { intros count Hcount. eapply nonneg_sf_leb, nonneg_below_sf.
    rewrite FloatAxioms.mul_spec.
    apply (SFmul_nonneg 106 7); [apply int_truediv_nonneg; lia| |done|done].
    by split. }
  destruct (Stats._poisson_tail _ _ _) as [p|]; [|done]. intros [= <-]. simpl.
  split; [by eapply nonneg_sf_leb, nonneg_below_sf|].
  split; [|split; [by apply Hpercent|split; [by apply Hpercent|]]].
  2: { by destruct (expected =? 0)%float. }
  destruct (expected =? 0)%float eqn:Hzero; [done|].
  apply nonneg_sf_leb. rewrite FloatAxioms.div_spec.
  rewrite FloatAxioms.eqb_spec in Hzero. change (Prim2SF 0) with (S754_zero false) in Hzero.
  destruct (Prim2SF expected) as [[]| | |[] m e] eqn:Hsf; simpl in Hexpected, Hzero;
    try done; try (by destruct Hexpected).
  apply (SFdiv_sign 53). apply float_of_int_nonneg. lia.
Qed.

End SignsOfStatistics.

(** * The choice of the module *)

Lemma str_le_refl (s : list N) : str_le s s = true.
Proof.
  induction s as [|c s IH]; [done|]. simpl.
  by rewrite N.eqb_refl, IH, orb_true_r.
Qed.

Lemma str_le_total (s t : list N) : str_le s t = true ∨ str_le t s = true.
Proof.
  revert t. induction s as [|c s IH]; intros [|d t]; simpl; try by auto.
  destruct (N.ltb_spec c d), (N.ltb_spec d c), (N.eqb_spec c d), (N.eqb_spec d c);
    simpl; try lia; auto.
Qed.

Lemma str_le_trans (s t u : list N) :
  str_le s t = true → str_le t u = true → str_le s u = true.
Proof.
  revert t u. induction s as [|c s IH]; intros [|d t] [|e u]; simpl; try done.
  destruct (N.ltb_spec c d), (N.ltb_spec d e), (N.ltb_spec c e),
    (N.eqb_spec c d), (N.eqb_spec d e), (N.eqb_spec c e); simpl; try lia; try done.
  apply IH.
Qed.

Lemma str_le_antisym (s t : list N) :
  str_le s t = true → str_le t s = true → s = t.
Proof.
  revert t. induction s as [|c s IH]; intros [|d t]; simpl; try done.
  destruct (N.ltb_spec c d), (N.ltb_spec d c), (N.eqb_spec c d), (N.eqb_spec d c);
    simpl; try lia; try done.
  intros Hst Hts. subst. f_equal. by apply IH.
Qed.

#[local] Instance str_le_Total : Total (λ s t : list N, Is_true (str_le s t)).
Proof.
  intros s t. destruct (str_le_total s t) as [Hle|Hle]; [left|right];
    by apply Is_true_true.
Qed.

#[local] Instance str_le_Transitive : Transitive (λ s t : list N, Is_true (str_le s t)).
Proof.
  intros s t u Hst Htu. apply Is_true_true. apply Is_true_true in Hst, Htu.
  by apply (str_le_trans s t u).
Qed.

#[local] Instance str_le_Reflexive : Reflexive (λ s t : list N, Is_true (str_le s t)).
Proof. intros s. apply Is_true_true, str_le_refl. Qed.

Lemma elem_of_sorted (names : list (list N)) (name : list N) :
  name ∈ sorted names ↔ name ∈ names.
Proof. unfold sorted. by rewrite merge_sort_Permutation. Qed.

Lemma StronglySorted_last {A} (R : relation A) `{!Reflexive R} (l : list A) (x : A) :
  StronglySorted R l → last l = Some x → ∀ y, y ∈ l → R y x.
Proof.
  induction 1 as [|z l Hl IH Hz]; [done|]. intros Hlast y Hy.
  destruct l as [|z' l'].
  - simpl in Hlast. injection Hlast as <-. by apply list_elem_of_singleton in Hy as ->.
  - change (last (z :: z' :: l')) with (last (z' :: l')) in Hlast.
    apply elem_of_cons in Hy as [->|Hy]; [|by apply IH].
    rewrite Forall_forall in Hz. apply Hz. by apply last_Some_elem_of.
Qed.

Lemma sorted_last (names : list (list N)) (name : list N) :
  last (sorted names) = Some name →
  name ∈ names ∧ ∀ other, other ∈ names → str_le other name = true.
Proof.
  intros Hlast. split.
  - apply elem_of_sorted. by apply last_Some_elem_of.
  - intros other Hother. apply Is_true_true.
    apply (StronglySorted_last (λ s t, Is_true (str_le s t)) (sorted names) name).
    + apply StronglySorted_merge_sort; apply _.
    + done.
    + by apply elem_of_sorted.
Qed.

Lemma elem_of_available_modules (entries : list (list N * bool)) (name : list N) :
  name ∈ Search.available_modules entries
  ↔ (name, true) ∈ entries ∧ startswith name (lit ".") = false.
Proof.
  unfold Search.available_modules. rewrite elem_of_sorted, list_elem_of_bind. split.
  - intros ([name' is_dir] & Hname & Hentry). simpl in Hname.
    destruct is_dir; simpl in Hname; [|by apply elem_of_nil in Hname].
    destruct (startswith name' _) eqn:Hdot; simpl in Hname;
      [by apply elem_of_nil in Hname|].
    by apply list_elem_of_singleton in Hname as ->.
  - intros [Hentry Hdot]. exists (name, true). cbn [fst snd]. rewrite Hdot.
    split; [by apply list_elem_of_singleton|done].
Qed.

(** X16. [choose_module] on the modules that [available_modules] lists:
    it raises exactly when the data directory has no visible directory; a
    non-empty preferred name that is a visible directory is returned as it
    is; and whatever is returned is a visible directory, the preferred one
    or else the greatest name in the order of the code points. *)
Theorem choose_module_available (data_dir : str) (entries : list (str * bool))
    (preferred : option str) :
  ((∃ e, Search.choose_module data_dir (Search.available_modules entries) preferred = inl e)
   ↔ ∀ name, ¬ visible_module entries name)
  ∧ (∀ name, preferred = Some name → name ≠ [] → visible_module entries name →
       Search.choose_module data_dir (Search.available_modules entries) preferred
       = inr name)
  ∧ (∀ name,
       Search.choose_module data_dir (Search.available_modules entries) preferred
       = inr name →
       visible_module entries name
       ∧ (preferred = Some name
          ∨ ∀ other, visible_module entries other → str_le other name = true)).
Proof.
  set (visible := visible_module entries).
  assert (∀ name, name ∈ Search.available_modules entries ↔ visible name) as Hmem.
  { intros name. apply elem_of_available_modules. }
  unfold Search.choose_module.
  destruct (Search.available_modules entries) as [|m modules] eqn:Hmodules.
  { split; [|split].
    - split; [|by eexists]. intros _ name Hname. apply Hmem in Hname.
      by apply elem_of_nil in Hname.
    - intros name _ _ Hname. apply Hmem in Hname. by apply elem_of_nil in Hname.
    - by intros name. }
  rewrite <- Hmodules in *.
  assert (∃ greatest, last (Search.available_modules entries) = Some greatest)
    as [greatest Hlast].
  { apply last_is_Some. by rewrite Hmodules. }
  rewrite Hlast. simpl.
  assert (visible greatest ∧ ∀ other, visible other → str_le other greatest = true)
    as [Hvisible Hgreatest].
  { unfold Search.available_modules in Hlast. apply sorted_last in Hlast as [Hin Hmax].
    split.
    - apply Hmem. unfold Search.available_modules. by rewrite elem_of_sorted.
    - intros other Hother. apply Hmax. apply Hmem in Hother.
      unfold Search.available_modules in Hother. by rewrite elem_of_sorted in Hother. }
  split; [|split].
  - split.
    + intros [e He]. destruct preferred as [[|c t]|]; try done. by case_bool_decide.
    + intros Hnone. by destruct (Hnone greatest).
  - intros name -> Hne Hname. destruct name as [|c t]; [done|].
    by rewrite bool_decide_eq_true_2 by (by apply Hmem).
  - intros name Hname. destruct preferred as [[|c t]|].
    + injection Hname as <-. auto.
    + case_bool_decide as Hin; injection Hname as <-; [|auto].
      split; [by apply Hmem|by left].
    + injection Hname as <-. auto.
Qed.

(** * The context of a match *)

Lemma lstrip_head (s : list N) (ch : N) :
  head (lstrip s) = Some ch → isspace ch = false.
Proof.
  induction s as [|c s IH]; [done|]. cbn [lstrip].
  destruct (isspace c) eqn:Hc; [done|]. by intros [= <-].
Qed.

Lemma lstrip_last (s : list N) (ch : N) :
  last (lstrip s) = Some ch → last s = Some ch.
Proof.
  induction s as [|c s IH]; [done|]. cbn [lstrip].
  destruct (isspace c); [|done]. intros Hlast.
  apply IH in Hlast. destruct s; [done|]. done.
Qed.

Lemma strip_ends (s : list N) (ch : N) :
  head (strip s) = Some ch ∨ last (strip s) = Some ch → isspace ch = false.
Proof.
  unfold strip. rewrite head_reverse, last_reverse. intros [Hlast|Hhead].
  - apply lstrip_last in Hlast. rewrite last_reverse in Hlast.
    by apply lstrip_head in Hlast.
  - by apply lstrip_head in Hhead.
Qed.

Lemma window_split {A} (before : list A) (node : A) (span tail : list A) :
  drop (length before - 3)
       (take ((length before + 1 + length span + 3) `min`
              length (before ++ node :: span ++ tail))
             (before ++ node :: span ++ tail))
  = drop (length before - 3) before ++ node :: span ++ take 3 tail.
Proof.
  assert (∀ (l : list A) n, take (n `min` length l) l = take n l) as Hmin.
  { intros l n. destruct (Nat.le_ge_cases n (length l)).
    - by rewrite Nat.min_l.
    - rewrite Nat.min_r by done. by rewrite !take_ge by lia. }
  rewrite Hmin.
  replace (length before + 1 + length span + 3)%nat
    with (length before + S (length span + 3))%nat by lia.
  rewrite take_app_add. cbn [take]. rewrite take_app_add.
  by rewrite drop_app_le by lia.
Qed.

Section ContextExtras.
Context `{Unicodedata}.

(** X17. The context of every reported match shows the match: it is built
    from a run of consecutive tokens of the corpus made of the first span,
    the second span, the three tokens before them and the three tokens
    after them, or as many as the corpus has there; and it neither begins
    nor ends with white space. *)
Theorem match_context_window (first_word_suffix second_word_prefix : str)
    (api : Search.Api) (matches : list Search.InterWordMatch)
    (m : Search.InterWordMatch) :
  Search.collect_matches first_word_suffix second_word_prefix api = Some matches →
  m ∈ matches →
  ∃ (i : nat) (before after : list Z),
    let shown :=
      before ++ Search.nodes (Search.first m) ++ Search.nodes (Search.second m) ++ after in
    take (length shown) (drop (i - length before) (Search.otype_word api)) = shown
    ∧ length before = (i `min` 3)%nat
    ∧ length after
      = (3 `min` (length (Search.otype_word api)
                  - (i + 1 + length (Search.nodes (Search.second m)))))%nat
    ∧ Search.context m = context_of api shown
    ∧ ∀ ch, head (Search.context m) = Some ch ∨ last (Search.context m) = Some ch →
            isspace ch = false.
Proof.
  intros Hrun Hm.
  destruct (collect_matches_records first_word_suffix second_word_prefix api)
    as (matches' & Hrun' & Hrecords).
  rewrite Hrun in Hrun'. injection Hrun' as <-.
  destruct (Forall2_elem_of_r _ _ _ _ Hrecords Hm) as (i & _ & Hrecord).
  destruct Hrecord as (node & span & Hnode & Hspan & Hfirst & Hsecond & Hcontext).
  pose proof (second_span_nodes_length_bound _ _ _ _ Hspan) as Hlen.
  destruct (second_span_nodes_cover _ _ _ _ Hspan) as ([tail Htail] & _).
  destruct span as [|node' span]; [simpl in Hlen; lia|].
  unfold Search.build_span in Hfirst, Hsecond. simpl in Hfirst, Hsecond.
  injection Hfirst as Hfirst. injection Hsecond as Hsecond.
  rewrite <- Hfirst, <- Hsecond. cbn [Search.nodes].
  pose proof (take_drop_middle _ _ _ Hnode) as Hcorpus. rewrite Htail in Hcorpus.
  set (before := take i (Search.otype_word api)) in *.
  assert (length before = i) as Hbefore.
  { unfold before. rewrite length_take. apply lookup_lt_Some in Hnode. lia. }
  assert (context_window api i (length (node' :: span))
          = drop (i - 3) before ++ node :: (node' :: span) ++ take 3 tail) as Hwindow.
  { unfold context_window, Search.slice.
    replace (Z.to_nat (Z.max (Z.of_nat i - 3) 0)) with (length before - 3)%nat by lia.
    replace (Z.to_nat (Z.min (Z.of_nat i + 1 + Z.of_nat (length (node' :: span)) + 3)
                             (Z.of_nat (length (Search.otype_word api)))))
      with ((length before + 1 + length (node' :: span) + 3)
            `min` length (Search.otype_word api))%nat by lia.
    rewrite <- Hcorpus at 1 2. rewrite window_split. by rewrite Hbefore. }
  exists i, (drop (i - 3) before), (take 3 tail). cbv zeta.
  assert (length (drop (i - 3) before) = (i `min` 3)%nat) as Hshown.
  { rewrite length_drop. lia. }
  split; [|split; [done|split; [|split]]].
  - rewrite Hshown. replace (i - i `min` 3)%nat with (i - 3)%nat by lia.
    set (shown := drop (i - 3) before ++ [node] ++ (node' :: span) ++ take 3 tail).
    assert (drop (i - 3) (Search.otype_word api) = shown ++ drop 3 tail) as ->.
    { rewrite <- Hcorpus at 1. rewrite drop_app_le by lia.
      rewrite <- (take_drop 3 tail) at 1. unfold shown. by rewrite <- !app_assoc. }
    apply take_app_length.
  - rewrite length_take. apply (f_equal length) in Hcorpus.
    rewrite length_app in Hcorpus. simpl in Hcorpus. rewrite length_app in Hcorpus.
    cbn [length]. lia.
  - by rewrite Hcontext, Hwindow.
  - intros ch. rewrite Hcontext. apply strip_ends.
Qed.

End ContextExtras.

(** * The empty suffix target *)

Lemma count_true_replicate_true (n : nat) : count_true (replicate n true) = Z.of_nat n.
Proof.
  unfold count_true. f_equal. induction n as [|n IH]; [done|].
  cbn [replicate]. rewrite filter_cons_True by done. cbn [length]. by rewrite IH.
Qed.

Lemma adjacent_pairs_all_suffix (prefix_flags : list bool) :
  adjacent_pairs (replicate (length prefix_flags) true) prefix_flags
  = count_true (drop 1 prefix_flags).
Proof.
  rewrite count_true_indices. unfold adjacent_pairs.
  rewrite length_replicate, length_drop. do 2 f_equal.
  apply filter_ext_in. intros i Hi. apply elem_of_seq in Hi.
  rewrite lookup_replicate_2 by lia. rewrite lookup_drop. simpl. tauto.
Qed.

Section EmptySuffix.
Context `{Unicodedata} `{Libm}.

(** X18. An empty suffix target accepts every word, unlike the empty prefix
    target, which accepts none: any record that the statistics engine
    returns for it counts all [N] words as suffix-bearing and has for its
    observed adjacencies the prefix flags set at the positions [1 .. N-1];
    the scanner, which always returns, reports one match for every token,
    the last one apart, that the matcher succeeds right after. *)
Theorem empty_suffix_target_accepts_all (fuel : nat) (scope : str)
    (words : list Stats.WordInfo) (prefix_target : str) (stats : Stats.PatternStats)
    (api : Search.Api) (second_word_prefix : str) :
  Stats.compute_pattern_stats fuel scope words [] prefix_target = Some stats →
  Stats.suffix_count stats = Z.of_nat (length words)
  ∧ Stats.observed_adjacent stats
    = count_true (drop 1 (Stats._prefix_flags words prefix_target))
  ∧ ∃ matches,
      Search.collect_matches [] second_word_prefix api = Some matches
      ∧ length matches
        = length (filter (λ i, is_Some (Search.second_span_nodes api (S i)
                                          (Search.normalize_for_match second_word_prefix)))
                         (seq 0 (length (Search.otype_word api) - 1))).
Proof.
  intros Hstats. split; [|split].
  - apply compute_pattern_stats_counts in Hstats as (_ & -> & _ & _).
    cbn [Stats._suffix_flags]. apply count_true_replicate_true.
  - apply compute_pattern_stats_counts in Hstats as (_ & _ & _ & ->).
    cbn [Stats._suffix_flags].
    rewrite <- (length_prefix_flags words prefix_target).
    apply adjacent_pairs_all_suffix.
  - destruct (collect_matches_records [] second_word_prefix api)
      as (matches & Hrun & Hrecords).
    exists matches. split; [done|]. apply Forall2_length in Hrecords.
    rewrite <- Hrecords. f_equal. apply filter_ext_in. intros i Hi.
    apply elem_of_seq in Hi. unfold begins_match.
    destruct (lookup_lt_is_Some_2 (Search.otype_word api) i ltac:(lia)) as [node ->].
    change (Search.normalize_for_match []) with (@nil N).
    rewrite bool_decide_eq_true_2 by apply suffix_nil. simpl.
    by rewrite bool_decide_eq_true.
Qed.

End EmptySuffix.

(** * The summary by book *)

Lemma split_loop_nonempty (word s : list N) :
  word ≠ [] ∨ (∃ ch, ch ∈ s ∧ isspace ch = false) → split_loop word s ≠ [].
Proof.
  revert word. induction s as [|c s IH]; intros word Hsome.
  - destruct Hsome as [Hword|(ch & Hin & _)]; [by destruct word|].
    by apply elem_of_nil in Hin.
  - cbn [split_loop]. destruct (isspace c) eqn:Hc.
    + destruct word as [|w word]; [|done]. apply IH.
      destruct Hsome as [?|(ch & Hin & Hch)]; [done|]. right.
      apply elem_of_cons in Hin as [->|Hin]; [congruence|eauto].
    + apply IH. left. by destruct word.
Qed.

Lemma split_loop_word (word book rest : list N) :
  word ++ book ≠ [] → Forall (λ ch, isspace ch = false) book →
  head (split_loop word (book ++ 0x20%N :: rest)) = Some (word ++ book).
Proof.
  revert word. induction book as [|c book IH]; intros word Hne Hbook.
  - rewrite app_nil_r in *. simpl. by destruct word.
  - apply Forall_cons in Hbook as [Hc Hbook]. cbn [app split_loop]. rewrite Hc.
    rewrite IH; [by rewrite <- app_assoc| |done].
    rewrite <- app_assoc. by destruct word.
Qed.

Lemma summary_key_format_reference (book : list N) (chapter verse : Z) (m : Search.InterWordMatch) :
  Search.reference (Search.first m) = Search.format_reference (Some (book, chapter, verse)) →
  is_Some (summary_key m)
  ∧ (book ≠ [] → Forall (λ ch, isspace ch = false) book → summary_key m = Some book).
Proof.
  intros Href. unfold summary_key, split_whitespace. rewrite Href.
  cbn [Search.format_reference]. split.
  - destruct (split_loop [] _) eqn:Hsplit; [|by eexists].
    apply split_loop_nonempty in Hsplit; [done|]. right. exists 0x3a%N. split; [|done].
    rewrite !elem_of_app. right. right. right. left. by apply list_elem_of_singleton.
  - intros Hne Hbook. change (lit " ") with [0x20%N]. cbn [app].
    by rewrite (split_loop_word [] book).
Qed.

Lemma summary_key_unknown (m : Search.InterWordMatch) :
  Search.reference (Search.first m) = Search.format_reference None →
  summary_key m = Some (lit "Unknown").
Proof. intros Href. unfold summary_key. by rewrite Href. Qed.

Lemma summary_loop_counts (matches : list Search.InterWordMatch) (summary : gmap (list N) Z) :
  Forall (λ m, is_Some (summary_key m)) matches →
  ∃ summary',
    Search.summary_loop matches summary = Some summary'
    ∧ ∀ key, default 0 (summary' !! key)
             = default 0 (summary !! key)
               + Z.of_nat (length (filter (λ m, summary_key m = Some key) matches)).
Proof.
  revert summary. induction matches as [|m matches IH]; intros summary Hkeys.
  { exists summary. split; [done|]. intros key. simpl. lia. }
  apply Forall_cons in Hkeys as [[book Hbook] Hkeys].
  cbn [Search.summary_loop]. unfold summary_key in Hbook. rewrite Hbook. simpl.
  destruct (IH (<[book := default 0 (summary !! book) + 1]> summary) Hkeys)
    as (summary' & Hrun & Hcounts).
  exists summary'. split; [done|]. intros key. rewrite Hcounts.
  destruct (decide (key = book)) as [->|Hne].
  - rewrite lookup_insert_eq. rewrite filter_cons_True by done. simpl. lia.
  - rewrite lookup_insert_ne by done.
    rewrite filter_cons_False; [done|]. unfold summary_key. rewrite Hbook. congruence.
Qed.

Lemma summary_loop_positive (matches : list Search.InterWordMatch)
    (summary summary' : gmap (list N) Z) :
  map_Forall (λ _ n, 0 < n) summary →
  Search.summary_loop matches summary = Some summary' →
  map_Forall (λ _ n, 0 < n) summary'.
Proof.
  revert summary. induction matches as [|m matches IH]; intros summary Hpos Hrun.
  { by injection Hrun as <-. }
  cbn [Search.summary_loop] in Hrun.
  destruct (head _) as [book|]; [|done]. simpl in Hrun.
  apply (IH _) in Hrun; [done|].
  apply map_Forall_insert_2; [|done].
  destruct (summary !! book) as [n|] eqn:Hn; simpl; [|lia].
  apply Hpos in Hn. lia.
Qed.

Section SummaryExtras.
Context `{Unicodedata}.

(** X19. On the matches that the scanner returns, [summarize_by_book] raises
    nothing: the reference of every match has a first word. Its table
    holds, for each key, the number of matches counted under that key, and
    no key with a zero count; it prints nothing exactly when there is no
    match; and the key of a match is the book of its first token, when the
    book name is not empty and has no white space, and "Unknown" when the
    token has no section. *)
Theorem summarize_by_book_counts (first_word_suffix second_word_prefix : str)
    (api : Search.Api) (matches : list Search.InterWordMatch) :
  Search.collect_matches first_word_suffix second_word_prefix api = Some matches →
  ∃ summary lines,
    Search.summary_loop matches ∅ = Some summary
    ∧ Search.summarize_by_book matches = Some lines
    ∧ (∀ key n, summary !! key = Some n
                ↔ 0 < n
                  ∧ n = Z.of_nat (length (filter (λ m, summary_key m = Some key) matches)))
    ∧ (lines = [] ↔ matches = [])
    ∧ (∀ m, m ∈ matches →
         ∃ i node,
           Search.otype_word api !! i = Some node
           ∧ Search.nodes (Search.first m) = [node]
           ∧ match Search.sectionFromNode api node with
             | None => summary_key m = Some (lit "Unknown")
             | Some (book, _, _) =>
               book ≠ [] → Forall (λ ch, isspace ch = false) book →
               summary_key m = Some book
             end).
Proof.
  intros Hrun.
  destruct (collect_matches_records first_word_suffix second_word_prefix api)
    as (matches' & Hrun' & Hrecords).
  rewrite Hrun in Hrun'. injection Hrun' as <-.
  assert (∀ m, m ∈ matches →
            ∃ i node,
              Search.otype_word api !! i = Some node
              ∧ Search.nodes (Search.first m) = [node]
              ∧ Search.reference (Search.first m)
                = Search.format_reference (Search.sectionFromNode api node)) as Hrefs.
  { intros m Hm.
    destruct (Forall2_elem_of_r _ _ _ _ Hrecords Hm) as (i & _ & Hrecord).
    destruct Hrecord as (node & span & Hnode & _ & Hfirst & _).
    exists i, node. unfold Search.build_span in Hfirst. simpl in Hfirst.
    injection Hfirst as <-. done. }
  assert (Forall (λ m, is_Some (summary_key m)) matches) as Hkeys.
  { apply Forall_forall. intros m Hm.
    destruct (Hrefs m Hm) as (i & node & _ & _ & Href).
    destruct (Search.sectionFromNode api node) as [[[book chapter] verse]|].
    - by apply (summary_key_format_reference book chapter verse).
    - rewrite (summary_key_unknown m Href). by eexists. }
  destruct (summary_loop_counts matches ∅ Hkeys) as (summary & Hloop & Hcounts).
  pose proof (summary_loop_positive matches ∅ summary (map_Forall_empty _) Hloop) as Hpos.
  assert (∀ key n, summary !! key = Some n
                   ↔ 0 < n
                     ∧ n = Z.of_nat (length (filter (λ m, summary_key m = Some key) matches)))
    as Hsummary.
  { intros key n. specialize (Hcounts key). rewrite lookup_empty in Hcounts.
    simpl in Hcounts. split.
    - intros Hn. split; [by apply Hpos in Hn|]. rewrite Hn in Hcounts. simpl in Hcounts. lia.
    - intros [Hn ->]. destruct (summary !! key) as [n'|] eqn:Hkey; simpl in Hcounts.
      + f_equal. lia.
      + lia. }
  assert (∀ m, m ∈ matches →
            ∃ i node,
              Search.otype_word api !! i = Some node
              ∧ Search.nodes (Search.first m) = [node]
              ∧ match Search.sectionFromNode api node with
                | None => summary_key m = Some (lit "Unknown")
                | Some (book, _, _) =>
                  book ≠ [] → Forall (λ ch, isspace ch = false) book →
                  summary_key m = Some book
                end) as Hbooks.
  { intros m Hm. destruct (Hrefs m Hm) as (i & node & Hnode & Hfirst & Href).
    exists i, node. split; [done|split; [done|]].
    destruct (Search.sectionFromNode api node) as [[[book chapter] verse]|].
    - by apply (summary_key_format_reference book chapter verse).
    - by apply summary_key_unknown. }
  unfold Search.summarize_by_book. rewrite Hloop. simpl.
  destruct (decide (summary = ∅)) as [Hempty|Hfull].
  - exists summary, []. split; [done|split; [done|split; [done|split; [|done]]]].
    split; [|done]. intros _. destruct matches as [|m matches]; [done|].
    apply Forall_cons in Hkeys as [[key Hkey] _].
    specialize (Hcounts key). rewrite Hempty, !lookup_empty in Hcounts.
    rewrite filter_cons_True in Hcounts by done. simpl in Hcounts. lia.
  - eexists summary, _. split; [done|split; [done|split; [done|split; [|done]]]].
    split; [done|]. intros ->. simpl in Hloop. by injection Hloop as <-.
Qed.

End SummaryExtras.

(** * The further properties at work on the examples *)

Lemma matcher_succeeds_iff_covered_witness :
  ∃ run,
    run `prefix_of` drop 1 (Search.otype_word Example.api)
    ∧ Forall (λ text, text ≠ []) (norm_texts (H := hebrew_unicodedata) Example.api run)
    ∧ Example.prefix_target
      `prefix_of` mjoin (norm_texts (H := hebrew_unicodedata) Example.api run).
Proof.
  apply (proj1 (proj1 (matcher_succeeds_iff_covered (H := hebrew_unicodedata)
                         Example.api Example.words 1 Example.prefix_target
                         ltac:(done)))).
  exists [2]. vm_compute. reflexivity.
Defined.

Lemma second_span_nodes_length_witness :
  (1 ≤ length [2%Z] ≤ length Example.prefix_target)%nat.
Proof.
  apply (second_span_nodes_length (H := hebrew_unicodedata) Example.api 1
           Example.prefix_target [2]).
  vm_compute. reflexivity.
Defined.

Lemma collect_matches_sound_witness :
  ∃ (i : nat) (node node' : Z) (span : list Z),
    Search.otype_word Example.api !! i = Some node
    ∧ Search.nodes (Search.first Example.found) = [node]
    ∧ Search.nodes (Search.second Example.found) = node' :: span.
Proof.
  destruct (collect_matches_sound (H := hebrew_unicodedata)
              Example.suffix_target Example.prefix_target Example.api
              [Example.found] Example.found)
    as (i & node & node' & span & Hnode & Hfirst & Hsecond & _).
  - vm_compute. reflexivity.
  - constructor.
  - by exists i, node, node', span.
Defined.

Lemma observed_adjacent_is_match_count_witness :
  ∃ stats,
    Stats.compute_pattern_stats (H := series_libm) 100 (lit "Samuel_II") Example.words
      (Search.normalize_for_match (H := hebrew_unicodedata) Example.suffix_target)
      (Search.normalize_for_match (H := hebrew_unicodedata) Example.prefix_target)
    = Some stats
    ∧ Stats.observed_adjacent stats = Z.of_nat (length [Example.found]).
Proof.
  assert (∃ stats,
            Stats.compute_pattern_stats (H := series_libm) 100 (lit "Samuel_II")
              Example.words
              (Search.normalize_for_match (H := hebrew_unicodedata) Example.suffix_target)
              (Search.normalize_for_match (H := hebrew_unicodedata) Example.prefix_target)
            = Some stats) as [stats Hstats].
  { vm_compute. eexists. reflexivity. }
  exists stats. split; [exact Hstats|].
  apply (@observed_adjacent_is_match_count hebrew_unicodedata series_libm
           Example.api Example.words Example.suffix_target Example.prefix_target
           [Example.found] 100%nat (lit "Samuel_II") stats).
  - vm_compute. reflexivity.
  - vm_compute. reflexivity.
  - exact Hstats.
Defined.

Lemma pattern_stats_counts_consistent_witness :
  ∃ stats,
    Stats.compute_pattern_stats (H := series_libm) 100 (lit "Samuel_II") Example.words
      Example.suffix_target Example.prefix_target = Some stats
    ∧ Stats.total_words stats = Z.of_nat (length Example.words)
    ∧ 0 ≤ Stats.observed_adjacent stats ≤ Stats.suffix_count stats
    ∧ Stats.observed_adjacent stats ≤ Stats.prefix_count stats
    ∧ Stats.observed_adjacent stats ≤ Z.max 0 (Stats.total_words stats - 1)
    ∧ Stats.suffix_count stats ≤ Stats.total_words stats
    ∧ Stats.prefix_count stats ≤ Stats.total_words stats.
Proof.
  assert (∃ stats,
            Stats.compute_pattern_stats (H := series_libm) 100 (lit "Samuel_II")
              Example.words Example.suffix_target Example.prefix_target
            = Some stats) as [stats Hstats].
  { vm_compute. eexists. reflexivity. }
  exists stats. split; [exact Hstats|].
  exact (pattern_stats_counts_consistent (H := series_libm) 100 (lit "Samuel_II")
           Example.words Example.suffix_target Example.prefix_target stats Hstats).
Defined.

Lemma no_adjacency_p_value_one_witness :
  ∃ stats,
    Stats.compute_pattern_stats (H := series_libm) 0 (lit "Samuel_II") Example.words
      Search.FIRST_WORD_SUFFIX Search.SECOND_WORD_PREFIX = Some stats
    ∧ Stats.observed_adjacent stats = 0
    ∧ Stats.p_value stats = 1%float.
Proof.
  apply (no_adjacency_p_value_one (H := series_libm) 0 (lit "Samuel_II") Example.words
           Search.FIRST_WORD_SUFFIX Search.SECOND_WORD_PREFIX).
  vm_compute. reflexivity.
Defined.

Lemma poisson_tail_nan_diverges_witness :
  Stats._poisson_tail (H := series_libm) 1000 1 nan = None.
Proof.
  apply (poisson_tail_nan_diverges (H := series_libm) 1000 1 nan); [reflexivity|lia].
Defined.

Lemma expected_and_ratio_nonnegative_witness :
  ∃ stats,
    Stats.compute_pattern_stats (H := series_libm) 100 (lit "Samuel_II") Example.words
      Example.suffix_target Example.prefix_target = Some stats
    ∧ (0 <=? Stats.expected_adjacent stats)%float = true
    ∧ (0 <=? Stats.ratio stats)%float = true
    ∧ (0 <=? Stats.suffix_percent stats)%float = true
    ∧ (0 <=? Stats.prefix_percent stats)%float = true
    ∧ ((Stats.expected_adjacent stats =? 0)%float = true → Stats.ratio stats = infinity).
Proof.
  assert (∃ stats,
            Stats.compute_pattern_stats (H := series_libm) 100 (lit "Samuel_II")
              Example.words Example.suffix_target Example.prefix_target
            = Some stats) as [stats Hstats].
  { vm_compute. eexists. reflexivity. }
  exists stats. split; [exact Hstats|].
  apply (expected_and_ratio_nonnegative (H := series_libm) 100 (lit "Samuel_II")
           Example.words Example.suffix_target Example.prefix_target stats);
    [done | simpl; lia | exact Hstats].
Defined.

Lemma zero_count_statistics_witness :
  ∃ stats,
    Stats.compute_pattern_stats (H := series_libm) 0 (lit "Samuel_II") Example.words
      Example.suffix_target [] = Some stats
    ∧ Stats.expected_adjacent stats = 0%float
    ∧ Stats.observed_adjacent stats = 0
    ∧ Stats.ratio stats = infinity
    ∧ Stats.p_value stats = 1%float.
Proof.
  apply (zero_count_statistics (H := series_libm) 0 (lit "Samuel_II") Example.words
           Example.suffix_target []); [done | simpl; lia | right; right; reflexivity].
Defined.

Lemma resolve_targets_splits_word_witness :
  Stats.resolve_targets (H := hebrew_unicodedata)
    (Some Example.pointed_word) None None None
  = inr (Search.FIRST_WORD_SUFFIX, Search.SECOND_WORD_PREFIX)
  ∧ Search.FIRST_WORD_SUFFIX ++ Search.SECOND_WORD_PREFIX
    = Stats.normalize_for_match (H := hebrew_unicodedata) Example.pointed_word
  ∧ Z.of_nat (length Search.FIRST_WORD_SUFFIX) = 2.
Proof.
  assert (Stats.resolve_targets (H := hebrew_unicodedata)
            (Some Example.pointed_word) None None None
          = inr (Search.FIRST_WORD_SUFFIX, Search.SECOND_WORD_PREFIX)) as Hrun.
  { vm_compute. reflexivity. }
  split; [exact Hrun|].
  exact (proj2 (proj2 (resolve_targets_splits_word (H := hebrew_unicodedata)
                         (Some Example.pointed_word) None None None
                         eq_refl eq_refl))
           Search.FIRST_WORD_SUFFIX Search.SECOND_WORD_PREFIX Hrun).
Defined.

Lemma load_words_normalised_witness :
  Stats.load_words (H := hebrew_unicodedata) Example.stats_api
  = [ {| Stats.text := Search.WORD_TO_SEARCH; Stats.book := lit "Samuel_II" |} ]
  ∧ Stats.normalize_for_match (H := hebrew_unicodedata) Search.WORD_TO_SEARCH
    = Search.WORD_TO_SEARCH.
Proof.
  assert (Stats.load_words (H := hebrew_unicodedata) Example.stats_api
          = [ {| Stats.text := Search.WORD_TO_SEARCH; Stats.book := lit "Samuel_II" |} ])
    as Hrun.
  { vm_compute. reflexivity. }
  split; [exact Hrun|].
  apply (load_words_normalised (H := hebrew_unicodedata)
           (Hlaws := hebrew_unicodedata_laws) Example.stats_api
           {| Stats.text := Search.WORD_TO_SEARCH; Stats.book := lit "Samuel_II" |}).
  rewrite Hrun. constructor.
Defined.

Lemma resolved_targets_no_final_letters_witness :
  (0x5dd%N ∉ Search.FIRST_WORD_SUFFIX) ∧ (0x5dd%N ∉ Search.SECOND_WORD_PREFIX).
Proof.
  apply (resolved_targets_no_final_letters (H := hebrew_unicodedata)
           (Some Example.pointed_word) None None None
           Search.FIRST_WORD_SUFFIX Search.SECOND_WORD_PREFIX 0x5dd%N).
  - vm_compute. reflexivity.
  - unfold final_letters. repeat constructor.
Defined.

Lemma match_context_window_witness :
  ∃ (i : nat) (before after : list Z),
    length before = (i `min` 3)%nat
    ∧ Search.context Example.found
      = context_of Example.api
          (before ++ Search.nodes (Search.first Example.found)
           ++ Search.nodes (Search.second Example.found) ++ after).
Proof.
  destruct (match_context_window (H := hebrew_unicodedata)
              Example.suffix_target Example.prefix_target Example.api
              [Example.found] Example.found)
    as (i & before & after & _ & Hbefore & _ & Hcontext & _).
  - vm_compute. reflexivity.
  - constructor.
  - by exists i, before, after.
Defined.

Lemma summarize_by_book_counts_witness :
  ∃ summary lines,
    Search.summary_loop [Example.found] ∅ = Some summary
    ∧ Search.summarize_by_book [Example.found] = Some lines
    ∧ summary !! lit "Samuel_II" = Some 1.
Proof.
  destruct (summarize_by_book_counts (H := hebrew_unicodedata)
              Example.suffix_target Example.prefix_target Example.api
              [Example.found])
    as (summary & lines & Hloop & Hlines & Hsummary & _).
  - vm_compute. reflexivity.
  - exists summary, lines. split; [exact Hloop|split; [exact Hlines|]].
    apply Hsummary. split; [lia|]. vm_compute. reflexivity.
Defined.

(** The summary of the end-to-end example, as it is printed. *)
Example summarize_by_book_example :
  Search.summarize_by_book [Example.found]
  = Some [replicate 60 0x3d%N;
          lit "SUMMARY BY BOOK";
          replicate 60 0x3d%N;
          lit "Samuel_II           :   1 instance";
          []].
Proof. vm_compute. reflexivity. Qed.

Lemma empty_suffix_target_accepts_all_witness :
  ∃ stats,
    Stats.compute_pattern_stats (H := series_libm) 100 (lit "Samuel_II")
      Example.words [] Example.prefix_target = Some stats
    ∧ Stats.suffix_count stats = Z.of_nat (length Example.words)
    ∧ Stats.observed_adjacent stats
      = count_true (drop 1 (Stats._prefix_flags Example.words Example.prefix_target))
    ∧ ∃ matches,
        Search.collect_matches (H := hebrew_unicodedata) [] Example.prefix_target
          Example.api = Some matches
        ∧ length matches
          = length (filter (λ i, is_Some (Search.second_span_nodes
                                            (H := hebrew_unicodedata) Example.api (S i)
                                            (Search.normalize_for_match
                                               (H := hebrew_unicodedata)
                                               Example.prefix_target)))
                           (seq 0 (length (Search.otype_word Example.api) - 1))).
Proof.
  assert (∃ stats,
            Stats.compute_pattern_stats (H := series_libm) 100 (lit "Samuel_II")
              Example.words [] Example.prefix_target = Some stats) as [stats Hstats].
  { vm_compute. eexists. reflexivity. }
  exists stats. split; [exact Hstats|].
  exact (empty_suffix_target_accepts_all (H := hebrew_unicodedata) (H0 := series_libm)
           100 (lit "Samuel_II") Example.words Example.prefix_target stats
           Example.api Example.prefix_target Hstats).
Defined.
